(** * Block-tri-diagonal Green function engine (sisl toolbox, [_btd.py])

    A shallow embedding of [BlockMatrix], [DownfoldSelfEnergy] and
    [DeviceGreen] from [src/toolbox/btd/_btd.py], followed by the
    properties of the specification that concern them.

    Conventions of the embedding.
    - numpy arrays are values of an abstract tile type [T]; the numpy,
      scipy and LAPACK primitives the module imports ([@], [-], [solve],
      [inv_destroy], fancy indexing, ...) are the operations of the class
      [TileOps].  Their algebraic laws are stated separately ([DaggerLaws],
      [RingLaws], [RealLaws])
      and are assumed only by the theorems that need them.
    - a dense array that the code only ever reads and writes through
      block slices [c[i]:c[i+1]] is a finite map from block coordinates to
      tiles.  An array obtained from [np.empty] is the empty map: a block
      that is read before it was written raises [UninitializedRead], so a
      result [Ok] never depends on uninitialised memory.
    - Python exceptions are the constructors of [exn]; a method that can
      raise returns a [result]; a method that also mutates [self._data]
      is a function of the state returning the new state as well. *)

From Stdlib Require Import ZArith Lia String Ascii Sorted.
From stdpp Require Import base option list gmap strings.

Open Scope nat_scope.

(** ** Exceptions, results, and the two monads *)

Inductive exn : Type :=
| ValueError (msg : string)
| TypeError (msg : string)
| IndexError
| AttributeError (attr : string)
| AssertionError (msg : string)
| NotImplementedError
| LinAlgError
| RecursionError
| UnboundLocalError (var : string)
| UninitializedRead.

Inductive result (A : Type) : Type :=
| Ok (a : A)
| Err (e : exn).
Arguments Ok {A} a.
Arguments Err {A} e.

#[global] Instance result_ret : MRet result := fun _ a => Ok a.
#[global] Instance result_fmap : FMap result := fun _ _ f m =>
  match m with
  | Ok a => Ok (f a)
  | Err e => Err e
  end.
#[global] Instance result_bind : MBind result := fun _ _ f m =>
  match m with
  | Ok a => f a
  | Err e => Err e
  end.

(** [for x in l: s = body(x, s)] where the body may raise. *)
Fixpoint forM {S A : Type} (l : list A) (s : S) (body : A → S → result S)
  : result S :=
  match l with
  | [] => Ok s
  | x :: l' => s' ← body x s; forM l' s' body
  end.

(** [range(lo, hi)] for non-negative bounds. *)
Definition range (lo hi : nat) : list nat := seq lo (hi - lo).

(** [l[i]] for a non-negative index. *)
Definition index {A : Type} (l : list A) (i : nat) : result A :=
  match l !! i with
  | Some x => Ok x
  | None => Err IndexError
  end.

(** [l[i]] for a Python integer: a negative position counts from the
    end of the list. *)
Definition pyindex {A : Type} (l : list A) (i : Z) : result A :=
  let n := Z.of_nat (length l) in
  if decide (0 ≤ i)%Z then index l (Z.to_nat i)
  else if decide (- n ≤ i)%Z then index l (Z.to_nat (n + i))
  else Err IndexError.

(** [l[i] = v] for a non-negative index. *)
Definition setindex {A : Type} (l : list A) (i : nat) (v : A)
  : result (list A) :=
  if decide (i < length l) then Ok (<[i := v]> l) else Err IndexError.

(** The position Python resolves the negative index [-k] to. *)
Definition neg_index {A : Type} (l : list A) (k : nat) : result nat :=
  if decide (k ≤ length l) then Ok (length l - k) else Err IndexError.

(** [obj.attr] on a [PropertyDict]: a missing key is an [AttributeError]. *)
Definition attr {A : Type} (name : string) (o : option A) : result A :=
  match o with
  | Some x => Ok x
  | None => Err (AttributeError name)
  end.

(** [str.lower] on ASCII text, which is what the keywords of [format]
    and [method] are.  Python also lowers capitals outside ASCII; a
    string with such a capital is no keyword before or after lowering,
    so only the text echoed in an error message would differ. *)
Definition lower_ascii (c : ascii) : ascii :=
  let n := nat_of_ascii c in
  if decide (65 ≤ n ∧ n ≤ 90) then ascii_of_nat (n + 32) else c.

Fixpoint lower (s : string) : string :=
  match s with
  | EmptyString => EmptyString
  | String c s' => String (lower_ascii c) (lower s')
  end.

(** ** The numpy / scipy / sisl.linalg primitives on dense tiles *)

Class TileOps (T : Type) : Type := {
  tmul : T → T → T;                 (* A @ B *)
  tsub : T → T → T;                 (* A - B *)
  tneg : T → T;                     (* - A *)
  dagger : T → T;                   (* conj(M.T) *)
  ttrans : T → T;                   (* M.T *)
  tinv : T → option T;              (* the inverse; None when singular *)
  zeros : nat → nat → T;            (* np.zeros([r, c]) *)
  tlen : T → nat;                   (* len(M), the number of rows *)
  np_empty : T;                     (* content of a fresh np.empty row *)
  takecols : T → list nat → T;      (* M[:, idx] *)
  setcols : T → list nat → T → T;   (* M[:, idx] = X *)
  takerows : T → nat → option nat → T;  (* M[a:b, :] *)
  vstack : list T → T;              (* np.concatenate along axis 0 *)
  of_blocks : list (list T) → T;    (* the dense array of a grid of tiles *)
  indices_only : list nat → list nat → list nat;  (* sisl._indices *)
}.

(** What a Python list of the cache holds at one position: the
    placeholders [None], [0] or [1] it was created with, or an array. *)
Inductive slot (T : Type) : Type :=
| SNone
| SInt (z : Z)
| SArr (a : T).
Arguments SNone {T}.
Arguments SInt {T} z.
Arguments SArr {T} a.

(** An operand of [@], [-] or [solve].  The placeholders are never
    operands when the lists have their length nb; should one be, the
    embedding raises a [TypeError]. *)
Definition as_array {T : Type} (s : slot T) : result T :=
  match s with
  | SArr a => Ok a
  | _ => Err (TypeError "operand is not an array")
  end.

(** [l[i]] used as an array operand. *)
Definition getarr {T : Type} (l : list (slot T)) (i : nat) : result T :=
  s ← index l i; as_array s.

(** [np.cumsum] *)
Fixpoint cumsum_from (acc : nat) (l : list nat) : list nat :=
  match l with
  | [] => []
  | x :: l' => (acc + x) :: cumsum_from (acc + x) l'
  end.

Definition cumsum (l : list nat) : list nat := cumsum_from 0 l.

(** [np.allclose], [sisl._array.asarrayd] on energies and k-points. *)
Class Numerics (energy kpoint : Type) : Type := {
  allclose_E : energy → energy → bool;
  allclose_k : kpoint → kpoint → bool;
  asarrayd : kpoint → kpoint;
  isrealobj : energy → bool;             (* np.isrealobj(E) *)
}.

(** [scipy.sparse] matrices and the conversions to dense tiles. *)
Class SparseOps (T energy sparse : Type) : Type := {
  sp_scale : sparse → energy → sparse;             (* M * E *)
  sp_sub : sparse → sparse → sparse;               (* M - N *)
  sp_pivot : sparse → list nat → sparse;           (* M[pvt, :][:, pvt] *)
  sp_isub : sparse → list nat → T → sparse;        (* M[idx, idx.T] -= X *)
  sp_set : sparse → list nat → sparse → sparse;    (* M[idx, idx.T] = N *)
  sp_block : sparse → nat * nat → nat * nat → T;
      (* M[r0:r1, :].tocsc()[:, c0:c1].toarray() *)
  sp_take : sparse → list nat → list nat → T;      (* M[idx1, idx2.T].toarray() *)
  sp_fill : sparse → nat * nat → nat * nat → T → sparse;
      (* M.data[idx] = X[row[idx] - r0, col[idx] - c0] for the stored
         entries idx of M in rows r0:r1 and columns c0:c1 *)
}.

(** The floating-point scalars of the DOS vectors. *)
Class RealOps (R : Type) : Type := {
  rleb : R → R → bool;      (* x <= y *)
  rltb : R → R → bool;      (* x < y *)
  rzero : R;
  rneg : R → R;
  rmul : R → R → R;
  rfabs : R → R;            (* np.fabs *)
  rsign : R → R;            (* np.sign *)
  rsqrt : R → R;            (* np.sqrt *)
  rsquare : R → R;          (* x ** 2 *)
  sub_tenth : R → R;        (* x - 0.1 *)
  mul_2pi : R → R;          (* x * 2 * np.pi *)
  div_2pi : R → R;          (* x / (2 * np.pi) *)
  argsort : list R → list nat;   (* np.argsort *)
}.

(** LAPACK drivers and the element-wise numpy operations that mix a
    tile with a vector of scalars. *)
Class Lapack (T R : Type) : Type := {
  eigh : T → result (list R * T);           (* (w, V) *)
  eigh_destroy : T → result (list R * T);
  svd_destroy : T → result (T * list R);    (* (U, s); Vh is dropped *)
  add_tenth_diag : T → T;    (* np.fill_diagonal(A, A.diagonal() + 0.1) *)
  scale_cols : T → list R → T;              (* U * v *)
}.


(** Modelled from the spec: [sisl.linalg.inv_destroy] is imported, its
    source is not part of the module.  Section 4.1: "returns A⁻¹"; a
    singular argument raises numpy's [LinAlgError]. *)
Definition inv_destroy `{TileOps T} (a : T) : result T :=
  match tinv a with
  | Some ai => Ok ai
  | None => Err LinAlgError
  end.

(** Modelled from the spec: [sisl.linalg.solve] is imported, its source is
    not part of the module.  Section 4.1: "returns X s.t. A·X = B; fails on
    singular A", that is X = A⁻¹·B. *)
Definition solve `{TileOps T} (a b : T) : result T :=
  match tinv a with
  | Some ai => Ok (tmul ai b)
  | None => Err LinAlgError
  end.

(** ** BlockMatrix *)

Module BlockMatrix.
Section BlockMatrix.
Context {T : Type} `{TileOps T}.

(** [self._blocks], [self._M]; keys are the (i, j) tuples the module
    builds from [range], hence pairs of naturals. *)
Record t : Type := mk {
  blocks : list nat;
  _M : gmap (nat * nat) T;
}.

(** [BlockMatrix.__init__] *)
Definition init (blocks : list nat) : t := mk blocks ∅.

(** [len(self.block_indexer)] *)
Definition len (self : t) : nat := length (blocks self).

(** [BlockMatrixIndexer.__getitem__] for a tuple key whose positions are
    not negative, as all the keys [range] yields are. *)
Definition getitem (self : t) (key : nat * nat) : result T :=
  match _M self !! key with
  | Some M => Ok M
  | None =>
      let '(i, j) := key in
      bi ← index (blocks self) i;
      bj ← index (blocks self) j;
      Ok (zeros bi bj)
  end.

(** [BlockMatrixIndexer.__getitem__] for a tuple of two Python integers.
    The stored keys are pairs of naturals, so a key with a negative
    position is not among them: the read then builds the zero tile from
    [blocks[i]] and [blocks[j]], where a negative position counts from
    the end. *)
Definition getitem_at (self : t) (i j : Z) : result T :=
  let stored :=
    if decide (0 ≤ i ∧ 0 ≤ j)%Z then _M self !! (Z.to_nat i, Z.to_nat j)
    else None in
  match stored with
  | Some M => Ok M
  | None =>
      bi ← pyindex (blocks self) i;
      bj ← pyindex (blocks self) j;
      Ok (zeros bi bj)
  end.

(** [BlockMatrixIndexer.__setitem__] for a tuple key. *)
Definition setitem (self : t) (key : nat * nat) (M : T) : t :=
  mk (blocks self) (<[key := M]> (_M self)).

(** [BlockMatrix.toarray]: the dense array, by block coordinates
    (i, j) = (block row, block column).  Without blocks the outer
    [np.concatenate] receives an empty list and raises. *)
Definition toarray (self : t) : result (gmap (nat * nat) T) :=
  let nb := len self in
  if decide (nb = 0) then
    Err (ValueError "need at least one array to concatenate")
  else
    forM (range 0 nb) ∅ (fun j arr =>
      forM (range 0 nb) arr (fun i arr =>
        v ← getitem self (i, j);
        Ok (<[(i, j) := v]> arr))).

(** [BlockMatrix.tobtd].  Inside the loop nb ≥ 1, so [nb - 1] and
    [max(0, j-1)] are the same numbers in ℕ as in Python's integers. *)
Definition tobtd (self : t) : result t :=
  let ret := init (blocks self) in
  let nb := len self in
  let nbm1 := nb - 1 in
  forM (range 0 nb) ret (fun j ret =>
    forM (range (max 0 (j - 1)) (min (j + 1) nbm1)) ret (fun i ret =>
      v ← getitem self (i, j);
      Ok (setitem ret (i, j) v))).
End BlockMatrix.
Arguments t T : clear implicits.
End BlockMatrix.

(** ** DeviceGreen *)

Module DeviceGreen.
Section DeviceGreen.
Context {T energy kpoint sparse R : Type}.
Context `{TileOps T} `{Numerics energy kpoint} `{SparseOps T energy sparse}.
Context `{RealOps R} `{Lapack T R}.

(** The depth of recursion the interpreter still allows when a public
    method is entered ([sys.getrecursionlimit()] minus the frames in use). *)
Variable recursion_limit : nat.

(** An electrode as [DeviceGreen] uses it: a [PivotSelfEnergy] (or a
    subclass) with its name, its [pvt_dev] indices, and the two methods
    [self_energy(E, k)] and [se2scat(SE)] of the Σ provider. *)
Record electrode : Type := {
  name : string;
  pvt_dev : list nat;
  self_energy : energy → kpoint → result T;
  se2scat : T → T;
}.

(** The attributes [__init__] stores; [btd_cum] is [np.cumsum(self.btd)]. *)
Record device : Type := {
  H_Sk : kpoint → sparse;          (* self.H.Sk(k, dtype=complex128) *)
  H_Hk : kpoint → sparse;          (* self.H.Hk(k, dtype=complex128) *)
  H_Sk_csr : sparse;               (* self.H.Sk(format='csr') *)
  elecs : list electrode;
  elecs_pvt_dev : list (list nat);
  pvt : list nat;
  btd : list nat;
}.

Definition btd_cum (self : device) : list nat := cumsum (btd self).

(** [self._data], a [PropertyDict]: every attribute is present or not. *)
Record cache : Type := {
  d_gamma : option (list T);
  d_A : option (list (slot T));
  d_B : option (list (slot T));
  d_C : option (list (slot T));
  d_tX : option (list (slot T));
  d_tY : option (list (slot T));
  d_E : option energy;
  d_k : option kpoint;
}.

Definition empty_cache : cache :=
  {| d_gamma := None; d_A := None; d_B := None; d_C := None;
     d_tX := None; d_tY := None; d_E := None; d_k := None |}.

(** The mutable part of a [DeviceGreen]: the cache, and (as a ghost
    record of the calls made to the Σ providers) the list of
    [self_energy(E, k)] invocations, most recent first. *)
Record state : Type := {
  data : cache;
  se_calls : list (string * energy * kpoint);
}.

(** A method that may raise and may mutate [self._data]: the state it
    leaves behind is returned also when it raises. *)
Definition M (A : Type) : Type := state → result A * state.

Definition ret {A : Type} (a : A) : M A := fun st => (Ok a, st).

Definition bind {A B : Type} (m : M A) (f : A → M B) : M B := fun st =>
  match m st with
  | (Ok a, st') => f a st'
  | (Err e, st') => (Err e, st')
  end.

Definition lift {A : Type} (r : result A) : M A := fun st => (r, st).

Definition get_data : M cache := fun st => (Ok (data st), st).

Definition modify_data (f : cache → cache) : M unit := fun st =>
  (Ok tt, {| data := f (data st); se_calls := se_calls st |}).

(** [for x in l: s = body(x, s)] where the body is a method. *)
Fixpoint forS {S A : Type} (l : list A) (s : S) (body : A → S → M S) : M S :=
  match l with
  | [] => ret s
  | x :: l' => bind (body x s) (fun s' => forS l' s' body)
  end.

(** [DeviceGreen.reset] *)
Definition reset : M unit := modify_data (fun _ => empty_cache).

(** The argument [elec] of the public methods: a name, an index, or a
    [PivotSelfEnergy] object. *)
Inductive elec_arg : Type :=
| EStr (s : string)
| EInt (i : Z)
| EObj (el : electrode).

(** The [for iel, el in enumerate(self.elecs)] loop of [_elec]. *)
Fixpoint find_name (els : list electrode) (iel : nat) (s : string)
  : option nat :=
  match els with
  | [] => None
  | el :: els' =>
      if decide (name el = s) then Some iel else find_name els' (S iel) s
  end.

(** [DeviceGreen._elec] *)
Definition _elec (self : device) (elec : elec_arg) : elec_arg :=
  let of_str s :=
    match find_name (elecs self) 0 s with
    | Some iel => EInt (Z.of_nat iel)
    | None => EStr s
    end in
  match elec with
  | EStr s => of_str s
  | EObj el => of_str (name el)
  | EInt i => EInt i
  end.

(** [l[key]] for a Python list [l] and a key of the three kinds. *)
Definition list_getitem {A : Type} (l : list A) (key : elec_arg) : result A :=
  match key with
  | EInt z =>
      let n := Z.of_nat (length l) in
      if decide (0 ≤ z < n)%Z then index l (Z.to_nat z)
      else if decide (- n ≤ z < 0)%Z then index l (Z.to_nat (n + z))
      else Err IndexError
  | EStr _ => Err (TypeError "list indices must be integers or slices, not str")
  | EObj _ =>
      Err (TypeError "list indices must be integers or slices, not PivotSelfEnergy")
  end.

(** [DeviceGreen._elec_name] *)
Definition _elec_name (self : device) (elec : elec_arg) : result string :=
  match elec with
  | EStr s => Ok s
  | EObj el => Ok (name el)
  | EInt _ => el ← list_getitem (elecs self) elec; Ok (name el)
  end.

(** [DeviceGreen._check_Ek] *)
Definition _check_Ek (E : energy) (k : kpoint) : M bool :=
  bind get_data (fun d =>
  let miss := bind reset (fun _ => ret false) in
  match d_E d with
  | Some E0 =>
      if allclose_E E0 E then
        bind (lift (attr "k" (d_k d))) (fun k0 =>
        if allclose_k k0 k then ret true else miss)
      else miss
  | None => miss
  end).

(** [elec.self_energy(E, k)], recorded in the ghost call list. *)
Definition call_self_energy (el : electrode) (E : energy) (k : kpoint) : M T :=
  fun st =>
    (self_energy el E k,
     {| data := data st; se_calls := (name el, E, k) :: se_calls st |}).

(** The statements of [_prepare_se] after the early return. *)
Definition _prepare_se_body (self : device) (E : energy) (k : kpoint)
  : M unit :=
  bind (forS (elecs self) [] (fun elec gamma =>
          bind (call_self_energy elec E k) (fun SE =>
          ret (gamma ++ [se2scat elec SE])))) (fun gamma =>
  modify_data (fun d =>
    {| d_gamma := Some gamma; d_A := d_A d; d_B := d_B d; d_C := d_C d;
       d_tX := d_tX d; d_tY := d_tY d; d_E := d_E d; d_k := d_k d |})).

(** [DeviceGreen._prepare_se] *)
Definition _prepare_se (self : device) (E : energy) (k : kpoint) : M unit :=
  bind (_check_Ek E k) (fun hit =>
  if hit : bool then ret tt else _prepare_se_body self E k).

(** One iteration of [for b, bs in enumerate(btd[1:-1], 1)] in
    [_prepare]; a slice is the pair of its bounds. *)
Definition extract_step (cbtd : list nat) (inv_G : sparse) (b : nat)
    (s : (nat * nat) * (nat * nat) * list (slot T) * list (slot T)
         * list (slot T))
  : result ((nat * nat) * (nat * nat) * list (slot T) * list (slot T)
            * list (slot T)) :=
  let '(sl0, slp, A, B, C) := s in
  (* rotate slices *)
  let sln := sl0 in
  let sl0 := slp in
  cb ← index cbtd b;
  cb1 ← index cbtd (b + 1);
  let slp := (cb, cb1) in
  B ← setindex B (b - 1) (SArr (sp_block inv_G sl0 sln));
  A ← setindex A b (SArr (sp_block inv_G sl0 sl0));
  C ← setindex C (b + 1) (SArr (sp_block inv_G sl0 slp));
  Ok (sl0, slp, A, B, C).

(** The block extraction of [_prepare]: the lists [A], [B], [C]. *)
Definition extract_tiles (self : device) (inv_G : sparse)
  : result (list (slot T) * list (slot T) * list (slot T)) :=
  let nb := length (btd self) in
  let A := replicate nb SNone in
  let B := replicate nb (SInt 1) in
  let C := replicate nb (SInt 1) in
  let cbtd := btd_cum self in
  c0 ← index cbtd 0;
  let sl0 := (0, c0) in
  c1 ← index cbtd 1;
  let slp := (c0, c1) in
  (* initial matrix A and C *)
  A ← setindex A 0 (SArr (sp_block inv_G sl0 sl0));
  C ← setindex C 1 (SArr (sp_block inv_G sl0 slp));
  '(sl0, slp, A, B, C) ←
    forM (range 1 (nb - 1)) (sl0, slp, A, B, C) (extract_step cbtd inv_G);
  (* and final matrix A and B *)
  last ← neg_index A 1;
  A ← setindex A last (SArr (sp_block inv_G slp slp));
  last2 ← neg_index B 2;
  B ← setindex B last2 (SArr (sp_block inv_G slp sl0));
  Ok (A, B, C).

(** One iteration of [for n in range(2, nb)] in [_prepare]. *)
Definition propagation_step (nb : nat) (A B C : list (slot T)) (n : nat)
    (s : list (slot T) * list (slot T))
  : result (list (slot T) * list (slot T)) :=
  let '(tX, tY) := s in
  let p := nb - n - 1 in
  (* \tilde Y *)
  a ← getarr A (n - 1);
  b ← getarr B (n - 2);
  y ← getarr tY (n - 1);
  c ← getarr C n;
  yn ← solve (tsub a (tmul b y)) c;
  tY ← setindex tY n (SArr yn);
  (* \tilde X *)
  a ← getarr A (p + 1);
  c ← getarr C (p + 2);
  x ← getarr tX (p + 1);
  b ← getarr B p;
  xp ← solve (tsub a (tmul c x)) b;
  tX ← setindex tX p (SArr xp);
  Ok (tX, tY).

(** The forward and backward recurrences of [_prepare]: [tX], [tY]. *)
Definition propagation_tiles (nb : nat) (A B C : list (slot T))
  : result (list (slot T) * list (slot T)) :=
  let tX := replicate nb (SInt 0) in
  let tY := replicate nb (SInt 0) in
  (* \tilde Y *)
  a0 ← getarr A 0;
  c1 ← getarr C 1;
  y1 ← solve a0 c1;
  tY ← setindex tY 1 (SArr y1);
  (* \tilde X *)
  iA ← neg_index A 1;
  al ← getarr A iA;
  iB ← neg_index B 2;
  bl ← getarr B iB;
  xl ← solve al bl;
  iX ← neg_index tX 2;
  tX ← setindex tX iX (SArr xl);
  forM (range 2 nb) (tX, tY) (propagation_step nb A B C).

(** The statements of [_prepare] after the early return. *)
Definition _prepare_body (self : device) (E : energy) (k : kpoint) : M unit :=
  let inv_G := sp_sub (sp_scale (H_Sk self k) E) (H_Hk self k) in
  let inv_G := sp_pivot inv_G (pvt self) in
  bind (forS (elecs self) (inv_G, [])
         (fun elec '(inv_G, gamma) =>
            bind (call_self_energy elec E k) (fun SE =>
            ret (sp_isub inv_G (pvt_dev elec) SE,
                 gamma ++ [se2scat elec SE])))) (fun '(inv_G, gamma) =>
  (* del SE *)
  bind (lift (if decide (elecs self = [])
              then Err (UnboundLocalError "SE") else Ok tt)) (fun _ =>
  bind (modify_data (fun d =>
    {| d_gamma := Some gamma; d_A := d_A d; d_B := d_B d; d_C := d_C d;
       d_tX := d_tX d; d_tY := d_tY d; d_E := d_E d; d_k := d_k d |}))
    (fun _ =>
  let nb := length (btd self) in
  bind (lift (extract_tiles self inv_G)) (fun '(A, B, C) =>
  bind (modify_data (fun d =>
    {| d_gamma := d_gamma d; d_A := Some A; d_B := Some B; d_C := Some C;
       d_tX := d_tX d; d_tY := d_tY d; d_E := d_E d; d_k := d_k d |}))
    (fun _ =>
  bind (lift (propagation_tiles nb A B C)) (fun '(tX, tY) =>
  modify_data (fun d =>
    {| d_gamma := d_gamma d; d_A := d_A d; d_B := d_B d; d_C := d_C d;
       d_tX := Some tX; d_tY := Some tY;
       d_E := Some E; d_k := Some (asarrayd k) |}))))))).

(** [DeviceGreen._prepare] *)
Definition _prepare (self : device) (E : energy) (k : kpoint) : M unit :=
  bind (_check_Ek E k) (fun hit =>
  if hit : bool then ret tt else _prepare_body self E k).

(** *** The Green function *)

(** The dense arrays [G], [S] the methods build with [np.empty] and fill
    through block slices: block (i, j) is rows [c[i]:c[i+1]] and columns
    [c[j]:c[j+1]]. *)
Abbreviation dense := (gmap (nat * nat) T).

(** Reading the block [S[c[i]:c[i+1], c[j]:c[j+1]]]. *)
Definition dget (S : dense) (i j : nat) : result T :=
  match S !! (i, j) with
  | Some t => Ok t
  | None => Err UninitializedRead
  end.

(** The diagonal tile of the Green function; the [if b == 0 / elif b ==
    nbm1 / else] statement that [_green_array], [_green_btd],
    [_green_sparse], [_green_diag_block] and [_green_column] all contain. *)
Definition diag_tile (nb : nat) (A B C tX tY : list (slot T)) (b : nat)
  : result T :=
  if decide (b = 0) then
    a ← getarr A b;
    c ← getarr C (b + 1);
    x ← getarr tX b;
    inv_destroy (tsub a (tmul c x))
  else if decide (b = nb - 1) then
    a ← getarr A b;
    b1 ← getarr B (b - 1);
    y ← getarr tY b;
    inv_destroy (tsub a (tmul b1 y))
  else
    a ← getarr A b;
    b1 ← getarr B (b - 1);
    y ← getarr tY b;
    c ← getarr C (b + 1);
    x ← getarr tX b;
    inv_destroy (tsub (tsub a (tmul b1 y)) (tmul c x)).

(** One iteration of [for b, bs in enumerate(btd)] in [_green_array]:
    column [b] of the dense Green function. *)
Definition green_array_column (nb : nat) (A B C tX tY : list (slot T))
    (b : nat) (G : dense) : result dense :=
  (* Calculate diagonal part *)
  g ← diag_tile nb A B C tX tY b;
  let G := <[(b, b) := g]> G in
  (* Do above *)
  '(G, _) ← forM (rev (range 0 b)) (G, b) (fun a '(G, slp) =>
    y ← getarr tY (a + 1);
    g ← dget G slp b;
    Ok (<[(a, b) := tmul (tneg y) g]> G, a));
  (* Do below *)
  '(G, _) ← forM (range (b + 1) nb) (G, b) (fun a '(G, slp) =>
    x ← getarr tX (a - 1);
    g ← dget G slp b;
    Ok (<[(a, b) := tmul (tneg x) g]> G, a));
  Ok G.

(** [DeviceGreen._green_array] *)
Definition _green_array (self : device) (d : cache) : result dense :=
  A ← attr "A" (d_A d);
  _ ← index A 0;
  let nb := length (btd self) in
  B ← attr "B" (d_B d);
  C ← attr "C" (d_C d);
  tX ← attr "tX" (d_tX d);
  tY ← attr "tY" (d_tY d);
  forM (range 0 nb) (∅ : dense) (green_array_column nb A B C tX tY).

(** One iteration of [for b in range(nb)] in [_green_btd]. *)
Definition green_btd_column (nb : nat) (A B C tX tY : list (slot T))
    (b : nat) (G : BlockMatrix.t T) : result (BlockMatrix.t T) :=
  let nbm1 := nb - 1 in
  (* Calculate diagonal part *)
  G11 ← diag_tile nb A B C tX tY b;
  let G := BlockMatrix.setitem G (b, b) G11 in
  (* do above *)
  G ← (if decide (0 < b) then
         y ← getarr tY b;
         Ok (BlockMatrix.setitem G (b - 1, b) (tmul (tneg y) G11))
       else Ok G);
  (* do below *)
  G ← (if decide (b < nbm1) then
         x ← getarr tX b;
         Ok (BlockMatrix.setitem G (b + 1, b) (tmul (tneg x) G11))
       else Ok G);
  Ok G.

(** [DeviceGreen._green_btd] *)
Definition _green_btd (self : device) (d : cache)
  : result (BlockMatrix.t T) :=
  let G := BlockMatrix.init (btd self) in
  let nb := BlockMatrix.len G in
  A ← attr "A" (d_A d);
  B ← attr "B" (d_B d);
  C ← attr "C" (d_C d);
  tX ← attr "tX" (d_tX d);
  tY ← attr "tY" (d_tY d);
  forM (range 0 nb) G (green_btd_column nb A B C tX tY).

(** [DeviceGreen._green_bm] *)
Definition _green_bm (self : device) (d : cache)
  : result (BlockMatrix.t T) :=
  G ← _green_btd self d;
  let nb := BlockMatrix.len G in
  let nbm1 := nb - 1 in
  tX ← attr "tX" (d_tX d);
  tY ← attr "tY" (d_tY d);
  forM (range 0 nb) G (fun b G =>
    G0 ← BlockMatrix.getitem G (b, b);
    '(G, _) ← forM (rev (range 1 (b + 1))) (G, G0) (fun bb '(G, G0) =>
      y ← getarr tY bb;
      let G0 := tmul (tneg y) G0 in
      Ok (BlockMatrix.setitem G (bb - 1, b) G0, G0));
    G0 ← BlockMatrix.getitem G (b, b);
    '(G, _) ← forM (range b nbm1) (G, G0) (fun bb '(G, G0) =>
      x ← getarr tX bb;
      let G0 := tmul (tneg x) G0 in
      Ok (BlockMatrix.setitem G (bb + 1, b) G0, G0));
    Ok G).

(** [DeviceGreen._green_sparse] *)
Definition _green_sparse (self : device) (d : cache) : result sparse :=
  A ← attr "A" (d_A d);
  _ ← index A 0;
  let G := sp_pivot (H_Sk_csr self) (pvt self) in
  let nb := length (btd self) in
  let nbm1 := nb - 1 in
  B ← attr "B" (d_B d);
  C ← attr "C" (d_C d);
  tX ← attr "tX" (d_tX d);
  tY ← attr "tY" (d_tY d);
  '(G, _, _) ← forM (combine (range 0 nb) (btd self)) (G, 0, 0)
    (fun '(b, bs) '(G, sumbsn, sumbs) =>
      let sumbsp := sumbs + bs in
      GM ← diag_tile nb A B C tX tY b;
      let G := sp_fill G (sumbs, sumbsp) (sumbs, sumbsp) GM in
      G ← (if decide (0 < b) then
             y ← getarr tY b;
             Ok (sp_fill G (sumbsn, sumbs) (sumbs, sumbsp) (tneg (tmul y GM)))
           else Ok G);
      G ← (if decide (b < nbm1) then
             bsp ← index (btd self) (b + 1);
             x ← getarr tX b;
             Ok (sp_fill G (sumbsp, sumbsp + bsp) (sumbs, sumbsp)
                   (tneg (tmul x GM)))
           else Ok G);
      Ok (G, sumbs, sumbs + bs));
  Ok G.

Inductive green_result : Type :=
| GArray (G : dense)
| GSparse (G : sparse)
| GBlock (G : BlockMatrix.t T).

(** [DeviceGreen.green] *)
Definition green (self : device) (E : energy) (k : kpoint) (format : string)
  : M green_result :=
  bind (_prepare self E k) (fun _ =>
  let format := lower format in
  bind get_data (fun d =>
  if decide (format = "array" ∨ format = "dense") then
    lift (GArray <$> _green_array self d)
  else if decide (format = "sparse") then
    lift (GSparse <$> _green_sparse self d)
  else if decide (format = "btd") then
    lift (GBlock <$> _green_btd self d)
  else if decide (format = "bm") then
    lift (GBlock <$> _green_bm self d)
  else
    lift (Err (ValueError
      "DeviceGreen.green 'format' not valid input [array,sparse,btd/bm]")))).

(** *** Columns and diagonal blocks of the Green function *)

(** [idx.min()], [idx.max()] *)
Definition np_min (idx : list nat) : result nat :=
  match idx with
  | [] => Err (ValueError "zero-size array to reduction operation minimum which has no identity")
  | x :: r => Ok (foldr Nat.min x r)
  end.

Definition np_max (idx : list nat) : result nat :=
  match idx with
  | [] => Err (ValueError "zero-size array to reduction operation maximum which has no identity")
  | x :: r => Ok (foldr Nat.max x r)
  end.

(** [(v < self.btd_cum).nonzero()[0][0]] *)
Definition find_block (v : nat) (cum : list nat) : result nat :=
  match list_find (fun c => v < c) cum with
  | Some (b, _) => Ok b
  | None => Err IndexError
  end.

(** The tall arrays [G] of [_green_column] and [_green_diag_block]: one
    tile per block of rows.  A statement [G[sl, r_idx] = X] replaces the
    columns [r_idx] of the tile of the row block [sl]. *)
Abbreviation tall := (gmap nat T).

Definition write_cols (G : tall) (b : nat) (r_idx : list nat) (X : T) : tall :=
  <[b := setcols (default np_empty (G !! b)) r_idx X]> G.

Definition read_cols (G : tall) (b : nat) (r_idx : list nat) : result T :=
  match G !! b with
  | Some t => Ok (takecols t r_idx)
  | None => Err UninitializedRead
  end.

Definition read_row (G : tall) (b : nat) : result T :=
  match G !! b with
  | Some t => Ok t
  | None => Err UninitializedRead
  end.

(** The column indices [b_idx] inside block [b] and the positions
    [r_idx] of these columns in [G], as both methods compute them. *)
Definition block_columns (c : list nat) (idx : list nat) (blocks : list nat)
    (b : nat) : result (list nat * list nat) :=
  cb ← index c b;
  cb1 ← index c (b + 1);
  let i := filter (fun x => x < cb1) (filter (fun x => cb ≤ x) idx) in
  let b_idx := indices_only (range cb cb1) i in
  b0 ← index blocks 0;
  let r_idx :=
    if decide (b = b0) then range 0 (length b_idx)
    else range (length idx - length b_idx) (length idx) in
  Ok (b_idx, r_idx).

(** [DeviceGreen._green_diag_block] *)
Definition _green_diag_block (self : device) (d : cache) (idx : list nat)
  : result (list nat * tall) :=
  let nb := length (btd self) in
  mn ← np_min idx;
  block1 ← find_block mn (btd_cum self);
  mx ← np_max idx;
  block2 ← find_block mx (btd_cum self);
  let blocks :=
    if decide (block1 = block2) then [block1]
    else range block1 (block2 + 1) in
  _ ← (if decide (length blocks ≤ 2) then Ok tt
       else Err (AssertionError
         "DeviceGreen requires G calculation for only 1 or 2 blocks"));
  A ← attr "A" (d_A d);
  _ ← index A 0;
  let c := 0 :: btd_cum self in
  B ← attr "B" (d_B d);
  C ← attr "C" (d_C d);
  tX ← attr "tX" (d_tX d);
  tY ← attr "tY" (d_tY d);
  G ← forM blocks (∅ : tall) (fun b G =>
    '(b_idx, r_idx) ← block_columns c idx blocks b;
    b0 ← index blocks 0;
    g ← diag_tile nb A B C tX tY b;
    let G := write_cols G b r_idx (takecols g b_idx) in
    if decide (length blocks = 1) then Ok G   (* break *)
    else if decide (b = b0) then
      (* Calculate below *)
      b1 ← index blocks 1;
      x ← getarr tX b;
      g ← read_cols G b r_idx;
      Ok (write_cols G b1 r_idx (tmul (tneg x) g))
    else
      (* Calculate above *)
      y ← getarr tY b;
      g ← read_cols G b r_idx;
      Ok (write_cols G b0 r_idx (tmul (tneg y) g)));
  Ok (blocks, G).

(** [DeviceGreen._green_column] *)
Definition _green_column (self : device) (d : cache) (idx : list nat)
  : result tall :=
  let nb := length (btd self) in
  mn ← np_min idx;
  block1 ← find_block mn (btd_cum self);
  mx ← np_max idx;
  block2 ← find_block mx (btd_cum self);
  blocks ←
    (if decide (block1 = block2) then Ok [block1]
     else if decide (block1 + 1 = block2) then Ok [block1; block2]
     else Err (AssertionError
       "DeviceGreen Green column requires consecutive indices maximally spanning 2 blocks."));
  A ← attr "A" (d_A d);
  _ ← index A 0;
  let c := 0 :: btd_cum self in
  B ← attr "B" (d_B d);
  C ← attr "C" (d_C d);
  tX ← attr "tX" (d_tX d);
  tY ← attr "tY" (d_tY d);
  G ← forM blocks (∅ : tall) (fun b G =>
    '(b_idx, r_idx) ← block_columns c idx blocks b;
    b0 ← index blocks 0;
    g ← diag_tile nb A B C tX tY b;
    let G := write_cols G b r_idx (takecols g b_idx) in
    if decide (length blocks = 1) then Ok G   (* break *)
    else if decide (b = b0 ∧ b < nb - 1) then
      (* Calculate below *)
      x ← getarr tX b;
      g ← read_cols G b r_idx;
      Ok (write_cols G (b + 1) r_idx (tmul (tneg x) g))
    else if decide (0 < b) then
      (* Calculate above *)
      y ← getarr tY b;
      g ← read_cols G b r_idx;
      Ok (write_cols G (b - 1) r_idx (tmul (tneg y) g))
    else Ok G);
  (* Now we can calculate the Gf column above *)
  b0 ← index blocks 0;
  '(G, _) ← forM (rev (range 0 b0)) (G, b0) (fun b '(G, slp) =>
    y ← getarr tY (b + 1);
    g ← read_row G slp;
    Ok (<[b := tmul (tneg y) g]> G, b));
  (* All blocks below *)
  il ← neg_index blocks 1;
  bl ← index blocks il;
  '(G, _) ← forM (range (bl + 1) nb) (G, bl) (fun b '(G, slp) =>
    x ← getarr tX (b - 1);
    g ← read_row G slp;
    Ok (<[b := tmul (tneg x) g]> G, b));
  Ok G.

(** *** The spectral function *)

(** [G @ Gam @ dagger(G)] for a tall [G] whose row blocks are [keys]:
    block (i, j) of the product is [G[i] @ Gam @ dagger(G[j])]. *)
Definition outer (keys : list nat) (G : tall) (Gam : T) : result dense :=
  forM keys (∅ : dense) (fun i S =>
    gi ← read_row G i;
    forM keys S (fun j S =>
      gj ← read_row G j;
      Ok (<[(i, j) := tmul (tmul gi Gam) (dagger gj)]> S))).

(** [DeviceGreen._spectral_column] *)
Definition _spectral_column (self : device) (d : cache) (elec : elec_arg)
    (herm : bool) : result dense :=
  idx ← list_getitem (elecs_pvt_dev self) elec;
  G ← _green_column self d idx;
  gamma ← attr "gamma" (d_gamma d);
  Gam ← list_getitem gamma elec;
  outer (range 0 (length (btd self))) G Gam.

(** [DeviceGreen._spectral_column_btd] *)
Definition _spectral_column_btd (self : device) (d : cache) (elec : elec_arg)
    (herm : bool) : result (BlockMatrix.t T) :=
  idx ← list_getitem (elecs_pvt_dev self) elec;
  G ← _green_column self d idx;
  let nb := length (btd self) in
  let nbm1 := nb - 1 in
  gamma ← attr "gamma" (d_gamma d);
  Gam ← list_getitem gamma elec;
  let btd := BlockMatrix.init (btd self) in
  if herm then
    forM (range 0 nb) btd (fun jb BI =>
      gj ← read_row G jb;
      let Gj := tmul Gam (dagger gj) in
      BI ← forM (range (max 0 (jb - 1)) jb) BI (fun ib BI =>
        gi ← read_row G ib;
        let BI := BlockMatrix.setitem BI (ib, jb) (tmul gi Gj) in
        v ← BlockMatrix.getitem BI (ib, jb);
        Ok (BlockMatrix.setitem BI (jb, ib) (dagger v)));
      gj ← read_row G jb;
      Ok (BlockMatrix.setitem BI (jb, jb) (tmul gj Gj)))
  else
    forM (range 0 nb) btd (fun jb BI =>
      gj ← read_row G jb;
      let Gj := tmul Gam (dagger gj) in
      forM (range (max 0 (jb - 1)) (min (jb + 1) nbm1)) BI (fun ib BI =>
        gi ← read_row G ib;
        Ok (BlockMatrix.setitem BI (ib, jb) (tmul gi Gj)))).

(** [DeviceGreen._spectral_column_bm] *)
Definition _spectral_column_bm (self : device) (d : cache) (elec : elec_arg)
    (herm : bool) : result (BlockMatrix.t T) :=
  idx ← list_getitem (elecs_pvt_dev self) elec;
  G ← _green_column self d idx;
  let nb := length (btd self) in
  gamma ← attr "gamma" (d_gamma d);
  Gam ← list_getitem gamma elec;
  let btd := BlockMatrix.init (btd self) in
  if herm then
    forM (range 0 nb) btd (fun jb BI =>
      gj ← read_row G jb;
      let Gj := tmul Gam (dagger gj) in
      BI ← forM (range 0 jb) BI (fun ib BI =>
        gi ← read_row G ib;
        let BI := BlockMatrix.setitem BI (ib, jb) (tmul gi Gj) in
        v ← BlockMatrix.getitem BI (ib, jb);
        Ok (BlockMatrix.setitem BI (jb, ib) (dagger v)));
      gj ← read_row G jb;
      Ok (BlockMatrix.setitem BI (jb, jb) (tmul gj Gj)))
  else
    forM (range 0 nb) btd (fun jb BI =>
      gj ← read_row G jb;
      let Gj := tmul Gam (dagger gj) in
      forM (range 0 nb) BI (fun ib BI =>
        gi ← read_row G ib;
        Ok (BlockMatrix.setitem BI (ib, jb) (tmul gi Gj)))).

(** [DeviceGreen._spectral_propagate_btd] *)
Definition _spectral_propagate_btd (self : device) (d : cache)
    (elec : elec_arg) (herm : bool) : result (BlockMatrix.t T) :=
  Err NotImplementedError.

(** *** The spectral function by propagation *)

(** [left_calc]: the next block LEFT of block (i, j). *)
Definition left_calc (i j : nat) (Sf : dense) (tY : list (slot T))
  : result dense :=
  s ← dget Sf i j;
  y ← getarr tY j;
  Ok (<[(i, j - 1) := tmul (tneg s) (dagger y)]> Sf).

(** [right_calc]: the next block RIGHT of block (i, j). *)
Definition right_calc (i j : nat) (Sf : dense) (tX : list (slot T))
  : result dense :=
  s ← dget Sf i j;
  x ← getarr tX j;
  Ok (<[(i, j + 1) := tmul (tneg s) (dagger x)]> Sf).

(** [above_calc]: the next block ABOVE of block (i, j). *)
Definition above_calc (i j : nat) (Sf : dense) (tY : list (slot T))
  : result dense :=
  y ← getarr tY i;
  s ← dget Sf i j;
  Ok (<[(i - 1, j) := tmul (tneg y) s]> Sf).

(** [below_calc]: the next block BELOW of block (i, j). *)
Definition below_calc (i j : nat) (Sf : dense) (tX : list (slot T))
  : result dense :=
  x ← getarr tX i;
  s ← dget Sf i j;
  Ok (<[(i + 1, j) := tmul (tneg x) s]> Sf).

(** [copy_herm]: copy block (j, i) to (i, j). *)
Definition copy_herm (i j : nat) (Sf : dense) : result dense :=
  s ← dget Sf j i;
  Ok (<[(i, j) := dagger s]> Sf).

(** The recursive helpers [below], [above], [left], [right] of
    [_spectral_propagate], in their [herm] and plain variants.  [fuel] is
    the recursion depth still available to the call. *)
Fixpoint below (fuel : nat) (herm : bool) (nbm1 : nat) (tX : list (slot T))
    (i j : nat) (Sf : dense) : result dense :=
  match fuel with
  | 0 => Err RecursionError
  | S fuel =>
      if decide (nbm1 ≤ i) then Ok Sf else
      let ip1 := i + 1 in
      Sf ← (if herm then
              if decide (j ≤ ip1) then below_calc i j Sf tX
              else copy_herm ip1 j Sf
            else below_calc i j Sf tX);
      below fuel herm nbm1 tX ip1 j Sf
  end.

Fixpoint above (fuel : nat) (herm : bool) (tY : list (slot T))
    (i j : nat) (Sf : dense) : result dense :=
  match fuel with
  | 0 => Err RecursionError
  | S fuel =>
      if decide (i ≤ 0) then Ok Sf else
      let im1 := i - 1 in
      Sf ← (if herm then
              if decide (j ≤ im1) then above_calc i j Sf tY
              else copy_herm im1 j Sf
            else above_calc i j Sf tY);
      above fuel herm tY im1 j Sf
  end.

Fixpoint left (fuel : nat) (herm : bool) (nbm1 : nat) (tX tY : list (slot T))
    (i j : nat) (a b : bool) (Sf : dense) : result dense :=
  match fuel with
  | 0 => Err RecursionError
  | S fuel =>
      if decide (j ≤ 0) then Ok Sf else
      let jm1 := j - 1 in
      Sf ← (if herm then
              if decide (jm1 ≤ i) then left_calc i j Sf tY
              else copy_herm i jm1 Sf
            else left_calc i j Sf tY);
      Sf ← left fuel herm nbm1 tX tY i jm1 a b Sf;
      Sf ← (if b then below fuel herm nbm1 tX i jm1 Sf else Ok Sf);
      if a then above fuel herm tY i jm1 Sf else Ok Sf
  end.

Fixpoint right (fuel : nat) (herm : bool) (nbm1 : nat) (tX tY : list (slot T))
    (i j : nat) (a b : bool) (Sf : dense) : result dense :=
  match fuel with
  | 0 => Err RecursionError
  | S fuel =>
      if decide (nbm1 ≤ j) then Ok Sf else
      let jp1 := j + 1 in
      if herm then
        Sf ← (if decide (jp1 ≤ i) then right_calc i j Sf tX
              else copy_herm i jp1 Sf);
        Sf ← (if a then above fuel herm tY i jp1 Sf else Ok Sf);
        Sf ← (if b then below fuel herm nbm1 tX i jp1 Sf else Ok Sf);
        right fuel herm nbm1 tX tY i jp1 a b Sf
      else
        Sf ← right_calc i j Sf tX;
        Sf ← right fuel herm nbm1 tX tY i jp1 a b Sf;
        Sf ← (if a then above fuel herm tY i jp1 Sf else Ok Sf);
        if b then below fuel herm nbm1 tX i jp1 Sf else Ok Sf
  end.

(** [DeviceGreen._spectral_propagate] *)
Definition _spectral_propagate (self : device) (d : cache) (elec : elec_arg)
    (herm : bool) : result dense :=
  let nb := length (btd self) in
  let nbm1 := nb - 1 in
  idx ← list_getitem (elecs_pvt_dev self) elec;
  '(blocks, A) ← _green_diag_block self d idx;
  gamma ← attr "gamma" (d_gamma d);
  Gam ← list_getitem gamma elec;
  A ← outer blocks A Gam;
  b0 ← index blocks 0;
  il ← neg_index blocks 1;
  _ ← index blocks il;
  let Sf : dense := A in
  tX ← attr "tX" (d_tX d);
  tY ← attr "tY" (d_tY d);
  let fuel := recursion_limit in
  if decide (length blocks = 1) then
    Sf ← left fuel herm nbm1 tX tY b0 b0 true true Sf;
    Sf ← above fuel herm tY b0 b0 Sf;
    Sf ← below fuel herm nbm1 tX b0 b0 Sf;
    right fuel herm nbm1 tX tY b0 b0 true true Sf
  else
    b1 ← index blocks 1;
    Sf ← left fuel herm nbm1 tX tY b1 b0 false true Sf;
    Sf ← left fuel herm nbm1 tX tY b0 b0 true false Sf;
    Sf ← above fuel herm tY b0 b0 Sf;
    Sf ← above fuel herm tY b0 b1 Sf;
    Sf ← below fuel herm nbm1 tX b1 b0 Sf;
    Sf ← below fuel herm nbm1 tX b1 b1 Sf;
    Sf ← right fuel herm nbm1 tX tY b0 b1 true false Sf;
    right fuel herm nbm1 tX tY b1 b1 false true Sf.

Inductive spectral_result : Type :=
| SDense (A : dense)
| SBlock (A : BlockMatrix.t T).

(** [DeviceGreen.spectral] *)
Definition spectral (self : device) (elec : elec_arg) (E : energy)
    (k : kpoint) (format method : string) (herm : bool) : M spectral_result :=
  let elec := _elec self elec in
  bind (_prepare self E k) (fun _ =>
  let format := lower format in
  let method := lower method in
  bind get_data (fun d =>
  let unrecognized : result spectral_result :=
    Err (ValueError
      ("DeviceGreen.spectral combination of format+method not recognized "
         +:+ format +:+ "+" +:+ method +:+ ".")) in
  lift (
    if decide (format = "array" ∨ format = "dense") then
      if decide (method = "column") then
        SDense <$> _spectral_column self d elec herm
      else if decide (method = "propagate") then
        SDense <$> _spectral_propagate self d elec herm
      else unrecognized
    else if decide (format = "btd") then
      if decide (method = "column") then
        SBlock <$> _spectral_column_btd self d elec herm
      else unrecognized
    else if decide (format = "bm") then
      if decide (method = "column") then
        SBlock <$> _spectral_column_bm self d elec herm
      else unrecognized
    else unrecognized))).

(** *** Scattering states *)

(** [signsqrt] *)
Definition signsqrt (a : R) : R := rmul (rsign a) (rsqrt (rfabs a)).

(** [sqrtm] *)
Definition sqrtm (Hm : T) : result T :=
  '(e, ev) ← (eigh Hm : result (list R * T));
  let sqe := signsqrt <$> e in
  Ok (tmul (scale_cols ev sqe) (dagger ev)).

(** [_scat_state_svd] with its default keyword arguments
    ([scale=False], [driver="gesvd"]). *)
Definition _scat_state_svd (A : T) : result (list R * T) :=
  '(A, DOS) ← (svd_destroy A : result (T * list R));
  Ok ((fun s => div_2pi (rsquare s)) <$> (DOS : list R), A).

(** The [cutoff] argument: a number, or a sequence of numbers. *)
Inductive cutoff_arg : Type :=
| CNum (c : R)
| CSeq (cs : list R).

(** [mask.nonzero()[0]]: the positions of the true entries; [k] is the
    position of the head of [mask]. *)
Fixpoint nonzero_from (k : nat) (mask : list bool) : list nat :=
  match mask with
  | [] => []
  | m :: mask' =>
      if m then k :: nonzero_from (S k) mask' else nonzero_from (S k) mask'
  end.

Definition nonzero (mask : list bool) : list nat := nonzero_from 0 mask.

(** [DeviceGreen._scattering_state_reduce] *)
Definition _scattering_state_reduce (d : cache) (elec : elec_arg)
    (DOS : list R) (U : T) (cutoff : cutoff_arg)
  : result (list R * T) :=
  gamma ← attr "gamma" (d_gamma d);
  Gam ← list_getitem gamma elec;
  let N := tlen Gam in
  (* sort and take N highest values *)
  let idx := take N (argsort (rneg <$> DOS)) in
  idx ←
    match cutoff with
    | CNum cutoff =>
        if rltb rzero cutoff then
          vals ← mapM (index DOS) idx;
          let idx1 := nonzero ((fun v => rleb cutoff (rfabs v)) <$> vals) in
          mapM (index idx) idx1
        else Ok idx
    | CSeq _ =>
        Err (TypeError "'>' not supported between instances of 'list' and 'int'")
    end;
  dos ← mapM (index DOS) idx;
  Ok (dos, takecols U idx).

(** The keyword arguments [StateCElectron] receives as [info]. *)
Record state_info : Type := {
  info_method : string;
  info_elec : string;
  info_E : energy;
  info_k : kpoint;
  info_cutoff_space : option R;
  info_cutoff : cutoff_arg;
}.

(** [si.physics.StateCElectron(state, c, parent, **info)] *)
Record StateCElectron : Type := {
  sc_state : T;
  sc_c : list R;
  sc_info : state_info;
}.

(** The dense array of a block-sliced array all of whose blocks
    (i, j), i, j ∈ [keys], were written. *)
Definition to_tile (keys : list nat) (A : dense) : result T :=
  grid ← mapM (fun i => mapM (fun j => dget A i j) keys) keys;
  Ok (of_blocks grid).

(** [DeviceGreen._scattering_state_full] *)
Definition _scattering_state_full (self : device) (elec : elec_arg)
    (cutoff : cutoff_arg) : M StateCElectron :=
  bind get_data (fun d =>
  bind (lift (attr "E" (d_E d))) (fun E =>
  bind (lift (attr "k" (d_k d))) (fun k =>
  bind (spectral self elec E k "array" "column" true) (fun A =>
  bind get_data (fun d =>
  lift (
    A ← match A with
        | SDense A => to_tile (range 0 (length (btd self))) A
        | SBlock _ => Err (TypeError "not an array")
        end;
    let A := add_tenth_diag A in
    '(DOS, A) ← (eigh_destroy A : result (list R * T));
    let DOS := (fun w => div_2pi (sub_tenth w)) <$> DOS in
    '(DOS, A) ← _scattering_state_reduce d elec DOS A cutoff;
    nm ← _elec_name self elec;
    E ← attr "E" (d_E d);
    k ← attr "k" (d_k d);
    Ok {| sc_state := ttrans A; sc_c := DOS;
          sc_info := {| info_method := "full"; info_elec := nm;
                        info_E := E; info_k := k;
                        info_cutoff_space := None;
                        info_cutoff := cutoff |} |})))))).

(** [DeviceGreen._scattering_state_svd] *)
Definition _scattering_state_svd (self : device) (d : cache)
    (elec : elec_arg) (cutoff : cutoff_arg) : result StateCElectron :=
  idx ← list_getitem (elecs_pvt_dev self) elec;
  A ← _green_column self d idx;
  gamma ← attr "gamma" (d_gamma d);
  Gam ← list_getitem gamma elec;
  Gamma_sqrt ← sqrtm Gam;
  rows ← mapM (read_row A) (range 0 (length (btd self)));
  let A := tmul (vstack rows) Gamma_sqrt in
  '(DOS, A) ← _scat_state_svd A;
  '(DOS, A) ← _scattering_state_reduce d elec DOS A cutoff;
  nm ← _elec_name self elec;
  E ← attr "E" (d_E d);
  k ← attr "k" (d_k d);
  Ok {| sc_state := ttrans A; sc_c := DOS;
        sc_info := {| info_method := "svd"; info_elec := nm;
                      info_E := E; info_k := k;
                      info_cutoff_space := None;
                      info_cutoff := cutoff |} |}.

(** [DeviceGreen._scattering_state_propagate] *)
Definition _scattering_state_propagate (self : device) (d : cache)
    (elec : elec_arg) (cutoff : cutoff_arg) : result StateCElectron :=
  let cutoff := match cutoff with CNum c => [c] | CSeq cs => cs end in
  '(cutoff0, cutoff1) ←
    (if decide (length cutoff ≠ 2) then
       c ← index cutoff 0; Ok (c, c)
     else
       c0 ← index cutoff 0; c1 ← index cutoff 1; Ok (c0, c1));
  idx ← list_getitem (elecs_pvt_dev self) elec;
  '(blocks, U) ← _green_diag_block self d idx;
  gamma ← attr "gamma" (d_gamma d);
  Gam ← list_getitem gamma elec;
  U ← outer blocks U Gam;
  U ← to_tile blocks U;
  let U := add_tenth_diag U in
  '(DOS, U) ← (eigh_destroy U : result (list R * T));
  let DOS := (fun w => div_2pi (sub_tenth w)) <$> DOS in
  '(DOS, U) ← _scattering_state_reduce d elec DOS U (CNum cutoff0);
  let U := scale_cols U ((fun x => signsqrt (mul_2pi x)) <$> DOS) in
  let nb := length (btd self) in
  let u := replicate nb SNone in
  b0 ← index blocks 0;
  n0 ← index (btd self) b0;
  u ← setindex u b0 (SArr (takerows U 0 (Some n0)));
  u ← (if decide (1 < length blocks) then
         b1 ← index blocks 1;
         setindex u b1 (SArr (takerows U n0 None))
       else Ok u);
  (* Propagate U in the full BTD matrix *)
  t ← attr "tY" (d_tY d);
  u ← forM (rev (range 1 (b0 + 1))) u (fun b u =>
    y ← getarr t b;
    ub ← getarr u b;
    setindex u (b - 1) (SArr (tmul (tneg y) ub)));
  t ← attr "tX" (d_tX d);
  il ← neg_index blocks 1;
  bl ← index blocks il;
  u ← forM (range bl (nb - 1)) u (fun b u =>
    x ← getarr t b;
    ub ← getarr u b;
    setindex u (b + 1) (SArr (tmul (tneg x) ub)));
  u ← mapM as_array u;
  let u := vstack u in
  '(DOS, u) ← _scat_state_svd u;
  '(DOS, u) ← _scattering_state_reduce d elec DOS u (CNum cutoff1);
  nm ← _elec_name self elec;
  E ← attr "E" (d_E d);
  k ← attr "k" (d_k d);
  Ok {| sc_state := ttrans u; sc_c := DOS;
        sc_info := {| info_method := "propagate"; info_elec := nm;
                      info_E := E; info_k := k;
                      info_cutoff_space := Some cutoff0;
                      info_cutoff := CNum cutoff1 |} |}.

(** [DeviceGreen.scattering_state]; [getattr] finds the four methods
    whose name starts with [_scattering_state_]. *)
Definition scattering_state (self : device) (elec : elec_arg) (E : energy)
    (k : kpoint) (cutoff : cutoff_arg) (method : string)
  : M StateCElectron :=
  let elec := _elec self elec in
  bind (_prepare self E k) (fun _ =>
  let method := lower method in
  if decide (method = "full") then _scattering_state_full self elec cutoff
  else bind get_data (fun d =>
    lift (
      if decide (method = "svd") then
        _scattering_state_svd self d elec cutoff
      else if decide (method = "propagate") then
        _scattering_state_propagate self d elec cutoff
      else if decide (method = "reduce") then
        (* func(elec, cutoff) binds [DOS] to the cutoff; the text is that
           of Python 3.10 and later, earlier versions leave out the
           class name *)
        Err (TypeError "DeviceGreen._scattering_state_reduce() missing 2 required positional arguments: 'U' and 'cutoff'")
      else
        Err (ValueError
          "DeviceGreen.scattering_state method is not [full,svd,propagate]")))).

End DeviceGreen.
End DeviceGreen.

(** ** DownfoldSelfEnergy *)

Module DownfoldSelfEnergy.
Section DownfoldSelfEnergy.
Context {T energy kpoint sparse : Type}.
Context `{TileOps T} `{Numerics energy kpoint} `{SparseOps T energy sparse}.

(** What [__init__] stores.  [bulk] is the value the attribute lookup
    [self.bulk] yields; [add_ieta E] is [E + 1j * self._se.eta], or [None]
    when evaluating it raises; [bloch_self_energy E k] is
    [self._bloch(super().self_energy, k, E=E)], the Σ of the wrapped
    provider on the electrode surface block. *)
Record downfold : Type := {
  name : string;
  btd : list nat;                       (* self.btd = pivot.btd(name) *)
  bulk : bool;
  Hdev_Sk : kpoint → sparse;            (* self._data.H.device.Sk *)
  Hdev_Hk : kpoint → sparse;            (* self._data.H.device.Hk *)
  Helec_Sk : kpoint → sparse;           (* self._data.H.electrode.Sk *)
  Helec_Hk : kpoint → sparse;           (* self._data.H.electrode.Hk *)
  d_elec : list nat;                    (* self._data.elec *)
  d_dev : list nat;                     (* self._data.dev *)
  add_ieta : energy → option energy;
  bloch_self_energy : energy → kpoint → result T;
}.

(** [self._data.cumbtd = np.append(0, np.cumsum(self.btd))] *)
Definition cumbtd (self : downfold) : list nat := 0 :: cumsum (btd self).

(** The attributes of [self._data] that [_prepare] memoizes. *)
Record cache : Type := {
  d_SeH : option sparse;
  d_E : option energy;
  d_k : option kpoint;
}.

Definition empty_cache : cache :=
  {| d_SeH := None; d_E := None; d_k := None |}.

(** The matrix [_prepare] stores in [data.SeH]. *)
Definition build_SeH (self : downfold) (E : energy) (k : kpoint) : sparse :=
  let SeH := sp_sub (sp_scale (Hdev_Sk self k) E) (Hdev_Hk self k) in
  if bulk self then
    let E_bulk :=
      if isrealobj E then
        match add_ieta self E with
        | Some E' => E'
        | None => E
        end
      else E in
    sp_set SeH (d_elec self)
      (sp_sub (sp_scale (Helec_Sk self k) E_bulk) (Helec_Hk self k))
  else SeH.

(** [DownfoldSelfEnergy._prepare] *)
Definition _prepare (self : downfold) (E : energy) (k : kpoint) (d : cache)
  : result unit * cache :=
  let compute :=
    (Ok tt, {| d_SeH := Some (build_SeH self E k);
               d_E := Some E; d_k := Some (asarrayd k) |}) in
  match d_E d with
  | Some E0 =>
      if allclose_E E0 E then
        match d_k d with
        | Some k0 => if allclose_k k0 k then (Ok tt, d) else compute
        | None => (Err (AttributeError "k"), d)
        end
      else compute
  | None => compute
  end.

(** [v[a:b]] *)
Definition slice {A : Type} (l : list A) (a b : nat) : list A :=
  take (b - a) (drop a l).

(** [X - Mr], where [Mr] is still the integer 0 or already an array. *)
Definition minus_Mr (X : T) (Mr : slot T) : result T :=
  match Mr with
  | SInt 0 => Ok X
  | SArr m => Ok (tsub X m)
  | _ => Err (TypeError "operand is not an array")
  end.

(** The orbital indices of block [b] of the downfolding chain. *)
Definition block_pvt (self : downfold) (b : nat) : result (list nat) :=
  lo ← index (cumbtd self) b;
  hi ← index (cumbtd self) (b + 1);
  Ok (slice (d_dev self) lo hi).

(** The reduction loop of [self_energy] on the matrix [Mx]. *)
Definition reduce_chain (self : downfold) (Mx : sparse) : result (slot T) :=
  let gM (idx1 idx2 : list nat) := sp_take Mx idx1 idx2 in
  let Mr : slot T := SInt 0 in
  pvt_i ← block_pvt self 0;
  '(Mr, _) ← forM (range 0 (length (btd self) - 1)) (Mr, pvt_i)
    (fun b '(Mr, pvt_i) =>
       pvt_i1 ← block_pvt self (b + 1);
       a ← minus_Mr (gM pvt_i pvt_i) Mr;
       x ← solve a (gM pvt_i pvt_i1);
       Ok (SArr (tmul (gM pvt_i1 pvt_i) x), pvt_i1));
  Ok Mr.

(** [DownfoldSelfEnergy.self_energy]: the returned value is the integer
    0 ([SInt 0]) when the chain has a single block, an array otherwise. *)
Definition self_energy (self : downfold) (E : energy) (k : kpoint) (d : cache)
  : result (slot T) * cache :=
  match _prepare self E k d with
  | (Err e, d) => (Err e, d)
  | (Ok _, d) =>
      (SeH ← attr "SeH" (d_SeH d);
       se ← bloch_self_energy self E k;
       (* now put it in the matrix *)
       let Mx := sp_isub SeH (d_elec self) se in
       reduce_chain self Mx,
       d)
  end.

(** Block (i, j) of the downfold matrix [Mx] in the BTD partition. *)
Definition Mblock (self : downfold) (Mx : sparse) (i j : nat) : T :=
  sp_take Mx
    (slice (d_dev self) (default 0 (cumbtd self !! i))
       (default 0 (cumbtd self !! (i + 1))))
    (slice (d_dev self) (default 0 (cumbtd self !! j))
       (default 0 (cumbtd self !! (j + 1)))).

End DownfoldSelfEnergy.
End DownfoldSelfEnergy.

(** ** Algebraic laws of the tile operations *)

(** The identities of matrix algebra that the spectral recurrences use:
    they hold for numpy arrays whenever the shapes conform, which [@]
    checks at run time. *)
Class DaggerLaws (T : Type) `{TileOps T} : Prop := {
  tmul_assoc : ∀ a b c : T, tmul (tmul a b) c = tmul a (tmul b c);
  tmul_neg_l : ∀ a b : T, tmul (tneg a) b = tneg (tmul a b);
  tmul_neg_r : ∀ a b : T, tmul a (tneg b) = tneg (tmul a b);
  dagger_mul : ∀ a b : T, dagger (tmul a b) = tmul (dagger b) (dagger a);
  dagger_neg : ∀ a : T, dagger (tneg a) = tneg (dagger a);
  dagger_invol : ∀ a : T, dagger (dagger a) = a;
}.

(** Sum, zero and identity of square tiles of one size. *)
Class TileRing (T : Type) : Type := {
  tadd : T → T → T;
  tzero : T;
  tone : T;
}.

(** The ring laws, and [tinv] as a two-sided inverse. *)
Class RingLaws (T : Type) `{TileOps T} `{TileRing T} : Prop := {
  tadd_assoc : ∀ a b c : T, tadd (tadd a b) c = tadd a (tadd b c);
  tadd_comm : ∀ a b : T, tadd a b = tadd b a;
  tadd_zero_l : ∀ a : T, tadd tzero a = a;
  tadd_neg_r : ∀ a : T, tadd a (tneg a) = tzero;
  tsub_def : ∀ a b : T, tsub a b = tadd a (tneg b);
  rmul_assoc : ∀ a b c : T, tmul (tmul a b) c = tmul a (tmul b c);
  tmul_one_l : ∀ a : T, tmul tone a = a;
  tmul_one_r : ∀ a : T, tmul a tone = a;
  tmul_add_l : ∀ a b c : T, tmul a (tadd b c) = tadd (tmul a b) (tmul a c);
  tmul_add_r : ∀ a b c : T, tmul (tadd a b) c = tadd (tmul a c) (tmul b c);
  tinv_l : ∀ a b : T, tinv a = Some b → tmul b a = tone;
  tinv_r : ∀ a b : T, tinv a = Some b → tmul a b = tone;
}.

(** The order of the DOS values and the contract of [np.argsort]: the
    positions of the list, each once, in ascending order of their keys
    (the order among equal keys is not specified). *)
Class RealLaws (R : Type) `{RealOps R} : Prop := {
  rneg_antitone : ∀ x y : R, rleb (rneg x) (rneg y) = rleb y x;
  argsort_perm : ∀ l : list R, argsort l ≡ₚ seq 0 (length l);
  argsort_sorted : ∀ (l : list R) (p q a b : nat),
    p ≤ q → argsort l !! p = Some a → argsort l !! q = Some b →
    ∃ x y, l !! a = Some x ∧ l !! b = Some y ∧ rleb x y = true;
}.

(** ** Comparing two runs *)

(** Two results agree: both are values related by [Rel], or both are the
    same exception. *)
Definition res_rel {A B : Type} (Rel : A → B → Prop) (r1 : result A)
    (r2 : result B) : Prop :=
  match r1, r2 with
  | Ok a, Ok b => Rel a b
  | Err e1, Err e2 => e1 = e2
  | _, _ => False
  end.

(** Two results agree on success: both are values related by [Rel], or
    both are exceptions. *)
Definition res_agree {A B : Type} (Rel : A → B → Prop) (r1 : result A)
    (r2 : result B) : Prop :=
  match r1, r2 with
  | Ok a, Ok b => Rel a b
  | Err _, Err _ => True
  | _, _ => False
  end.

(** (i, j) lies in the block-tridiagonal pattern. *)
Definition tridiagonal (i j : nat) : Prop := i ≤ j + 1 ∧ j ≤ i + 1.

(** A dense array and a block matrix hold the same tiles on the
    block-tridiagonal pattern of the columns before column [n]. *)
Definition same_tridiagonal {T : Type} (nb n : nat) (G : gmap (nat * nat) T)
    (Gb : BlockMatrix.t T) : Prop :=
  ∀ i j, i < nb → j < n → tridiagonal i j →
    ∃ t, G !! (i, j) = Some t ∧ BlockMatrix._M Gb !! (i, j) = Some t.

(** The test [f] on the DOS value at position [i]. *)
Definition dos_test {R : Type} (DOS : list R) (f : R → bool) (i : nat)
  : bool :=
  match DOS !! i with
  | Some v => f v
  | None => false
  end.

(** ** The prepared cache, in the words of the specification *)

Section PreparedCache.
Import DeviceGreen.
Context {T energy kpoint sparse : Type}.
Context `{TileOps T} `{Numerics energy kpoint} `{SparseOps T energy sparse}.

(** The array stored at position [i] of a list of the cache. *)
Definition arr_at (l : list (slot T)) (i : nat) : option T :=
  match l !! i with
  | Some (SArr a) => Some a
  | _ => None
  end.

(** The forward tiles as the specification defines them:
    tY[1] = A[0]⁻¹·C[1] and tY[n] = (A[n−1] − B[n−2]·tY[n−1])⁻¹·C[n];
    [None] when a matrix to invert is singular (or a tile is missing). *)
Fixpoint tY_spec (A B C : list (slot T)) (n : nat) : option T :=
  match n with
  | 0 => None
  | S m =>
      match m with
      | 0 =>
          a ← arr_at A 0;
          c ← arr_at C 1;
          i ← tinv a;
          Some (tmul i c)
      | S m' =>
          a ← arr_at A m;
          b ← arr_at B m';
          y ← tY_spec A B C m;
          c ← arr_at C n;
          i ← tinv (tsub a (tmul b y));
          Some (tmul i c)
      end
  end.

(** The backward tiles as the specification defines them, counted from
    the end: [tX_from_end nb A B C d] is tX[nb−2−d], with
    tX[nb−2] = A[nb−1]⁻¹·B[nb−2] and
    tX[p] = (A[p+1] − C[p+2]·tX[p+1])⁻¹·B[p]. *)
Fixpoint tX_from_end (nb : nat) (A B C : list (slot T)) (d : nat)
  : option T :=
  match d with
  | 0 =>
      a ← arr_at A (nb - 1);
      b ← arr_at B (nb - 2);
      i ← tinv a;
      Some (tmul i b)
  | S d' =>
      let p := nb - 2 - d in
      a ← arr_at A (p + 1);
      c ← arr_at C (p + 2);
      x ← tX_from_end nb A B C d';
      b ← arr_at B p;
      i ← tinv (tsub a (tmul c x));
      Some (tmul i b)
  end.

Definition tX_spec (nb : nat) (A B C : list (slot T)) (p : nat) : option T :=
  if decide (p + 2 ≤ nb) then tX_from_end nb A B C (nb - 2 - p) else None.

(** The lists of a prepared cache: nb ≥ 2 entries each, arrays at the
    positions the Green function reads, and the propagation tiles equal
    to the specification's recurrences. *)
Record tiles_prepared (nb : nat) (A B C tX tY : list (slot T)) : Prop := {
  tp_nb : 2 ≤ nb;
  tp_len_A : length A = nb;
  tp_len_B : length B = nb;
  tp_len_C : length C = nb;
  tp_len_tX : length tX = nb;
  tp_len_tY : length tY = nb;
  tp_A : ∀ b, b < nb → is_Some (arr_at A b);
  tp_B : ∀ b, b + 1 < nb → is_Some (arr_at B b);
  tp_C : ∀ b, 1 ≤ b < nb → is_Some (arr_at C b);
  tp_tY : ∀ n, 1 ≤ n < nb →
    is_Some (arr_at tY n) ∧ arr_at tY n = tY_spec A B C n;
  tp_tX : ∀ p, p + 1 < nb →
    is_Some (arr_at tX p) ∧ arr_at tX p = tX_spec nb A B C p;
}.

(** The invariant of the loop [for n in range(2, nb)] of [_prepare]
    before the iteration [n]. *)
Definition propagation_inv (nb : nat) (A B C : list (slot T)) (n : nat)
    (s : list (slot T) * list (slot T)) : Prop :=
  length s.1 = nb ∧ length s.2 = nb
  ∧ (∀ m, 1 ≤ m < n →
       is_Some (arr_at s.2 m) ∧ arr_at s.2 m = tY_spec A B C m)
  ∧ (∀ p, nb - n ≤ p → p + 1 < nb →
       is_Some (arr_at s.1 p) ∧ arr_at s.1 p = tX_spec nb A B C p).

(** The invariant of the loop [for b, bs in enumerate(btd[1:-1], 1)] of
    [_prepare] before the iteration [b]. *)
Definition extract_inv (nb : nat) (b : nat)
    (s : (nat * nat) * (nat * nat) * list (slot T) * list (slot T)
         * list (slot T)) : Prop :=
  let '(_, _, A, B, C) := s in
  length A = nb ∧ length B = nb ∧ length C = nb
  ∧ (∀ i, i < b → is_Some (arr_at A i))
  ∧ (∀ i, i + 1 < b → is_Some (arr_at B i))
  ∧ (∀ i, 1 ≤ i ≤ b → is_Some (arr_at C i)).

(** [prepared self d]: every attribute of the cache is present and the
    lists are those of a prepared cache. *)
Definition prepared (self : @device T energy kpoint sparse)
    (d : @cache T energy kpoint) : Prop :=
  ∃ gamma A B C tX tY E k,
    d = {| d_gamma := Some gamma; d_A := Some A; d_B := Some B;
           d_C := Some C; d_tX := Some tX; d_tY := Some tY;
           d_E := Some E; d_k := Some k |}
    ∧ tiles_prepared (length (btd self)) A B C tX tY.

(** The invariant of the cache: it carries [E] only when it is
    prepared.  It holds after [reset] and every method keeps it. *)
Definition cache_wf (self : @device T energy kpoint sparse)
    (d : @cache T energy kpoint) : Prop :=
  d_E d = None ∨ prepared self d.

(** Every stored Γ is Hermitian. *)
Definition gamma_hermitian (d : @cache T energy kpoint) : Prop :=
  ∀ gamma, d_gamma d = Some gamma → Forall (fun g => dagger g = g) gamma.

End PreparedCache.

(** ** The downfolding chain, in the words of the specification *)

Section SchurSpec.
Context {T : Type} `{TileOps T} `{TileRing T}.

(** The pivot [M[b,b] − Mr] of step [b] and the iteration
    [Mr = M[b+1,b] · (M[b,b] − Mr)⁻¹ · M[b,b+1]] started from [Mr = 0]:
    [Mr_spec M n] is [Mr] after the steps b = 0 … n−1, [None] when a
    pivot is singular. *)
Fixpoint Mr_spec (M : nat → nat → T) (n : nat) : option (slot T) :=
  match n with
  | 0 => Some (SInt 0)
  | S b =>
      mr ← Mr_spec M b;
      p ← match mr with
          | SInt 0 => Some (M b b)
          | SArr m => Some (tsub (M b b) m)
          | _ => None
          end;
      i ← tinv p;
      Some (SArr (tmul (M (b + 1) b) (tmul i (M b (b + 1)))))
  end.

Definition pivot_spec (M : nat → nat → T) (b : nat) : option T :=
  mr ← Mr_spec M b;
  match mr with
  | SInt 0 => Some (M b b)
  | SArr m => Some (tsub (M b b) m)
  | _ => None
  end.

(** The sum of [f 0 … f (n−1)]. *)
Fixpoint tsum (n : nat) (f : nat → T) : T :=
  match n with
  | 0 => tzero
  | S m => tadd (tsum m f) (f m)
  end.

(** Blocks 0 … n of [M] couple only to their neighbours. *)
Definition block_tridiagonal (n : nat) (M : nat → nat → T) : Prop :=
  ∀ i j, i ≤ n → j ≤ n → i + 1 < j ∨ j + 1 < i → M i j = tzero.

(** [X] is a right inverse of the leading n×n blocks of [M]:
    Σₖ M[i,k]·X[k,j] = δᵢⱼ. *)
Definition right_inverse (n : nat) (M X : nat → nat → T) : Prop :=
  ∀ i j, i < n → j < n →
    tsum n (fun k => tmul (M i k) (X k j))
    = if decide (i = j) then tone else tzero.

(** With [M] = [[A, B], [C, D]], [D] the block n and [A] the leading
    n×n blocks with inverse [X]: the elimination term C·A⁻¹·B and the
    Schur complement D − C·A⁻¹·B of [A] in [M]. *)
Definition schur_term (n : nat) (M X : nat → nat → T) : T :=
  tsum n (fun i => tsum n (fun j => tmul (M n i) (tmul (X i j) (M j n)))).

Definition schur_complement (n : nat) (M X : nat → nat → T) : T :=
  tsub (M n n) (schur_term n M X).

End SchurSpec.

(** ** The spectral function, in the words of the specification *)

Section SpectralSpec.
Context {T : Type} `{TileOps T}.

(** Row block [i] of a tall array [G], and block (i, j) of G·Γ·G†. *)
Definition row_tile (G : gmap nat T) (i : nat) : T :=
  default np_empty (G !! i).

Definition spectral_block (G : gmap nat T) (Gam : T) (i j : nat) : T :=
  tmul (tmul (row_tile G i) Gam) (dagger (row_tile G j)).

(** Every block stored in [Sf] lies inside the nb × nb blocks and is
    the block of G·Γ·G† at its position. *)
Definition sound (nb : nat) (G : gmap nat T) (Gam : T)
    (Sf : gmap (nat * nat) T) : Prop :=
  ∀ i j v, Sf !! (i, j) = Some v →
    i < nb ∧ j < nb ∧ v = spectral_block G Gam i j.

(** [Sf'] is [Sf] with the blocks at the positions [P] written, all of
    them blocks of G·Γ·G†. *)
Definition grows (nb : nat) (G : gmap nat T) (Gam : T)
    (P : nat → nat → Prop) (Sf Sf' : gmap (nat * nat) T) : Prop :=
  sound nb G Gam Sf'
  ∧ ∀ i j, is_Some (Sf' !! (i, j)) ↔ is_Some (Sf !! (i, j)) ∨ P i j.

(** [Gt] is the column of the Green function grown from the rows
    [blocks] of [A]: it has every row block, keeps those of [A], and
    continues them upwards by G[i] = −tY[i+1]·G[i+1] and downwards by
    G[i+1] = −tX[i]·G[i]. *)
Definition column_of (nb : nat) (tX tY : list (slot T)) (blocks : list nat)
    (A Gt : gmap nat T) : Prop :=
  ∃ b0 b1,
    b0 ≤ b1 < nb
    ∧ (blocks = [b0] ∧ b1 = b0 ∨ blocks = [b0; b1] ∧ b1 = b0 + 1)
    ∧ (∀ b, b0 ≤ b ≤ b1 → is_Some (A !! b) ∧ Gt !! b = A !! b)
    ∧ (∀ i, i < nb → is_Some (Gt !! i))
    ∧ (∀ i y, i < b0 → getarr tY (i + 1) = Ok y →
         row_tile Gt i = tmul (tneg y) (row_tile Gt (i + 1)))
    ∧ (∀ i x, b1 ≤ i → i + 1 < nb → getarr tX i = Ok x →
         row_tile Gt (i + 1) = tmul (tneg x) (row_tile Gt i)).

End SpectralSpec.

(** ** A concrete world: 1×1 integer tiles, integer energies

    The instance on which the statements below are evaluated.  Tiles,
    energies, k-points and DOS values are integers; a sparse matrix is
    its entry function. *)

Module ZTile.
Definition zinv (z : Z) : option Z :=
  if decide (z = 1%Z) then Some 1%Z
  else if decide (z = (-1)%Z) then Some (-1)%Z
  else None.

#[global] Instance ops : TileOps Z := {|
  tmul := Z.mul;
  tsub := Z.sub;
  tneg := Z.opp;
  dagger := fun z => z;
  ttrans := fun z => z;
  tinv := zinv;
  zeros := fun _ _ => 0%Z;
  tlen := fun _ => 1;
  np_empty := 0%Z;
  takecols := fun z _ => z;
  setcols := fun _ _ x => x;
  takerows := fun z _ _ => z;
  vstack := fun l => hd 0%Z l;
  of_blocks := fun l => hd 0%Z (hd [] l);
  indices_only := fun _ i => i;
|}.

#[global] Instance ring : TileRing Z := {|
  tadd := Z.add;
  tzero := 0%Z;
  tone := 1%Z;
|}.

#[global] Instance numerics : Numerics Z Z := {|
  allclose_E := Z.eqb;
  allclose_k := Z.eqb;
  asarrayd := fun k => k;
  isrealobj := fun _ => true;
|}.

Definition sparse : Type := nat → nat → Z.

#[global] Instance sparse_ops : SparseOps Z Z sparse := {|
  sp_scale := fun m e i j => (m i j * e)%Z;
  sp_sub := fun m n i j => (m i j - n i j)%Z;
  sp_pivot := fun m pvt i j => m (default 0 (pvt !! i)) (default 0 (pvt !! j));
  sp_isub := fun m idx x i j =>
    if decide (i ∈ idx ∧ j ∈ idx) then (m i j - x)%Z else m i j;
  sp_set := fun m idx n i j =>
    if decide (i ∈ idx ∧ j ∈ idx) then n i j else m i j;
  sp_block := fun m r c => m r.1 c.1;
  sp_take := fun m idx1 idx2 => m (default 0 (head idx1)) (default 0 (head idx2));
  sp_fill := fun m r c x i j =>
    if decide (i = r.1 ∧ j = c.1) then x else m i j;
|}.

(** A stable insertion sort of the positions by their keys. *)
Fixpoint insert_by (key : nat → Z) (i : nat) (l : list nat) : list nat :=
  match l with
  | [] => [i]
  | j :: l' =>
      if (key i <=? key j)%Z then i :: j :: l' else j :: insert_by key i l'
  end.

Definition zargsort (l : list Z) : list nat :=
  foldr (insert_by (fun i => default 0%Z (l !! i))) [] (seq 0 (length l)).

#[global] Instance real_ops : RealOps Z := {|
  rleb := Z.leb;
  rltb := Z.ltb;
  rzero := 0%Z;
  rneg := Z.opp;
  rmul := Z.mul;
  rfabs := Z.abs;
  rsign := Z.sgn;
  rsqrt := Z.sqrt;
  rsquare := fun z => (z * z)%Z;
  sub_tenth := fun z => z;
  mul_2pi := fun z => (6 * z)%Z;
  div_2pi := fun z => (z / 6)%Z;
  argsort := zargsort;
|}.

#[global] Instance lapack : Lapack Z Z := {|
  eigh := fun z => Ok ([z], 1%Z);
  eigh_destroy := fun z => Ok ([z], 1%Z);
  svd_destroy := fun z => Ok (1%Z, [Z.abs z]);
  add_tenth_diag := fun z => z;
  scale_cols := fun z v => (z * default 1 (head v))%Z;
|}.

(** A 2×2 block matrix with every tile stored. *)
Definition full2 : BlockMatrix.t Z :=
  BlockMatrix.mk [1; 1]
    (<[(0, 0) := 1%Z]> (<[(0, 1) := 2%Z]>
      (<[(1, 0) := 3%Z]> (<[(1, 1) := 4%Z]> ∅)))).

(** A three-block device with one orbital per block and two electrodes,
    "L" on orbital 0 and "R" on orbital 2.  With E = 1 the pivoted
    E·S − H − Σ is the tridiagonal matrix
    [[1, 2, 0], [1, 1, 1], [0, 0, 1]]. *)
Definition elec_L : DeviceGreen.electrode (T := Z) (energy := Z) (kpoint := Z) :=
  {| DeviceGreen.name := "L"; DeviceGreen.pvt_dev := [0];
     DeviceGreen.self_energy := fun E _ => Ok (E - 1)%Z;
     DeviceGreen.se2scat := fun se => (2 * se + 1)%Z |}.

Definition elec_R : DeviceGreen.electrode (T := Z) (energy := Z) (kpoint := Z) :=
  {| DeviceGreen.name := "R"; DeviceGreen.pvt_dev := [2];
     DeviceGreen.self_energy := fun E _ => Ok (1 - E)%Z;
     DeviceGreen.se2scat := fun se => (se + 1)%Z |}.

Definition toy_S : sparse := fun i j => if decide (i = j) then 1%Z else 0%Z.

Definition toy_H : sparse := fun i j =>
  match i, j with
  | 0, 1 => (-2)%Z
  | 1, 0 => (-1)%Z
  | 1, 2 => (-1)%Z
  | _, _ => 0%Z
  end.

Definition toy : DeviceGreen.device (T := Z) (energy := Z) (kpoint := Z)
    (sparse := sparse) :=
  {| DeviceGreen.H_Sk := fun _ => toy_S;
     DeviceGreen.H_Hk := fun _ => toy_H;
     DeviceGreen.H_Sk_csr := toy_S;
     DeviceGreen.elecs := [elec_L; elec_R];
     DeviceGreen.elecs_pvt_dev := [[0]; [2]];
     DeviceGreen.pvt := [0; 1; 2];
     DeviceGreen.btd := [1; 1; 1] |}.

(** A freshly constructed [DeviceGreen] ([__init__] ends with [reset]). *)
Definition fresh : DeviceGreen.state (T := Z) (energy := Z) (kpoint := Z) :=
  {| DeviceGreen.data := DeviceGreen.empty_cache; DeviceGreen.se_calls := [] |}.

(** The state after [_prepare(1, 0)] on the fresh toy device. *)
Definition prepared : DeviceGreen.state (T := Z) (energy := Z) (kpoint := Z) :=
  (DeviceGreen._prepare toy 1%Z 0%Z fresh).2.

(** A long device: [n] one-orbital blocks without coupling between
    them, the electrodes "L" and "R" on the first and on the last
    orbital.  With E = 1 both self-energies vanish and E·S − H − Σ is
    the identity matrix. *)
Definition long_R (n : nat)
  : DeviceGreen.electrode (T := Z) (energy := Z) (kpoint := Z) :=
  {| DeviceGreen.name := "R"; DeviceGreen.pvt_dev := [n - 1];
     DeviceGreen.self_energy := fun E _ => Ok (1 - E)%Z;
     DeviceGreen.se2scat := fun se => (se + 1)%Z |}.

Definition long (n : nat) : DeviceGreen.device (T := Z) (energy := Z)
    (kpoint := Z) (sparse := sparse) :=
  {| DeviceGreen.H_Sk := fun _ => toy_S;
     DeviceGreen.H_Hk := fun _ _ _ => 0%Z;
     DeviceGreen.H_Sk_csr := toy_S;
     DeviceGreen.elecs := [elec_L; long_R n];
     DeviceGreen.elecs_pvt_dev := [[0]; [n - 1]];
     DeviceGreen.pvt := seq 0 n;
     DeviceGreen.btd := replicate n 1 |}.

(** A downfolding chain of three one-orbital blocks; the electrode sits
    on orbital 0 and returns Σ₀ = 1.  With E = 1 the downfold matrix
    E·S − H with the bulk electrode block inserted and Σ₀ subtracted is
    [[1, 1, 0], [1, 2, 1], [0, 1, 0]]. *)
Definition chain_H : sparse := fun i j =>
  match i, j with
  | 0, 1 | 1, 0 | 1, 1 | 1, 2 | 2, 1 => (-1)%Z
  | 2, 2 => 1%Z
  | _, _ => 0%Z
  end.

Definition chain : DownfoldSelfEnergy.downfold (T := Z) (energy := Z)
    (kpoint := Z) (sparse := sparse) :=
  {| DownfoldSelfEnergy.name := "L";
     DownfoldSelfEnergy.btd := [1; 1; 1];
     DownfoldSelfEnergy.bulk := true;
     DownfoldSelfEnergy.Hdev_Sk := fun _ => toy_S;
     DownfoldSelfEnergy.Hdev_Hk := fun _ => chain_H;
     DownfoldSelfEnergy.Helec_Sk := fun _ => toy_S;
     DownfoldSelfEnergy.Helec_Hk := fun _ _ _ => (-1)%Z;
     DownfoldSelfEnergy.d_elec := [0];
     DownfoldSelfEnergy.d_dev := [0; 1; 2];
     DownfoldSelfEnergy.add_ieta := fun _ => None;
     DownfoldSelfEnergy.bloch_self_energy := fun _ _ => Ok 1%Z |}.

(** The downfold matrix of [chain] at E = 1, k = 0 in its BTD blocks,
    and the inverse [[2, −1], [−1, 1]] of its leading two blocks
    [[1, 1], [1, 2]]. *)
Definition chain_M : nat → nat → Z :=
  DownfoldSelfEnergy.Mblock chain
    (sp_isub (DownfoldSelfEnergy.build_SeH chain 1%Z 0%Z) [0] 1%Z).

Definition chain_X : nat → nat → Z := fun i j =>
  match i, j with
  | 0, 0 => 2%Z
  | 1, 1 => 1%Z
  | _, _ => (-1)%Z
  end.

(** Variants of the toy device: without electrodes, with a single BTD
    block, and with a middle electrode whose Σ provider raises. *)
Definition bare : DeviceGreen.device (T := Z) (energy := Z) (kpoint := Z)
    (sparse := sparse) :=
  {| DeviceGreen.H_Sk := fun _ => toy_S;
     DeviceGreen.H_Hk := fun _ => toy_H;
     DeviceGreen.H_Sk_csr := toy_S;
     DeviceGreen.elecs := [];
     DeviceGreen.elecs_pvt_dev := [];
     DeviceGreen.pvt := [0; 1; 2];
     DeviceGreen.btd := [1; 1; 1] |}.

Definition one_block : DeviceGreen.device (T := Z) (energy := Z)
    (kpoint := Z) (sparse := sparse) :=
  {| DeviceGreen.H_Sk := fun _ => toy_S;
     DeviceGreen.H_Hk := fun _ => toy_H;
     DeviceGreen.H_Sk_csr := toy_S;
     DeviceGreen.elecs := [elec_L; elec_R];
     DeviceGreen.elecs_pvt_dev := [[0]; [2]];
     DeviceGreen.pvt := [0; 1; 2];
     DeviceGreen.btd := [3] |}.

Definition elec_bad : DeviceGreen.electrode (T := Z) (energy := Z) (kpoint := Z) :=
  {| DeviceGreen.name := "M"; DeviceGreen.pvt_dev := [1];
     DeviceGreen.self_energy := fun _ _ => Err (ValueError "no such energy");
     DeviceGreen.se2scat := fun se => se |}.

Definition broken : DeviceGreen.device (T := Z) (energy := Z) (kpoint := Z)
    (sparse := sparse) :=
  {| DeviceGreen.H_Sk := fun _ => toy_S;
     DeviceGreen.H_Hk := fun _ => toy_H;
     DeviceGreen.H_Sk_csr := toy_S;
     DeviceGreen.elecs := [elec_L; elec_bad; elec_R];
     DeviceGreen.elecs_pvt_dev := [[0]; [1]; [2]];
     DeviceGreen.pvt := [0; 1; 2];
     DeviceGreen.btd := [1; 1; 1] |}.

(** The chain of [chain] cut down to its first block. *)
Definition short_chain : DownfoldSelfEnergy.downfold (T := Z) (energy := Z)
    (kpoint := Z) (sparse := sparse) :=
  {| DownfoldSelfEnergy.name := "L";
     DownfoldSelfEnergy.btd := [1];
     DownfoldSelfEnergy.bulk := true;
     DownfoldSelfEnergy.Hdev_Sk := fun _ => toy_S;
     DownfoldSelfEnergy.Hdev_Hk := fun _ => chain_H;
     DownfoldSelfEnergy.Helec_Sk := fun _ => toy_S;
     DownfoldSelfEnergy.Helec_Hk := fun _ _ _ => (-1)%Z;
     DownfoldSelfEnergy.d_elec := [0];
     DownfoldSelfEnergy.d_dev := [0];
     DownfoldSelfEnergy.add_ieta := fun _ => None;
     DownfoldSelfEnergy.bloch_self_energy := fun _ _ => Ok 1%Z |}.
End ZTile.

(** * Properties *)

(** ** BlockMatrix *)

(** C5 (the code departs from the claim).  [tobtd] is claimed to retain
    every tile (i, j) with |i − j| ≤ 1, the sub-diagonal tiles (j+1, j)
    and the last diagonal tile included.  On the 2×2 block matrix
    [full2], all of whose four tiles are stored, the matrix [tobtd]
    returns holds neither the sub-diagonal tile (1, 0) nor the last
    diagonal tile (1, 1): the inner loop [range(max(0, j-1), min(j+1,
    nbm1))] stops one short of the sub-diagonal and, in the last column,
    of the diagonal. *)
Theorem tobtd_drops_subdiagonal_and_last_diagonal :
  ∃ ret, BlockMatrix.tobtd ZTile.full2 = Ok ret
    ∧ BlockMatrix._M ZTile.full2 !! (1, 0) = Some 3%Z
    ∧ BlockMatrix._M ret !! (1, 0) = None
    ∧ BlockMatrix._M ZTile.full2 !! (1, 1) = Some 4%Z
    ∧ BlockMatrix._M ret !! (1, 1) = None
    ∧ BlockMatrix._M ret !! (0, 0) = Some 1%Z
    ∧ BlockMatrix._M ret !! (0, 1) = Some 2%Z.
Proof.
  eexists. split; [vm_compute; reflexivity|].
  repeat split; vm_compute; reflexivity.
Qed.

(** ** DeviceGreen: the cache *)

Section CacheFacts.
Import DeviceGreen.
Context {T energy kpoint sparse : Type}.
Context `{TileOps T} `{Numerics energy kpoint} `{SparseOps T energy sparse}.

Abbreviation device := (@device T energy kpoint sparse).
Abbreviation state := (@state T energy kpoint).
Abbreviation electrode := (@electrode T energy kpoint).

Lemma check_Ek_cases (E : energy) (k : kpoint) (st : state) :
  (∃ E0 k0, d_E (data st) = Some E0 ∧ d_k (data st) = Some k0
      ∧ allclose_E E0 E = true ∧ allclose_k k0 k = true
      ∧ _check_Ek E k st = (Ok true, st))
  ∨ (∃ e, _check_Ek E k st = (Err e, st))
  ∨ _check_Ek E k st
      = (Ok false, {| data := empty_cache; se_calls := se_calls st |}).
Proof.
  unfold _check_Ek, bind, get_data, reset, modify_data, ret, lift.
  destruct (d_E (data st)) as [E0|] eqn:HE; [|by right; right].
  destruct (allclose_E E0 E) eqn:HaE; [|by right; right].
  destruct (d_k (data st)) as [k0|] eqn:Hk; simpl.
  - destruct (allclose_k k0 k) eqn:Hak; [|by right; right].
    left. by exists E0, k0.
  - right; left. by eexists.
Qed.

Lemma check_Ek_hit (E : energy) (k : kpoint) (st : state) E0 k0 :
  d_E (data st) = Some E0 → d_k (data st) = Some k0 →
  allclose_E E0 E = true → allclose_k k0 k = true →
  _check_Ek E k st = (Ok true, st).
Proof.
  intros HE Hk HaE Hak.
  unfold _check_Ek, bind, get_data, ret, lift.
  by rewrite HE, HaE, Hk; simpl; rewrite Hak.
Qed.

Lemma check_Ek_fresh (E : energy) (k : kpoint) (st : state) :
  d_E (data st) = None →
  _check_Ek E k st
  = (Ok false, {| data := empty_cache; se_calls := se_calls st |}).
Proof.
  intros HE. unfold _check_Ek, bind, get_data. by rewrite HE.
Qed.

(** A successful run of the body of [_prepare] records [E] and [k]. *)
Lemma prepare_body_records_Ek (self : device) E k (st st1 : state) :
  _prepare_body self E k st = (Ok tt, st1) →
  d_E (data st1) = Some E ∧ d_k (data st1) = Some (asarrayd k).
Proof.
  unfold _prepare_body, bind, lift, modify_data.
  destruct (forS _ _ _ st) as [[[inv_G gamma]|e] st'] eqn:Hloop; [|done].
  destruct (decide (elecs self = [])); [done|].
  destruct (extract_tiles self inv_G) as [[[A B] C]|e]; [|done].
  destruct (propagation_tiles _ A B C) as [[tX tY]|e]; [|done].
  intros [= <-]. done.
Qed.

(** C9.  Calling [_prepare(E, k)] a second time right after a call that
    returned finds the cached [E] and [k] matching ([_check_Ek] answers
    [True]) and returns early: the whole state, that is the cache with
    [A], [B], [C], [tX], [tY], [gamma], [E], [k], and the list of calls
    made to the Σ providers, is left as the first call left it.
    [np.allclose] is assumed to hold between [E] and itself and between
    the stored k-point and [k] (it does unless a component is NaN). *)
Theorem prepare_idempotent (self : device) (E : energy) (k : kpoint)
    (st st1 : state) :
  allclose_E E E = true →
  allclose_k (asarrayd k) k = true →
  _prepare self E k st = (Ok tt, st1) →
  _check_Ek E k st1 = (Ok true, st1) ∧ _prepare self E k st1 = (Ok tt, st1).
Proof.
  intros HrE Hrk Hrun.
  assert (Hhit : _check_Ek E k st1 = (Ok true, st1)).
  { revert Hrun. unfold _prepare, bind at 1.
    destruct (check_Ek_cases E k st)
      as [(E0 & k0 & HE & Hk & HaE & Hak & ->)|[[e ->]| ->]]; [| done |].
    - intros [= <-]. by eapply check_Ek_hit.
    - intros [HE1 Hk1]%prepare_body_records_Ek. by eapply check_Ek_hit. }
  split; [done|]. unfold _prepare, bind. by rewrite Hhit.
Qed.

(** The electrode loop of [_prepare_se] when every provider returns. *)
Lemma prepare_se_loop (els : list electrode) E k (SEs acc : list T)
    (st : state) :
  Forall2 (fun el se => self_energy el E k = Ok se) els SEs →
  forS els acc (fun elec gamma =>
      bind (call_self_energy elec E k) (fun SE =>
      ret (gamma ++ [se2scat elec SE]))) st
  = (Ok (acc ++ zip_with se2scat els SEs),
     {| data := data st;
        se_calls := rev ((fun el => (name el, E, k)) <$> els) ++ se_calls st |}).
Proof.
  intros Hall. revert acc st.
  induction Hall as [|el se els SEs Hse _ IH]; intros acc st; simpl.
  - unfold ret. rewrite app_nil_r. by destruct st.
  - unfold bind at 1. unfold bind at 1. unfold call_self_energy at 1.
    rewrite Hse. unfold ret at 1. rewrite IH. simpl.
    by rewrite <-!app_assoc.
Qed.

(** C10.  On a freshly reset [DeviceGreen], [_prepare_se(E, k)] (with
    every Σ provider returning) stores the gamma list and nothing else:
    [A], [B], [C], [tX], [tY] and in particular [E] and [k] stay absent.
    The cache therefore does not validate: [_check_Ek(E, k)] answers
    [False] afterwards, and a second [_prepare_se(E, k)] calls
    [self_energy(E, k)] of every electrode once more (the list of calls
    grows by one call per electrode) instead of returning early. *)
Theorem prepare_se_records_only_gamma (self : device) (E : energy)
    (k : kpoint) (SEs : list T) (log : list (string * energy * kpoint)) :
  Forall2 (fun el se => self_energy el E k = Ok se) (elecs self) SEs →
  let calls := rev ((fun el => (name el, E, k)) <$> elecs self) in
  let only_gamma :=
    {| d_gamma := Some (zip_with se2scat (elecs self) SEs);
       d_A := None; d_B := None; d_C := None; d_tX := None; d_tY := None;
       d_E := None; d_k := None |} in
  let st0 := {| data := empty_cache; se_calls := log |} in
  let st1 := {| data := only_gamma; se_calls := calls ++ log |} in
  let st2 := {| data := only_gamma; se_calls := calls ++ calls ++ log |} in
  _prepare_se self E k st0 = (Ok tt, st1)
  ∧ _check_Ek E k st1
    = (Ok false, {| data := empty_cache; se_calls := calls ++ log |})
  ∧ _prepare_se self E k st1 = (Ok tt, st2).
Proof.
  intros Hall calls only_gamma st0 st1 st2.
  assert (Hrun : ∀ d log', d_E d = None →
    _prepare_se self E k {| data := d; se_calls := log' |}
    = (Ok tt, {| data := only_gamma; se_calls := calls ++ log' |})).
  { intros d log' HE. unfold _prepare_se. unfold bind at 1.
    rewrite check_Ek_fresh by done.
    unfold _prepare_se_body. unfold bind at 1.
    rewrite (prepare_se_loop _ _ _ SEs) by done. done. }
  split; [by apply Hrun|]. split; [by apply check_Ek_fresh|].
  by apply Hrun.
Qed.

End CacheFacts.

(** ** DeviceGreen: error kinds of the public methods *)

Section ErrorFacts.
Import DeviceGreen.
Context {T energy kpoint sparse R : Type}.
Context `{TileOps T} `{Numerics energy kpoint} `{SparseOps T energy sparse}.
Context `{RealOps R} `{Lapack T R}.
Variable recursion_limit : nat.

Abbreviation device := (@device T energy kpoint sparse).
Abbreviation state := (@state T energy kpoint).
Abbreviation electrode := (@electrode T energy kpoint).
Abbreviation spectral := (@spectral T energy kpoint sparse _ _ _ recursion_limit).
Abbreviation scattering_state :=
  (@scattering_state T energy kpoint sparse R _ _ _ _ _ recursion_limit).

Lemma prepare_records_Ek (self : device) E k (st st1 : state) :
  _prepare self E k st = (Ok tt, st1) →
  ∃ E0 k0, d_E (data st1) = Some E0 ∧ d_k (data st1) = Some k0.
Proof.
  unfold _prepare, bind at 1.
  destruct (check_Ek_cases E k st)
    as [(E0 & k0 & HE & Hk & _ & _ & ->)|[[e ->]| ->]]; [| done |].
  - intros [= <-]. eauto.
  - intros [HE Hk]%prepare_body_records_Ek. eauto.
Qed.

Lemma find_name_unknown (els : list electrode) (n : nat) (s : string) :
  Forall (fun el => name el ≠ s) els → find_name els n s = None.
Proof.
  intros Hall. revert n.
  induction Hall as [|el els Hel _ IH]; intros n; simpl; [done|].
  by rewrite decide_False.
Qed.

(** [_elec] hands an unknown name back unchanged. *)
Lemma elec_unknown (self : device) (s : string) :
  Forall (fun el => name el ≠ s) (elecs self) →
  _elec self (EStr s) = EStr s.
Proof. intros Hall. unfold _elec. by rewrite find_name_unknown. Qed.

(** C7, as amended.  For every (E, k) that [_prepare] accepts and every
    electrode argument, [spectral] with [format='btd'] and
    [method='propagate'] raises the [ValueError] of the dispatcher's
    final statement (the InvalidArgument kind), naming the combination
    "btd+propagate"; [_spectral_propagate_btd] and its
    [NotImplementedError] are not reached. *)
Theorem spectral_btd_propagate_is_value_error (self : device)
    (elec : elec_arg) (E : energy) (k : kpoint) (herm : bool)
    (st st1 : state) :
  _prepare self E k st = (Ok tt, st1) →
  spectral self elec E k "btd" "propagate" herm st
  = (Err (ValueError
       "DeviceGreen.spectral combination of format+method not recognized btd+propagate."),
     st1).
Proof.
  intros Hprep. unfold DeviceGreen.spectral. unfold bind at 1.
  rewrite Hprep. reflexivity.
Qed.


End ErrorFacts.

(** ** Loops *)

Lemma forM_range_sound {St : Type} (body : nat → St → result St)
    (I : nat → St → Prop) (lo hi : nat) (s s' : St) :
  lo ≤ hi → I lo s →
  (∀ n s s1, lo ≤ n < hi → I n s → body n s = Ok s1 → I (n + 1) s1) →
  forM (range lo hi) s body = Ok s' → I hi s'.
Proof.
  unfold range. intros Hle. remember (hi - lo) as len eqn:Hlen.
  revert lo s Hle Hlen.
  induction len as [|len IH]; intros lo s Hle Hlen Hs Hstep; simpl.
  - intros [= <-]. by replace hi with lo by lia.
  - destruct (body lo s) as [s1|e] eqn:Hb; simpl; [|done].
    intros Hrun. apply (IH (S lo) s1); [lia|lia| |..|done].
    + replace (S lo) with (lo + 1) by lia. apply (Hstep lo s); [lia|done..].
    + intros n s2 s3 Hn. apply Hstep. lia.
Qed.

Lemma forM_range_complete {St : Type} (body : nat → St → result St)
    (I : nat → St → Prop) (lo hi : nat) (s : St) :
  lo ≤ hi → I lo s →
  (∀ n s, lo ≤ n < hi → I n s → ∃ s1, body n s = Ok s1 ∧ I (n + 1) s1) →
  ∃ s', forM (range lo hi) s body = Ok s' ∧ I hi s'.
Proof.
  unfold range. intros Hle. remember (hi - lo) as len eqn:Hlen.
  revert lo s Hle Hlen.
  induction len as [|len IH]; intros lo s Hle Hlen Hs Hstep; simpl.
  - exists s. split; [done|]. by replace hi with lo by lia.
  - destruct (Hstep lo s) as (s1 & Hb & Hs1); [lia|done|].
    rewrite Hb. simpl.
    apply (IH (S lo) s1); [lia|lia| |].
    + by replace (S lo) with (lo + 1) by lia.
    + intros n s2 Hn. apply Hstep. lia.
Qed.

Lemma length_cumsum_from (acc : nat) (l : list nat) :
  length (cumsum_from acc l) = length l.
Proof. revert acc. induction l as [|x l IH]; intros acc; simpl; auto. Qed.

Lemma length_cumsum (l : list nat) : length (cumsum l) = length l.
Proof. apply length_cumsum_from. Qed.

Lemma index_Ok {A : Type} (l : list A) (i : nat) (x : A) :
  index l i = Ok x ↔ l !! i = Some x.
Proof. unfold index. destruct (l !! i); split; congruence. Qed.

Lemma index_lt {A : Type} (l : list A) (i : nat) :
  i < length l → ∃ x, index l i = Ok x ∧ l !! i = Some x.
Proof.
  intros Hi. destruct (lookup_lt_is_Some_2 l i Hi) as [x Hx].
  exists x. by rewrite index_Ok.
Qed.

Lemma index_Ok_lt {A : Type} (l : list A) (i : nat) (x : A) :
  index l i = Ok x → i < length l.
Proof. rewrite index_Ok. apply lookup_lt_Some. Qed.

Lemma setindex_Ok {A : Type} (l l' : list A) (i : nat) (v : A) :
  setindex l i v = Ok l' ↔ i < length l ∧ l' = <[i := v]> l.
Proof.
  unfold setindex. case_decide; split; try naive_solver.
Qed.

Lemma setindex_lt {A : Type} (l : list A) (i : nat) (v : A) :
  i < length l → setindex l i v = Ok (<[i := v]> l).
Proof. intros. by apply setindex_Ok. Qed.

Lemma neg_index_Ok {A : Type} (l : list A) (k i : nat) :
  neg_index l k = Ok i ↔ k ≤ length l ∧ i = length l - k.
Proof. unfold neg_index. case_decide; split; naive_solver. Qed.

Section ArrayFacts.
Context {T : Type}.

Lemma arr_at_Some (l : list (slot T)) (i : nat) (a : T) :
  arr_at l i = Some a ↔ l !! i = Some (SArr a).
Proof.
  unfold arr_at. destruct (l !! i) as [[| |]|]; split; congruence.
Qed.

Lemma getarr_Ok (l : list (slot T)) (i : nat) (a : T) :
  getarr l i = Ok a ↔ arr_at l i = Some a.
Proof.
  unfold getarr, arr_at, index.
  destruct (l !! i) as [[| |]|]; simpl; split; congruence.
Qed.

Lemma getarr_arr (l : list (slot T)) (i : nat) (a : T) :
  arr_at l i = Some a → getarr l i = Ok a.
Proof. apply getarr_Ok. Qed.

Lemma arr_at_insert_eq (l : list (slot T)) (i : nat) (a : T) :
  i < length l → arr_at (<[i := SArr a]> l) i = Some a.
Proof. intros. unfold arr_at. by rewrite list_lookup_insert_eq. Qed.

Lemma arr_at_insert_ne (l : list (slot T)) (i j : nat) (s : slot T) :
  i ≠ j → arr_at (<[i := s]> l) j = arr_at l j.
Proof. intros. unfold arr_at. by rewrite list_lookup_insert_ne. Qed.

Lemma arr_at_replicate (n i : nat) (s : slot T) :
  (∀ a, s ≠ SArr a) → arr_at (replicate n s) i = None.
Proof.
  intros Hs. unfold arr_at.
  destruct (replicate n s !! i) as [s'|] eqn:Hl; [|done].
  apply lookup_replicate in Hl as [-> _]. destruct s; naive_solver.
Qed.

End ArrayFacts.

(** ** The propagation tiles of [_prepare] *)

Section PropagationTiles.
Import DeviceGreen.
Context {T : Type} `{TileOps T}.

Lemma solve_eq (a b : T) :
  solve a b = match tinv a with
              | Some i => Ok (tmul i b)
              | None => Err LinAlgError
              end.
Proof. reflexivity. Qed.

Lemma tX_spec_last (nb : nat) (A B C : list (slot T)) :
  2 ≤ nb →
  tX_spec nb A B C (nb - 2)
  = (a ← arr_at A (nb - 1); b ← arr_at B (nb - 2); i ← tinv a;
     Some (tmul i b)).
Proof.
  intros Hnb. unfold tX_spec. rewrite decide_True by lia.
  by replace (nb - 2 - (nb - 2)) with 0 by lia.
Qed.

Lemma tX_spec_step (nb : nat) (A B C : list (slot T)) (p : nat) :
  p + 2 < nb →
  tX_spec nb A B C p
  = (a ← arr_at A (p + 1); c ← arr_at C (p + 2);
     x ← tX_spec nb A B C (p + 1); b ← arr_at B p;
     i ← tinv (tsub a (tmul c x)); Some (tmul i b)).
Proof.
  intros Hp. unfold tX_spec. rewrite !decide_True by lia.
  replace (nb - 2 - p) with (S (nb - 2 - (p + 1))) by lia.
  simpl. by replace (nb - 2 - S (nb - 2 - (p + 1))) with p by lia.
Qed.

Lemma tY_spec_first (A B C : list (slot T)) :
  tY_spec A B C 1
  = (a ← arr_at A 0; c ← arr_at C 1; i ← tinv a; Some (tmul i c)).
Proof. reflexivity. Qed.

Lemma tY_spec_step (A B C : list (slot T)) (n : nat) :
  2 ≤ n →
  tY_spec A B C n
  = (a ← arr_at A (n - 1); b ← arr_at B (n - 2);
     y ← tY_spec A B C (n - 1); c ← arr_at C n;
     i ← tinv (tsub a (tmul b y)); Some (tmul i c)).
Proof.
  intros Hn. destruct n as [|[|m]]; [lia..|].
  simpl. by rewrite Nat.sub_0_r.
Qed.

Section Loop.
Variables (nb : nat) (A B C : list (slot T)).
Hypothesis Hnb : 2 ≤ nb.
Hypothesis HA : ∀ b, b < nb → is_Some (arr_at A b).
Hypothesis HB : ∀ b, b + 1 < nb → is_Some (arr_at B b).
Hypothesis HC : ∀ b, 1 ≤ b < nb → is_Some (arr_at C b).

(** One iteration of the loop, as an equation. *)
Lemma propagation_step_eq (n : nat) (tX tY : list (slot T)) :
  2 ≤ n < nb →
  propagation_inv nb A B C n (tX, tY) →
  propagation_step nb A B C n (tX, tY)
  = match tY_spec A B C n, tX_spec nb A B C (nb - n - 1) with
    | Some y, Some x =>
        Ok (<[nb - n - 1 := SArr x]> tX, <[n := SArr y]> tY)
    | _, _ => Err LinAlgError
    end.
Proof.
  intros Hn (HlX & HlY & HtY & HtX). simpl in *.
  unfold propagation_step.
  rewrite tY_spec_step by lia.
  rewrite (tX_spec_step nb A B C (nb - n - 1)) by lia.
  destruct (HA (n - 1)) as [a Ha]; [lia|].
  destruct (HB (n - 2)) as [b Hb]; [lia|].
  destruct (HC n) as [c Hc]; [lia|].
  destruct (HtY (n - 1)) as [[y Hy] Hys]; [lia|].
  destruct (HA (nb - n - 1 + 1)) as [a' Ha']; [lia|].
  destruct (HC (nb - n - 1 + 2)) as [c' Hc']; [lia|].
  destruct (HB (nb - n - 1)) as [b' Hb']; [lia|].
  destruct (HtX (nb - n - 1 + 1)) as [[x Hx] Hxs]; [lia|lia|].
  rewrite <-Hys, <-Hxs, Hy, Hx, Ha, Hb, Hc, Ha', Hb', Hc'.
  rewrite (getarr_arr _ _ _ Ha), (getarr_arr _ _ _ Hb),
    (getarr_arr _ _ _ Hy), (getarr_arr _ _ _ Hc),
    (getarr_arr _ _ _ Ha'), (getarr_arr _ _ _ Hc'),
    (getarr_arr _ _ _ Hx), (getarr_arr _ _ _ Hb').
  simpl. rewrite !solve_eq.
  destruct (tinv (tsub a (tmul b y))) as [i|]; simpl; [|done].
  rewrite setindex_lt by lia. simpl.
  destruct (tinv (tsub a' (tmul c' x))) as [i'|]; simpl; [|done].
  by rewrite setindex_lt by lia.
Qed.

Lemma propagation_step_inv (n : nat) (tX tY : list (slot T)) (x y : T) :
  2 ≤ n < nb →
  propagation_inv nb A B C n (tX, tY) →
  tY_spec A B C n = Some y →
  tX_spec nb A B C (nb - n - 1) = Some x →
  propagation_inv nb A B C (n + 1)
    (<[nb - n - 1 := SArr x]> tX, <[n := SArr y]> tY).
Proof.
  intros Hn (HlX & HlY & HtY & HtX) Hy Hx. simpl in *.
  repeat split; simpl; rewrite ?length_insert; try done.
  - destruct (decide (m = n)) as [->|Hne].
    + by rewrite arr_at_insert_eq by lia.
    + rewrite arr_at_insert_ne by done. apply HtY. lia.
  - destruct (decide (m = n)) as [->|Hne].
    + by rewrite arr_at_insert_eq by lia.
    + rewrite arr_at_insert_ne by done. apply HtY. lia.
  - destruct (decide (p = nb - n - 1)) as [->|Hne].
    + by rewrite arr_at_insert_eq by lia.
    + rewrite arr_at_insert_ne by done. apply HtX; lia.
  - destruct (decide (p = nb - n - 1)) as [->|Hne].
    + by rewrite arr_at_insert_eq by lia.
    + rewrite arr_at_insert_ne by done. apply HtX; lia.
Qed.

(** The statements before the loop, as an equation. *)
Lemma propagation_tiles_eq :
  length A = nb → length B = nb →
  propagation_tiles nb A B C
  = match tY_spec A B C 1, tX_spec nb A B C (nb - 2) with
    | Some y, Some x =>
        forM (range 2 nb)
          (<[nb - 2 := SArr x]> (replicate nb (SInt 0)),
           <[1 := SArr y]> (replicate nb (SInt 0)))
          (propagation_step nb A B C)
    | _, _ => Err LinAlgError
    end.
Proof.
  intros HlA HlB. unfold propagation_tiles.
  rewrite tY_spec_first, tX_spec_last by done.
  destruct (HA 0) as [a Ha]; [lia|].
  destruct (HC 1) as [c Hc]; [lia|].
  destruct (HA (nb - 1)) as [a' Ha']; [lia|].
  destruct (HB (nb - 2)) as [b' Hb']; [lia|].
  rewrite Ha, Hc, Ha', Hb'.
  rewrite (getarr_arr _ _ _ Ha), (getarr_arr _ _ _ Hc). simpl.
  rewrite solve_eq.
  destruct (tinv a) as [i|]; simpl; [|done].
  rewrite setindex_lt by (rewrite length_replicate; lia). simpl.
  unfold neg_index. rewrite HlA, HlB, !length_replicate.
  rewrite !decide_True by lia. simpl.
  rewrite (getarr_arr _ _ _ Ha'), (getarr_arr _ _ _ Hb'). simpl.
  rewrite solve_eq.
  destruct (tinv a') as [i'|]; simpl; [|done].
  by rewrite setindex_lt by (rewrite length_replicate; lia).
Qed.

Lemma propagation_inv_init (x y : T) :
  tY_spec A B C 1 = Some y →
  tX_spec nb A B C (nb - 2) = Some x →
  propagation_inv nb A B C 2
    (<[nb - 2 := SArr x]> (replicate nb (SInt 0)),
     <[1 := SArr y]> (replicate nb (SInt 0))).
Proof.
  intros Hy Hx. unfold propagation_inv. simpl.
  rewrite !length_insert, !length_replicate.
  split; [done|]. split; [done|]. split.
  - intros m Hm. replace m with 1 by lia.
    by rewrite arr_at_insert_eq by (rewrite length_replicate; lia).
  - intros p Hp1 Hp2. replace p with (nb - 2) by lia.
    by rewrite arr_at_insert_eq by (rewrite length_replicate; lia).
Qed.

(** If [propagation_tiles] returns, the tiles are the specification's. *)
Lemma propagation_tiles_sound (tX tY : list (slot T)) :
  length A = nb → length B = nb → length C = nb →
  propagation_tiles nb A B C = Ok (tX, tY) →
  tiles_prepared nb A B C tX tY.
Proof.
  intros HlA HlB HlC. rewrite propagation_tiles_eq by done.
  destruct (tY_spec A B C 1) as [y|] eqn:Hy; [|done].
  destruct (tX_spec nb A B C (nb - 2)) as [x|] eqn:Hx; [|done].
  intros Hrun.
  eapply (forM_range_sound _ (propagation_inv nb A B C)) in Hrun;
    [|done|by apply propagation_inv_init|].
  - destruct Hrun as (HlX & HlY & HtY & HtX). simpl in *.
    split; try done. intros p Hp. apply HtX; lia.
  - intros n [tX' tY'] s1 Hn Hinv.
    rewrite propagation_step_eq by done.
    destruct (tY_spec A B C n) as [yn|] eqn:Hyn; [|done].
    destruct (tX_spec nb A B C (nb - n - 1)) as [xn|] eqn:Hxn; [|done].
    intros [= <-]. by apply propagation_step_inv.
Qed.

(** [propagation_tiles] returns when no matrix to invert is singular. *)
Lemma propagation_tiles_complete :
  length A = nb → length B = nb →
  (∀ n, 1 ≤ n < nb → is_Some (tY_spec A B C n)) →
  (∀ p, p + 1 < nb → is_Some (tX_spec nb A B C p)) →
  ∃ tX tY, propagation_tiles nb A B C = Ok (tX, tY).
Proof.
  intros HlA HlB HY HX. rewrite propagation_tiles_eq by done.
  destruct (HY 1) as [y Hy]; [lia|].
  destruct (HX (nb - 2)) as [x Hx]; [lia|].
  rewrite Hy, Hx.
  destruct (forM_range_complete (propagation_step nb A B C)
    (propagation_inv nb A B C) 2 nb
    (<[nb - 2 := SArr x]> (replicate nb (SInt 0)),
     <[1 := SArr y]> (replicate nb (SInt 0))))
    as ([tX tY] & Hrun & _); [done|by apply propagation_inv_init| |by eauto].
  intros n [tX' tY'] Hn Hinv.
  rewrite propagation_step_eq by done.
  destruct (HY n) as [yn Hyn]; [lia|].
  destruct (HX (nb - n - 1)) as [xn Hxn]; [lia|].
  rewrite Hyn, Hxn. eexists. split; [done|].
  by apply propagation_step_inv.
Qed.

End Loop.

(** *** The extraction of [A], [B], [C] *)

Section Extract.
Context {energy kpoint sparse : Type} `{SparseOps T energy sparse}.

Lemma extract_step_inv (nb : nat) (cbtd : list nat) (inv_G : sparse)
    (b : nat) s s1 :
  1 ≤ b → b + 1 < nb →
  extract_inv nb b s →
  extract_step cbtd inv_G b s = Ok s1 →
  extract_inv nb (b + 1) s1.
Proof.
  intros Hb1 Hb2. destruct s as [[[[sl0 slp] A] B] C].
  intros (HlA & HlB & HlC & HA & HB & HC).
  unfold extract_step.
  destruct (index cbtd b) as [cb|]; simpl; [|done].
  destruct (index cbtd (b + 1)) as [cb1|]; simpl; [|done].
  rewrite !setindex_lt by lia. simpl. intros [= <-].
  unfold extract_inv. rewrite !length_insert.
  repeat split; try done.
  - intros i Hi. destruct (decide (i = b)) as [->|].
    + by rewrite arr_at_insert_eq by lia.
    + rewrite arr_at_insert_ne by done. apply HA. lia.
  - intros i Hi. destruct (decide (i = b - 1)) as [->|].
    + by rewrite arr_at_insert_eq by lia.
    + rewrite arr_at_insert_ne by done. apply HB. lia.
  - intros i Hi. destruct (decide (i = b + 1)) as [->|].
    + by rewrite arr_at_insert_eq by lia.
    + rewrite arr_at_insert_ne by done. apply HC. lia.
Qed.

(** If [extract_tiles] returns, nb ≥ 2 and every tile the Green function
    reads is an array. *)
Lemma extract_tiles_sound (self : @device T energy kpoint sparse)
    (inv_G : sparse) (A B C : list (slot T)) :
  extract_tiles self inv_G = Ok (A, B, C) →
  let nb := length (btd self) in
  2 ≤ nb ∧ length A = nb ∧ length B = nb ∧ length C = nb
  ∧ (∀ b, b < nb → is_Some (arr_at A b))
  ∧ (∀ b, b + 1 < nb → is_Some (arr_at B b))
  ∧ (∀ b, 1 ≤ b < nb → is_Some (arr_at C b)).
Proof.
  unfold extract_tiles. intros Hrun. cbv zeta in *.
  set (nb := length (btd self)) in *.
  destruct (index (btd_cum self) 0) as [c0|] eqn:Hc0; simpl in Hrun; [|done].
  destruct (index (btd_cum self) 1) as [c1|] eqn:Hc1; simpl in Hrun; [|done].
  assert (Hnb : 2 ≤ nb).
  { apply index_Ok_lt in Hc1. unfold btd_cum in Hc1.
    rewrite length_cumsum in Hc1. unfold nb. lia. }
  rewrite !setindex_lt in Hrun by (rewrite length_replicate; lia).
  simpl in Hrun.
  destruct (forM _ _ _) as [[[[[sl0 slp] A1] B1] C1]|] eqn:Hloop;
    simpl in Hrun; [|done].
  eapply (forM_range_sound _ (extract_inv nb)) in Hloop; [|lia| |].
  - destruct Hloop as (HlA & HlB & HlC & HA & HB & HC).
    unfold neg_index in Hrun. rewrite HlA, HlB in Hrun.
    rewrite !decide_True in Hrun by lia. simpl in Hrun.
    rewrite !setindex_lt in Hrun by lia. simpl in Hrun.
    injection Hrun as <- <- <-. rewrite !length_insert.
    repeat split; try done.
    + intros b Hb. destruct (decide (b = nb - 1)) as [->|].
      * by rewrite arr_at_insert_eq by lia.
      * rewrite arr_at_insert_ne by done. apply HA. lia.
    + intros b Hb. destruct (decide (b = nb - 2)) as [->|].
      * by rewrite arr_at_insert_eq by lia.
      * rewrite arr_at_insert_ne by done. apply HB. lia.
    + intros b Hb. apply HC. lia.
  - unfold extract_inv. rewrite !length_insert, !length_replicate.
    repeat split; try done.
    + intros i Hi. replace i with 0 by lia.
      by rewrite arr_at_insert_eq by (rewrite length_replicate; lia).
    + intros i Hi. lia.
    + intros i Hi. replace i with 1 by lia.
      by rewrite arr_at_insert_eq by (rewrite length_replicate; lia).
  - intros n s s1 Hn. apply extract_step_inv; lia.
Qed.

End Extract.
End PropagationTiles.

(** ** What [_prepare] leaves in the cache *)

Section PrepareFacts.
Import DeviceGreen.
Context {T energy kpoint sparse : Type}.
Context `{TileOps T} `{Numerics energy kpoint} `{SparseOps T energy sparse}.

Abbreviation device := (@device T energy kpoint sparse).
Abbreviation state := (@state T energy kpoint).
Abbreviation electrode := (@electrode T energy kpoint).

(** The electrode loop of [_prepare] does not touch the cache, and the
    Γ it collects are images of [se2scat]. *)
Lemma prepare_loop_facts (P : T → Prop) (els : list electrode) E k
    (acc : sparse * list T) (st st' : state) r :
  forS els acc (fun elec '(inv_G, gamma) =>
      bind (call_self_energy elec E k) (fun SE =>
      ret (sp_isub inv_G (pvt_dev elec) SE,
           gamma ++ [se2scat elec SE]))) st = (r, st') →
  data st' = data st
  ∧ (Forall (fun el => ∀ t, P (se2scat el t)) els → Forall P acc.2 →
     ∀ inv_G gamma, r = Ok (inv_G, gamma) → Forall P gamma).
Proof.
  revert acc st. induction els as [|el els IH]; intros [inv_G gamma] st; simpl.
  - unfold ret. intros [= <- <-]. split; [done|].
    by intros _ Hacc ?? [= <- <-].
  - unfold bind at 1. unfold bind at 1. unfold call_self_energy at 1.
    destruct (self_energy el E k) as [SE|e].
    + unfold ret at 1. intros [Hd Hg]%IH. split; [done|].
      intros Hels Hacc. apply Hg; simpl.
      * by eapply Forall_inv_tail.
      * apply Forall_app. split; [done|]. apply Forall_singleton.
        by apply (Forall_inv Hels).
    + intros [= <- <-]. split; [done|]. done.
Qed.

(** A run of the body of [_prepare] that returns leaves a prepared
    cache. *)
Lemma prepare_body_prepared (self : device) E k (st st1 : state) :
  _prepare_body self E k st = (Ok tt, st1) → prepared self (data st1).
Proof.
  unfold _prepare_body, bind, lift, modify_data.
  destruct (forS _ _ _ st) as [[[inv_G gamma]|e] st'] eqn:Hloop; [|done].
  destruct (decide (elecs self = [])); [done|].
  destruct (extract_tiles self inv_G) as [[[A B] C]|e] eqn:Hext; [|done].
  destruct (propagation_tiles _ A B C) as [[tX tY]|e] eqn:Hprop; [|done].
  intros [= <-]. simpl.
  apply extract_tiles_sound in Hext as (Hnb & HlA & HlB & HlC & HA & HB & HC).
  apply propagation_tiles_sound in Hprop; try done.
  unfold prepared. by exists gamma, A, B, C, tX, tY, E, (asarrayd k).
Qed.

(** A run of the body of [_prepare] that raises leaves [E] as it was. *)
Lemma prepare_body_raises (self : device) E k (st st1 : state) e :
  _prepare_body self E k st = (Err e, st1) →
  d_E (data st1) = d_E (data st).
Proof.
  unfold _prepare_body, bind, lift, modify_data.
  destruct (forS _ _ _ st) as [[[inv_G gamma]|e'] st'] eqn:Hloop.
  - apply (prepare_loop_facts (fun _ => True)) in Hloop as [Hd _].
    destruct (decide (elecs self = [])); [intros [= <- <-]; by rewrite Hd|].
    destruct (extract_tiles self inv_G) as [[[A B] C]|e'];
      [|intros [= <- <-]; simpl; by rewrite Hd].
    destruct (propagation_tiles _ A B C) as [[tX tY]|e'];
      [done|intros [= <- <-]; simpl; by rewrite Hd].
  - apply (prepare_loop_facts (fun _ => True)) in Hloop as [Hd _].
    intros [= <- <-]. by rewrite Hd.
Qed.

(** [_prepare] keeps the invariant of the cache, and a call that returns
    leaves a prepared cache. *)
Lemma prepare_wf (self : device) E k (st st1 : state) r :
  cache_wf self (data st) →
  _prepare self E k st = (r, st1) →
  cache_wf self (data st1) ∧ (r = Ok tt → prepared self (data st1)).
Proof.
  intros Hwf. unfold _prepare, bind at 1.
  destruct (check_Ek_cases E k st)
    as [(E0 & k0 & HE & Hk & _ & _ & ->)|[[e ->]| ->]].
  - intros [= <- <-]. split; [done|]. intros _.
    destruct Hwf as [Hnone|Hp]; [congruence|done].
  - intros [= <- <-]. split; [done|]. done.
  - destruct r as [[]|e].
    + intros Hp%prepare_body_prepared. split; [by right|done].
    + intros Hp%prepare_body_raises. split; [by left|done].
Qed.

(** When every electrode's [se2scat] yields Hermitian matrices, every Γ
    that [_prepare] stores is Hermitian. *)
Lemma prepare_gamma_hermitian (self : device) E k (st st1 : state) r :
  Forall (fun el => ∀ t, dagger (se2scat el t) = se2scat el t) (elecs self) →
  gamma_hermitian (data st) →
  _prepare self E k st = (r, st1) →
  gamma_hermitian (data st1).
Proof.
  intros Hels Hg. unfold _prepare, bind at 1.
  destruct (check_Ek_cases E k st)
    as [(E0 & k0 & HE & Hk & _ & _ & ->)|[[e ->]| ->]].
  - by intros [= <- <-].
  - by intros [= <- <-].
  - unfold _prepare_body, bind, lift, modify_data.
    destruct (forS _ _ _ _) as [[[inv_G gamma]|e'] st'] eqn:Hloop.
    + apply (prepare_loop_facts (fun g => dagger g = g)) in Hloop
        as [Hd Hgam].
      assert (Hgamma : Forall (fun g => dagger g = g) gamma).
      { by eapply Hgam. }
      destruct (decide (elecs self = []));
        [intros [= <- <-]; unfold gamma_hermitian; by rewrite Hd|].
      destruct (extract_tiles self inv_G) as [[[A B] C]|e'];
        [|intros [= <- <-]; unfold gamma_hermitian; simpl; congruence].
      destruct (propagation_tiles _ A B C) as [[tX tY]|e'];
        intros [= <- <-]; unfold gamma_hermitian; simpl; congruence.
    + apply (prepare_loop_facts (fun _ => True)) in Hloop as [Hd _].
      intros [= <- <-]. unfold gamma_hermitian. by rewrite Hd.
Qed.

(** C4.  After a call [_prepare(E, k)] that returns, the device has
    B = nb ≥ 2 blocks and the cached propagation tiles are arrays that
    satisfy the recurrences, every inverse in them existing:
    tY[1] = A[0]⁻¹·C[1], tY[n] = (A[n−1] − B[n−2]·tY[n−1])⁻¹·C[n] for
    n = 2 … nb−1, tX[nb−2] = A[nb−1]⁻¹·B[nb−2] and
    tX[p] = (A[p+1] − C[p+2]·tX[p+1])⁻¹·B[p] for p = nb−3 … 0.
    (Conversely [propagation_tiles_complete]: the recurrences are
    computed to the end whenever no matrix to invert is singular.) *)
Theorem prepare_tiles_satisfy_recurrences (self : device) (E : energy)
    (k : kpoint) (st st1 : state) :
  cache_wf self (data st) →
  _prepare self E k st = (Ok tt, st1) →
  let nb := length (btd self) in
  ∃ A B C tX tY,
    d_A (data st1) = Some A ∧ d_B (data st1) = Some B
    ∧ d_C (data st1) = Some C
    ∧ d_tX (data st1) = Some tX ∧ d_tY (data st1) = Some tY
    ∧ 2 ≤ nb
    ∧ (∀ n, 1 ≤ n < nb → is_Some (arr_at tY n))
    ∧ (∀ p, p + 1 < nb → is_Some (arr_at tX p))
    ∧ arr_at tY 1
      = (a ← arr_at A 0; c ← arr_at C 1; i ← tinv a; Some (tmul i c))
    ∧ (∀ n, 2 ≤ n < nb →
        arr_at tY n
        = (a ← arr_at A (n - 1); b ← arr_at B (n - 2);
           y ← arr_at tY (n - 1); c ← arr_at C n;
           i ← tinv (tsub a (tmul b y)); Some (tmul i c)))
    ∧ arr_at tX (nb - 2)
      = (a ← arr_at A (nb - 1); b ← arr_at B (nb - 2); i ← tinv a;
         Some (tmul i b))
    ∧ (∀ p, p + 2 < nb →
        arr_at tX p
        = (a ← arr_at A (p + 1); c ← arr_at C (p + 2);
           x ← arr_at tX (p + 1); b ← arr_at B p;
           i ← tinv (tsub a (tmul c x)); Some (tmul i b))).
Proof.
  intros Hwf Hrun nb.
  destruct (prepare_wf self E k st st1 (Ok tt) Hwf Hrun) as [_ Hp].
  destruct (Hp eq_refl)
    as (gamma & A & B & C & tX & tY & E' & k' & -> & Htp).
  destruct Htp. fold nb in tp_nb0, tp_tY0, tp_tX0.
  exists A, B, C, tX, tY. simpl.
  repeat (split; [done|]).
  split; [intros n Hn; by apply tp_tY0|].
  split; [intros p Hp'; by apply tp_tX0|].
  split; [|split; [|split]].
  - destruct (tp_tY0 1) as [_ ->]; [lia|]. apply tY_spec_first.
  - intros n Hn. destruct (tp_tY0 n) as [_ ->]; [lia|].
    destruct (tp_tY0 (n - 1)) as [_ ->]; [lia|]. apply tY_spec_step. lia.
  - destruct (tp_tX0 (nb - 2)) as [_ ->]; [lia|]. by apply tX_spec_last.
  - intros p Hp'. destruct (tp_tX0 p) as [_ ->]; [lia|].
    destruct (tp_tX0 (p + 1)) as [_ ->]; [lia|]. apply tX_spec_step. lia.
Qed.

End PrepareFacts.

(** ** The Green function: dense against block-tridiagonal *)

Lemma forM_range_rel {S1 S2 : Type} (body1 : nat → S1 → result S1)
    (body2 : nat → S2 → result S2) (Rel : nat → S1 → S2 → Prop)
    (lo hi : nat) (s1 : S1) (s2 : S2) :
  lo ≤ hi → Rel lo s1 s2 →
  (∀ n s1 s2, lo ≤ n < hi → Rel n s1 s2 →
     res_rel (Rel (n + 1)) (body1 n s1) (body2 n s2)) →
  res_rel (Rel hi) (forM (range lo hi) s1 body1) (forM (range lo hi) s2 body2).
Proof.
  unfold range. intros Hle. remember (hi - lo) as len eqn:Hlen.
  revert lo s1 s2 Hle Hlen.
  induction len as [|len IH]; intros lo s1 s2 Hle Hlen Hs Hstep; simpl.
  - by replace hi with lo by lia.
  - pose proof (Hstep lo s1 s2 ltac:(lia) Hs) as Hb.
    destruct (body1 lo s1) as [t1|e1], (body2 lo s2) as [t2|e2];
      simpl in *; try done.
    apply IH; [lia|lia| |].
    + by replace (S lo) with (lo + 1) by lia.
    + intros n u1 u2 Hn. apply Hstep. lia.
Qed.

Lemma res_rel_mono {A B : Type} (R1 R2 : A → B → Prop) (r1 : result A)
    (r2 : result B) :
  (∀ a b, R1 a b → R2 a b) → res_rel R1 r1 r2 → res_rel R2 r1 r2.
Proof. intros HR. destruct r1, r2; simpl; auto. Qed.

Section GreenFacts.
Import DeviceGreen.
Context {T energy kpoint sparse : Type}.
Context `{TileOps T} `{Numerics energy kpoint} `{SparseOps T energy sparse}.

Abbreviation device := (@device T energy kpoint sparse).
Abbreviation state := (@state T energy kpoint).
Abbreviation dense := (gmap (nat * nat) T).

Section Tiles.
Variables (nb : nat) (A B C tX tY : list (slot T)).
Hypothesis Htp : tiles_prepared nb A B C tX tY.

Lemma getarr_tY (n : nat) : 1 ≤ n < nb → ∃ y, getarr tY n = Ok y.
Proof.
  intros Hn. destruct (tp_tY _ _ _ _ _ _ Htp n Hn) as [[y Hy] _].
  exists y. by apply getarr_arr.
Qed.

Lemma getarr_tX (p : nat) : p + 1 < nb → ∃ x, getarr tX p = Ok x.
Proof.
  intros Hp. destruct (tp_tX _ _ _ _ _ _ Htp p Hp) as [[x Hx] _].
  exists x. by apply getarr_arr.
Qed.

(** On a prepared cache the diagonal tile is computed unless the matrix
    to invert is singular. *)
Lemma diag_tile_prepared (b : nat) :
  b < nb →
  (∃ g, diag_tile nb A B C tX tY b = Ok g)
  ∨ diag_tile nb A B C tX tY b = Err LinAlgError.
Proof.
  intros Hb. pose proof (tp_nb _ _ _ _ _ _ Htp) as Hnb.
  unfold diag_tile, inv_destroy.
  destruct (tp_A _ _ _ _ _ _ Htp b Hb) as [a Ha].
  rewrite (getarr_arr _ _ _ Ha). simpl.
  destruct (decide (b = 0)) as [->|Hb0].
  - destruct (tp_C _ _ _ _ _ _ Htp 1) as [c Hc]; [lia|].
    destruct (getarr_tX 0) as [x Hx]; [lia|].
    simpl. rewrite (getarr_arr _ _ _ Hc), Hx. simpl.
    destruct (tinv _); eauto.
  - destruct (tp_B _ _ _ _ _ _ Htp (b - 1)) as [b1 Hb1]; [lia|].
    destruct (getarr_tY b) as [y Hy]; [lia|].
    rewrite (getarr_arr _ _ _ Hb1), Hy. simpl.
    destruct (decide (b = nb - 1)) as [->|Hbl].
    + destruct (tinv _); eauto.
    + destruct (tp_C _ _ _ _ _ _ Htp (b + 1)) as [c Hc]; [lia|].
      destruct (getarr_tX b) as [x Hx]; [lia|].
      rewrite (getarr_arr _ _ _ Hc), Hx. simpl.
      destruct (tinv _); eauto.
Qed.

(** The loop "Do above" of [_green_array] in column [b], entered with
    [slp] = [m]. *)
Lemma green_array_above (b m : nat) (G : dense) :
  m ≤ b → b < nb → is_Some (G !! (m, b)) →
  ∃ G' s,
    forM (rev (seq 0 m)) (G, m) (fun a '(G, slp) =>
      y ← getarr tY (a + 1);
      g ← dget G slp b;
      Ok (<[(a, b) := tmul (tneg y) g]> G, a)) = Ok (G', s)
    ∧ (∀ i j, ¬ (j = b ∧ i < m) → G' !! (i, j) = G !! (i, j))
    ∧ (∀ y t, 0 < m → getarr tY m = Ok y → G !! (m, b) = Some t →
         G' !! (m - 1, b) = Some (tmul (tneg y) t)).
Proof.
  revert G. induction m as [|m IH]; intros G Hm Hb [t Ht].
  - exists G, 0. simpl. split; [done|]. split; [done|]. intros; lia.
  - rewrite seq_S, rev_app_distr. simpl.
    destruct (getarr_tY (m + 1)) as [y Hy]; [lia|].
    assert (Hd : dget G (S m) b = Ok t) by (unfold dget; by rewrite Ht).
    rewrite Hy. simpl. rewrite Hd. simpl.
    destruct (IH (<[(m, b) := tmul (tneg y) t]> G)) as (G' & s & Hrun & Hfr & _);
      [lia|done|by rewrite lookup_insert_eq|].
    exists G', s. split; [done|]. split.
    + intros i j Hij. rewrite Hfr by (intros [??]; apply Hij; split; [done|lia]).
      apply lookup_insert_ne. intros [= <- <-]. apply Hij. split; [done|lia].
    + intros y' t' _ Hy' Ht'. simpl. rewrite Nat.sub_0_r.
      rewrite Hfr by lia. rewrite lookup_insert_eq.
      replace (m + 1) with (S m) in Hy by lia. congruence.
Qed.

(** The loop "Do below" of [_green_array] in column [b], entered with
    [slp] = [a0 - 1]. *)
Lemma green_array_below (b len a0 : nat) (G : dense) :
  1 ≤ a0 → a0 + len ≤ nb → is_Some (G !! (a0 - 1, b)) →
  ∃ G' s,
    forM (seq a0 len) (G, a0 - 1) (fun a '(G, slp) =>
      x ← getarr tX (a - 1);
      g ← dget G slp b;
      Ok (<[(a, b) := tmul (tneg x) g]> G, a)) = Ok (G', s)
    ∧ (∀ i j, ¬ (j = b ∧ a0 ≤ i) → G' !! (i, j) = G !! (i, j))
    ∧ (∀ x t, 0 < len → getarr tX (a0 - 1) = Ok x →
         G !! (a0 - 1, b) = Some t →
         G' !! (a0, b) = Some (tmul (tneg x) t)).
Proof.
  revert a0 G. induction len as [|len IH]; intros a0 G Ha0 Hlen [t Ht].
  - exists G, (a0 - 1). simpl. split; [done|]. split; [done|]. intros; lia.
  - simpl.
    destruct (getarr_tX (a0 - 1)) as [x Hx]; [lia|].
    assert (Hd : dget G (a0 - 1) b = Ok t) by (unfold dget; by rewrite Ht).
    rewrite Hx. simpl. rewrite Hd. simpl.
    destruct (IH (S a0) (<[(a0, b) := tmul (tneg x) t]> G))
      as (G' & s & Hrun & Hfr & _); [lia|lia| |].
    { rewrite Nat.sub_succ, Nat.sub_0_r. by rewrite lookup_insert_eq. }
    rewrite Nat.sub_succ, Nat.sub_0_r in Hrun.
    exists G', s. split; [done|]. split.
    + intros i j Hij. rewrite Hfr by (intros [??]; apply Hij; split; [done|lia]).
      apply lookup_insert_ne. intros [= <- <-]. apply Hij. split; [done|lia].
    + intros x' t' _ Hx' Ht'.
      rewrite Hfr by lia. rewrite lookup_insert_eq. congruence.
Qed.

(** One column: the two methods fail alike or store the same tiles of
    the pattern. *)
Lemma green_column_rel (b : nat) (G : dense) (Gb : BlockMatrix.t T) :
  b < nb →
  same_tridiagonal nb b G Gb →
  res_rel (fun G' Gb' =>
      BlockMatrix.blocks Gb' = BlockMatrix.blocks Gb
      ∧ same_tridiagonal nb (b + 1) G' Gb')
    (green_array_column nb A B C tX tY b G)
    (green_btd_column nb A B C tX tY b Gb).
Proof.
  intros Hb Hrel. unfold green_array_column, green_btd_column.
  destruct (diag_tile_prepared b Hb) as [[g ->]| ->]; [|done]. simpl.
  replace (range 0 b) with (seq 0 b) by (unfold range; f_equal; lia).
  destruct (green_array_above b b (<[(b, b) := g]> G))
    as (G1 & s1 & -> & Hfr1 & Hab); [lia|done|by rewrite lookup_insert_eq|].
  simpl.
  assert (HG1 : G1 !! (b, b) = Some g).
  { rewrite Hfr1 by lia. by rewrite lookup_insert_eq. }
  unfold range.
  destruct (green_array_below b (nb - (b + 1)) (b + 1) G1)
    as (G2 & s2 & Hrun2 & Hfr2 & Hbe); [lia|lia| |].
  { replace (b + 1 - 1) with b by lia. by rewrite HG1. }
  replace (b + 1 - 1) with b in Hrun2, Hbe by lia.
  rewrite Hrun2. simpl.
  assert (Hcells :
    G2 !! (b, b) = Some g
    ∧ (∀ y, 0 < b → getarr tY b = Ok y →
         G2 !! (b - 1, b) = Some (tmul (tneg y) g))
    ∧ (∀ x, b + 1 < nb → getarr tX b = Ok x →
         G2 !! (b + 1, b) = Some (tmul (tneg x) g))
    ∧ ∀ i j, j ≠ b → G2 !! (i, j) = G !! (i, j)).
  { split; [by rewrite Hfr2 by lia|]. split; [|split].
    - intros y Hb0 Hy. rewrite Hfr2 by lia. apply Hab; [done..|].
      by rewrite lookup_insert_eq.
    - intros x Hb1 Hx. apply Hbe; [lia|done..].
    - intros i j Hj. rewrite Hfr2, Hfr1 by lia.
      apply lookup_insert_ne. congruence. }
  clear Hrun2 Hfr1 Hfr2 Hab Hbe HG1.
  destruct Hcells as (Hbb & Hup & Hdn & Hfr).
  assert (Hfin : ∀ Gb', 
    BlockMatrix.blocks Gb' = BlockMatrix.blocks Gb →
    BlockMatrix._M Gb' !! (b, b) = Some g →
    (∀ y, 0 < b → getarr tY b = Ok y →
       BlockMatrix._M Gb' !! (b - 1, b) = Some (tmul (tneg y) g)) →
    (∀ x, b + 1 < nb → getarr tX b = Ok x →
       BlockMatrix._M Gb' !! (b + 1, b) = Some (tmul (tneg x) g)) →
    (∀ i j, j ≠ b →
       BlockMatrix._M Gb' !! (i, j) = BlockMatrix._M Gb !! (i, j)) →
    BlockMatrix.blocks Gb' = BlockMatrix.blocks Gb
    ∧ same_tridiagonal nb (b + 1) G2 Gb').
  { intros Gb' Hbl Hbb' Hup' Hdn' Hfr'. split; [done|].
    intros i j Hi Hj [Hij1 Hij2].
    destruct (decide (j = b)) as [->|Hne].
    - assert (i = b ∨ (0 < b ∧ i = b - 1) ∨ i = b + 1) as [->|[[Hb0 ->]| ->]]
        by lia.
      + eauto.
      + destruct (getarr_tY b) as [y Hy]; [lia|]. eauto.
      + destruct (getarr_tX b) as [x Hx]; [lia|]. eauto.
    - rewrite Hfr, Hfr' by done. apply Hrel; [done|lia|done]. }
  destruct (decide (0 < b)) as [Hb0|Hb0];
    [destruct (getarr_tY b) as [y Hy]; [lia|]; rewrite Hy|];
    (destruct (decide (b < nb - 1)) as [Hb1|Hb1];
     [destruct (getarr_tX b) as [x Hx]; [lia|]; rewrite Hx|]);
    simpl;
    match goal with |- _ ∧ same_tridiagonal _ _ _ ?g => apply (Hfin g) end;
    simpl; try done; intros; try lia;
    repeat first
      [ rewrite lookup_insert_eq
      | rewrite lookup_insert_ne
          by (let Heq := fresh in intros Heq; injection Heq; intros; lia) ];
    congruence.
Qed.

End Tiles.

(** [toarray] returns the dense array whose block (i, j) is what
    [__getitem__] answers for (i, j). *)
Lemma toarray_lookup (Gb : BlockMatrix.t T) :
  1 ≤ BlockMatrix.len Gb →
  ∃ D, BlockMatrix.toarray Gb = Ok D
    ∧ ∀ i j, i < BlockMatrix.len Gb → j < BlockMatrix.len Gb →
        ∃ v, BlockMatrix.getitem Gb (i, j) = Ok v ∧ D !! (i, j) = Some v.
Proof.
  intros Hlen. unfold BlockMatrix.toarray. set (nb := BlockMatrix.len Gb).
  fold nb in Hlen. rewrite decide_False by lia.
  assert (Hget : ∀ i j, i < nb → j < nb →
    ∃ v, BlockMatrix.getitem Gb (i, j) = Ok v).
  { intros i j Hi Hj. unfold BlockMatrix.getitem.
    destruct (BlockMatrix._M Gb !! (i, j)); [by eauto|].
    destruct (index_lt (BlockMatrix.blocks Gb) i Hi) as (bi & -> & _).
    destruct (index_lt (BlockMatrix.blocks Gb) j Hj) as (bj & -> & _).
    simpl. eauto. }
  destruct (forM_range_complete
    (fun j arr => forM (range 0 nb) arr (fun i arr =>
       v ← BlockMatrix.getitem Gb (i, j); Ok (<[(i, j) := v]> arr)))
    (fun n (arr : dense) => ∀ i j, i < nb → j < n →
       ∃ v, BlockMatrix.getitem Gb (i, j) = Ok v ∧ arr !! (i, j) = Some v)
    0 nb ∅) as (D & HD & Hinv); [lia|intros; lia| |by eauto].
  intros j arr Hj Hinv.
  destruct (forM_range_complete
    (fun i arr => v ← BlockMatrix.getitem Gb (i, j); Ok (<[(i, j) := v]> arr))
    (fun n (arr' : dense) =>
       (∀ i, i < n → ∃ v, BlockMatrix.getitem Gb (i, j) = Ok v
                        ∧ arr' !! (i, j) = Some v)
       ∧ ∀ i j', j' ≠ j → arr' !! (i, j') = arr !! (i, j'))
    0 nb arr) as (arr' & Harr' & Hcol & Hfr); [lia|split; [intros; lia|done]| |].
  - intros i arr1 Hi [Hcol Hfr].
    destruct (Hget i j) as [v Hv]; [lia..|]. rewrite Hv. simpl.
    eexists. split; [done|]. split.
    + intros i' Hi'. destruct (decide (i' = i)) as [->|Hne].
      * exists v. by rewrite lookup_insert_eq.
      * destruct (Hcol i') as (v' & Hv' & Hl); [lia|]. exists v'.
        split; [done|]. rewrite lookup_insert_ne; [done|congruence].
    + intros i' j' Hj'. rewrite lookup_insert_ne; [by apply Hfr|congruence].
  - exists arr'. split; [done|]. intros i j' Hi Hj'.
    destruct (decide (j' = j)) as [->|Hne]; [by apply Hcol|].
    rewrite Hfr by done. apply Hinv; lia.
Qed.

(** On a prepared cache [_green_array] and [_green_btd] raise the same
    exception, or return matrices that agree on the block-tridiagonal
    pattern. *)
Lemma green_array_btd_prepared (self : device) (d : cache) :
  prepared self d →
  res_rel (fun (G : dense) (Gb : BlockMatrix.t T) =>
      BlockMatrix.blocks Gb = btd self
      ∧ same_tridiagonal (length (btd self)) (length (btd self)) G Gb)
    (_green_array self d) (_green_btd self d).
Proof.
  intros (gamma & A & B & C & tX & tY & E & k & -> & Htp).
  pose proof (tp_nb _ _ _ _ _ _ Htp) as Hnb.
  unfold _green_array, _green_btd. simpl.
  destruct (index_lt A 0) as (a0 & -> & _);
    [rewrite (tp_len_A _ _ _ _ _ _ Htp); lia|]. simpl.
  unfold BlockMatrix.len at 1. simpl.
  apply (forM_range_rel _ _ (fun n G Gb =>
    BlockMatrix.blocks Gb = btd self
    ∧ same_tridiagonal (length (btd self)) n G Gb)); [lia| |].
  - split; [done|]. intros i j _ Hj. lia.
  - intros b G Gb Hb [Hbl Hrel].
    eapply res_rel_mono; [|apply (green_column_rel _ _ _ _ _ _ Htp); [lia|done]].
    simpl. intros G' Gb' [Hbl' Hrel']. split; [congruence|done].
Qed.

(** C3.  For every (E, k), started from the same state,
    [green(E, k, format='array')] and [green(E, k, format='btd')] leave
    the same state and either raise the same exception or return a
    dense array G and a block matrix Gb such that [Gb.toarray()] is
    defined and equals G on every block (i, j) with |i − j| ≤ 1. *)
Theorem green_array_btd_agree (self : device) (E : energy) (k : kpoint)
    (st : state) :
  cache_wf self (data st) →
  let nb := length (btd self) in
  let r1 := green self E k "array" st in
  let r2 := green self E k "btd" st in
  r1.2 = r2.2
  ∧ res_rel (fun g1 g2 =>
        ∃ G Gb D,
          g1 = GArray G ∧ g2 = GBlock Gb
          ∧ BlockMatrix.toarray Gb = Ok D
          ∧ ∀ i j, i < nb → j < nb → tridiagonal i j →
              is_Some (G !! (i, j)) ∧ G !! (i, j) = D !! (i, j))
      r1.1 r2.1.
Proof.
  intros Hwf nb r1 r2. subst r1 r2. unfold green, bind, get_data, lift.
  destruct (_prepare self E k st) as [[[]|e] st1] eqn:Hprep; [|done].
  destruct (prepare_wf self E k st st1 _ Hwf Hprep) as [_ Hp].
  specialize (Hp eq_refl). simpl. split; [done|].
  pose proof (green_array_btd_prepared self (data st1) Hp) as Hrel.
  unfold res_rel in *.
  destruct (_green_array self (data st1)) as [G|e1],
    (_green_btd self (data st1)) as [Gb|e2]; simpl; try done.
  destruct Hrel as [Hbl Hrel].
  assert (Hlen : 1 ≤ BlockMatrix.len Gb).
  { destruct Hp as (? & ? & ? & ? & ? & ? & ? & ? & _ & Htp).
    pose proof (tp_nb _ _ _ _ _ _ Htp). unfold BlockMatrix.len.
    rewrite Hbl. lia. }
  destruct (toarray_lookup Gb Hlen) as (D & HD & Hcells).
  exists G, Gb, D. repeat (split; [done|]).
  intros i j Hi Hj Htri.
  destruct (Hrel i j Hi Hj Htri) as (t & HG & HGb).
  destruct (Hcells i j) as (v & Hv & HDv);
    [unfold BlockMatrix.len; rewrite Hbl; done..|].
  unfold BlockMatrix.getitem in Hv. rewrite HGb in Hv.
  split; [by eauto|]. congruence.
Qed.

End GreenFacts.

(** ** The reduction of the scattering states *)

Lemma mapM_index_all {A : Type} (l : list A) (idx : list nat) :
  Forall (fun i => i < length l) idx →
  ∃ vals, mapM (index l) idx = Ok vals
    ∧ Forall2 (fun i v => l !! i = Some v) idx vals.
Proof.
  induction 1 as [|i idx Hi _ (vals & Hvals & Hall)]; simpl.
  - by exists [].
  - destruct (index_lt l i Hi) as (v & Hv & Hl).
    exists (v :: vals). rewrite Hv. simpl. rewrite Hvals. simpl.
    split; [done|]. by constructor.
Qed.

Section ReduceFacts.
Import DeviceGreen.
Context {T energy kpoint R : Type}.
Context `{TileOps T} `{RealOps R}.

(** [idx[idx1]] for the positions [idx1] at which the mask holds keeps
    the entries of [idx] that satisfy it, in their order. *)
Lemma select_nonzero (DOS : list R) (f : R → bool) (pre idx : list nat)
    (vals : list R) :
  Forall2 (fun i v => DOS !! i = Some v) idx vals →
  mapM (index (pre ++ idx)) (nonzero_from (length pre) (f <$> vals))
  = Ok (filter (fun i => dos_test DOS f i = true) idx).
Proof.
  intros Hall. revert pre.
  induction Hall as [|i v idx vals Hv _ IH]; intros pre; simpl; [done|].
  specialize (IH (pre ++ [i])).
  rewrite length_app, Nat.add_1_r, <-app_assoc in IH. simpl in IH.
  assert (Ht : dos_test DOS f i = f v) by (unfold dos_test; by rewrite Hv).
  rewrite filter_cons.
  destruct (f v) eqn:Hf; simpl.
  - rewrite decide_True by done.
    assert (Hi : index (pre ++ i :: idx) (length pre) = Ok i)
      by (unfold index; by rewrite list_lookup_middle).
    rewrite Hi. simpl. change (list_fmap R bool f vals) with (f <$> vals).
    by rewrite IH.
  - rewrite decide_False by (rewrite Ht; done).
    change (list_fmap R bool f vals) with (f <$> vals). done.
Qed.

(** C6.  [_scattering_state_reduce] (which each of the three
    scattering-state methods applies to its DOS and states) takes
    [top], the first N_e positions of the DOS in descending order of the
    signed value, N_e being the number of rows of Γ_e: [top] has
    min(N_e, len(DOS)) distinct positions, is ordered by descending DOS,
    and no position outside it has a larger DOS than one inside.  With
    [cutoff > 0] it keeps of [top], in the same order, exactly the
    positions with |DOS| ≥ cutoff (so a position of [top] with a large
    negative DOS stays); otherwise it keeps [top].  The returned DOS and
    states are those at the kept positions. *)
Theorem scattering_state_reduce_keeps_largest
    (d : @cache T energy kpoint) (elec : @elec_arg T energy kpoint)
    (DOS : list R) (U : T) (cutoff : R) (gamma : list T) (Gam : T) :
  RealLaws R →
  d_gamma d = Some gamma →
  list_getitem gamma elec = Ok Gam →
  let N := tlen Gam in
  let top := take N (argsort (rneg <$> DOS)) in
  let large := fun v => rleb cutoff (rfabs v) in
  let idx :=
    if rltb rzero cutoff
    then filter (fun i => dos_test DOS large i = true) top
    else top in
  (∃ dos,
      _scattering_state_reduce d elec DOS U (CNum cutoff)
      = Ok (dos, takecols U idx)
      ∧ Forall2 (fun i v => DOS !! i = Some v) idx dos)
  ∧ length top = min N (length DOS)
  ∧ NoDup top
  ∧ (∀ p q a b, p ≤ q → top !! p = Some a → top !! q = Some b →
       ∃ x y, DOS !! a = Some x ∧ DOS !! b = Some y ∧ rleb y x = true)
  ∧ (∀ i j, i ∈ top → j < length DOS → j ∉ top →
       ∃ x y, DOS !! i = Some x ∧ DOS !! j = Some y ∧ rleb y x = true)
  ∧ (rltb rzero cutoff = true →
       ∀ i, i ∈ idx ↔
         i ∈ top ∧ ∃ v, DOS !! i = Some v ∧ rleb cutoff (rfabs v) = true)
  ∧ (rltb rzero cutoff = false → idx = top).
Proof.
  intros Hlaws Hgamma Hget N top large idx.
  set (srt := argsort (rneg <$> DOS)) in *.
  assert (Hperm : srt ≡ₚ seq 0 (length DOS)).
  { unfold srt. rewrite argsort_perm. by rewrite length_fmap. }
  assert (Hsrt_lt : ∀ i, i ∈ srt → i < length DOS).
  { intros i Hi. rewrite Hperm in Hi. apply elem_of_seq in Hi. lia. }
  assert (Htop_sub : ∀ i, i ∈ top → i ∈ srt).
  { intros i Hi. apply elem_of_take in Hi as (p & Hp & _).
    by eapply list_elem_of_lookup_2. }
  assert (Hsorted : ∀ p q a b, p ≤ q → srt !! p = Some a → srt !! q = Some b →
    ∃ x y, DOS !! a = Some x ∧ DOS !! b = Some y ∧ rleb y x = true).
  { intros p q a b Hpq Ha Hb.
    destruct (argsort_sorted (rneg <$> DOS) p q a b Hpq Ha Hb)
      as (x & y & Hx & Hy & Hle).
    rewrite list_lookup_fmap in Hx, Hy.
    apply fmap_Some in Hx as (xa & Hxa & ->).
    apply fmap_Some in Hy as (xb & Hxb & ->).
    exists xa, xb. rewrite rneg_antitone in Hle. done. }
  assert (Hidx_lt : Forall (fun i => i < length DOS) idx).
  { apply Forall_forall. intros i Hi. apply Hsrt_lt, Htop_sub.
    unfold idx in Hi. destruct (rltb rzero cutoff); [|done].
    by apply list_elem_of_filter in Hi as [_ Hi]. }
  split; [|split; [|split; [|split; [|split; [|split]]]]].
  - destruct (mapM_index_all DOS idx Hidx_lt) as (dos & Hdos & Hall).
    exists dos. split; [|done].
    unfold _scattering_state_reduce. rewrite Hgamma. simpl. rewrite Hget.
    simpl. fold N. fold srt. fold top. unfold idx in *. clear idx.
    destruct (rltb rzero cutoff) eqn:Hcut.
    + destruct (mapM_index_all DOS top) as (vals & Hvals & Hall').
      { apply Forall_forall. intros i Hi. by apply Hsrt_lt, Htop_sub. }
      rewrite Hvals. simpl. unfold nonzero.
      pose proof (select_nonzero DOS large [] top vals Hall') as Hsel.
      simpl in Hsel. unfold large in Hsel at 1. rewrite Hsel. simpl.
      by rewrite Hdos.
    + simpl. by rewrite Hdos.
  - unfold top. rewrite length_take. f_equal.
    by rewrite Hperm, length_seq.
  - assert (NoDup srt) by (rewrite Hperm; apply NoDup_seq).
    eapply sublist_NoDup; [done|apply sublist_take].
  - intros p q a b Hpq Ha Hb.
    apply lookup_take_Some in Ha as [Ha _].
    apply lookup_take_Some in Hb as [Hb _]. eauto.
  - intros i j Hi Hj Hnj.
    apply list_elem_of_lookup in Hi as [p Hp].
    apply lookup_take_Some in Hp as [Hp HpN].
    assert (j ∈ srt) as [q Hq]%list_elem_of_lookup.
    { rewrite Hperm. apply elem_of_seq. lia. }
    assert (N ≤ q).
    { destruct (decide (N ≤ q)); [done|]. exfalso. apply Hnj.
      apply list_elem_of_lookup. exists q. apply lookup_take_Some.
      split; [done|lia]. }
    apply (Hsorted p q i j); [lia|done..].
  - intros Hcut i. unfold idx. rewrite Hcut.
    rewrite list_elem_of_filter. unfold dos_test, large.
    split.
    + intros [Hkeep Hi]. split; [done|].
      destruct (DOS !! i) as [v|]; [by eauto|done].
    + intros [Hi (v & -> & Hv)]. done.
  - intros Hcut. unfold idx. by rewrite Hcut.
Qed.

End ReduceFacts.

(** ** Downfolding and the Schur complement *)

Section RingFacts.
Context {T : Type} `{RingLaws T}.

Lemma tadd_zero_r (a : T) : tadd a tzero = a.
Proof. by rewrite tadd_comm, tadd_zero_l. Qed.

Lemma tadd_neg_l (a : T) : tadd (tneg a) a = tzero.
Proof. by rewrite tadd_comm, tadd_neg_r. Qed.

Lemma tadd_cancel_l (a b c : T) : tadd a b = tadd a c → b = c.
Proof.
  intros Heq.
  rewrite <-(tadd_zero_l b), <-(tadd_zero_l c), <-(tadd_neg_l a).
  by rewrite !tadd_assoc, Heq.
Qed.

Lemma tneg_unique (a b : T) : tadd a b = tzero → b = tneg a.
Proof.
  intros Heq. apply (tadd_cancel_l a). by rewrite Heq, tadd_neg_r.
Qed.

Lemma tmul_zero_l (a : T) : tmul tzero a = tzero.
Proof.
  apply (tadd_cancel_l (tmul tzero a)).
  by rewrite <-tmul_add_r, tadd_zero_l, tadd_zero_r.
Qed.

Lemma tmul_zero_r (a : T) : tmul a tzero = tzero.
Proof.
  apply (tadd_cancel_l (tmul a tzero)).
  by rewrite <-tmul_add_l, tadd_zero_l, tadd_zero_r.
Qed.

Lemma tmul_opp_l (a b : T) : tmul (tneg a) b = tneg (tmul a b).
Proof.
  apply tneg_unique. by rewrite <-tmul_add_r, tadd_neg_r, tmul_zero_l.
Qed.

Lemma tmul_opp_r (a b : T) : tmul a (tneg b) = tneg (tmul a b).
Proof.
  apply tneg_unique. by rewrite <-tmul_add_l, tadd_neg_r, tmul_zero_r.
Qed.

Lemma tsum_ext (n : nat) (f g : nat → T) :
  (∀ k, k < n → f k = g k) → tsum n f = tsum n g.
Proof.
  induction n as [|n IH]; intros Hfg; simpl; [done|].
  rewrite IH, Hfg by (intros; auto with lia). done.
Qed.

Lemma tsum_zero (n : nat) (f : nat → T) :
  (∀ k, k < n → f k = tzero) → tsum n f = tzero.
Proof.
  induction n as [|n IH]; intros Hf; simpl; [done|].
  rewrite IH, Hf by (intros; auto with lia). apply tadd_zero_l.
Qed.

Lemma tsum_single (n k0 : nat) (f : nat → T) :
  k0 < n → (∀ k, k < n → k ≠ k0 → f k = tzero) → tsum n f = f k0.
Proof.
  induction n as [|n IH]; intros Hk Hf; simpl; [lia|].
  destruct (decide (k0 = n)) as [->|Hne].
  - rewrite tsum_zero by (intros; apply Hf; lia). apply tadd_zero_l.
  - rewrite IH by (try lia; intros; apply Hf; lia).
    rewrite (Hf n) by lia. apply tadd_zero_r.
Qed.

Lemma tsum_add (n : nat) (f g : nat → T) :
  tsum n (fun k => tadd (f k) (g k)) = tadd (tsum n f) (tsum n g).
Proof.
  induction n as [|n IH]; simpl; [by rewrite tadd_zero_l|].
  rewrite IH, !tadd_assoc. f_equal.
  rewrite <-!tadd_assoc. f_equal. apply tadd_comm.
Qed.

(** A sum whose terms vanish away from i−1, i, i+1. *)
Lemma tsum_tridiagonal (n i : nat) (f : nat → T) :
  i < n →
  (∀ k, k < n → k + 1 < i ∨ i + 1 < k → f k = tzero) →
  tsum n f
  = tadd (tadd (if decide (0 < i) then f (i - 1) else tzero) (f i))
      (if decide (i + 1 < n) then f (i + 1) else tzero).
Proof.
  intros Hi Hf.
  rewrite (tsum_ext n f (fun k =>
    tadd (tadd (if decide (k + 1 = i) then f k else tzero)
               (if decide (k = i) then f k else tzero))
         (if decide (k = i + 1) then f k else tzero))).
  - rewrite !tsum_add. f_equal; [f_equal|].
    + destruct (decide (0 < i)).
      * rewrite (tsum_single n (i - 1)); [|lia|].
        -- by rewrite decide_True by lia.
        -- intros k _ Hk. by rewrite decide_False by lia.
      * apply tsum_zero. intros k _. by rewrite decide_False by lia.
    + rewrite (tsum_single n i); [|lia|].
      * by rewrite decide_True.
      * intros k _ Hk. by rewrite decide_False.
    + destruct (decide (i + 1 < n)).
      * rewrite (tsum_single n (i + 1)); [|lia|].
        -- by rewrite decide_True.
        -- intros k _ Hk. by rewrite decide_False.
      * apply tsum_zero. intros k Hk. by rewrite decide_False by lia.
  - intros k Hk.
    destruct (decide (k + 1 = i)), (decide (k = i)), (decide (k = i + 1));
      try lia; rewrite ?tadd_zero_l, ?tadd_zero_r; try done.
    apply Hf; lia.
Qed.

End RingFacts.

Section Elimination.
Context {T : Type} `{RingLaws T}.

Lemma Mr_spec_S (M : nat → nat → T) (b : nat) :
  Mr_spec M (S b)
  = (p ← pivot_spec M b; i ← tinv p;
     Some (SArr (tmul (M (b + 1) b) (tmul i (M b (b + 1)))))).
Proof.
  simpl. unfold pivot_spec. by destruct (Mr_spec M b) as [[|[]|]|].
Qed.

(** When the iteration reaches step n, every earlier pivot exists and
    is invertible. *)
Lemma Mr_spec_pivots (M : nat → nat → T) (n : nat) :
  is_Some (Mr_spec M n) →
  ∀ i, i < n →
    ∃ P Q, pivot_spec M i = Some P ∧ tinv P = Some Q
      ∧ Mr_spec M (S i)
        = Some (SArr (tmul (M (i + 1) i) (tmul Q (M i (i + 1))))).
Proof.
  induction n as [|n IH]; intros Hdef i Hi; [lia|].
  rewrite Mr_spec_S in Hdef.
  destruct (pivot_spec M n) as [P|] eqn:HP; simpl in Hdef;
    [|by destruct Hdef].
  destruct (tinv P) as [Q|] eqn:HQ; simpl in Hdef; [|by destruct Hdef].
  destruct (decide (i = n)) as [->|Hne].
  - exists P, Q. rewrite Mr_spec_S, HP. simpl. by rewrite HQ.
  - apply IH; [|lia]. unfold pivot_spec in HP.
    destruct (Mr_spec M n); [by eauto|done].
Qed.

Section Column.
Variables (n : nat) (M : nat → nat → T) (x : nat → T).
Hypothesis Hn : 1 ≤ n.
Hypothesis Hdef : is_Some (Mr_spec M n).
Hypothesis Htri : block_tridiagonal n M.
Hypothesis Hcol : ∀ i, i < n →
  tsum n (fun k => tmul (M i k) (x k))
  = if decide (i = n - 1) then tone else tzero.

(** Row i of the system, with the vanishing blocks dropped. *)
Lemma row_equation (i : nat) :
  i < n →
  tadd (tadd (if decide (0 < i) then tmul (M i (i - 1)) (x (i - 1))
              else tzero)
             (tmul (M i i) (x i)))
       (if decide (i + 1 < n) then tmul (M i (i + 1)) (x (i + 1))
        else tzero)
  = if decide (i = n - 1) then tone else tzero.
Proof.
  intros Hi. rewrite <-(Hcol i Hi).
  symmetry. apply (tsum_tridiagonal n i (fun k => tmul (M i k) (x k))); [done|].
  intros k Hk Hfar. rewrite (Htri i k) by lia. apply tmul_zero_l.
Qed.

(** Forward elimination: after eliminating the blocks before i, row i
    reads P_i·x_i + M[i,i+1]·x_{i+1} = δ. *)
Lemma eliminated_row (i : nat) :
  i < n →
  ∃ P Q, pivot_spec M i = Some P ∧ tinv P = Some Q
    ∧ tadd (tmul P (x i))
        (if decide (i + 1 < n) then tmul (M i (i + 1)) (x (i + 1))
         else tzero)
      = if decide (i = n - 1) then tone else tzero.
Proof.
  induction i as [|i IH]; intros Hi.
  - destruct (Mr_spec_pivots M n Hdef 0 Hi) as (P & Q & HP & HQ & _).
    exists P, Q. split; [done|]. split; [done|].
    assert (P = M 0 0) as -> by (unfold pivot_spec in HP; simpl in HP; congruence).
    pose proof (row_equation 0 Hi) as Hrow.
    rewrite decide_False in Hrow by lia. by rewrite tadd_zero_l in Hrow.
  - destruct IH as (P' & Q' & HP' & HQ' & Hprev); [lia|].
    rewrite decide_True, decide_False in Hprev by lia.
    destruct (Mr_spec_pivots M n Hdef i ltac:(lia)) as (P0 & Q0 & HP0 & HQ0 & Hmr).
    assert (P0 = P') as -> by congruence.
    assert (Q0 = Q') as -> by congruence.
    destruct (Mr_spec_pivots M n Hdef (S i) Hi) as (P & Q & HP & HQ & _).
    exists P, Q. split; [done|]. split; [done|].
    unfold pivot_spec in HP. rewrite Hmr in HP. simpl in HP.
    injection HP as <-.
    replace (i + 1) with (S i) in * by lia.
    (* x_i = −(Q'·(M[i,i+1]·x_{i+1})) *)
    assert (Hx : x i = tneg (tmul Q' (tmul (M i (S i)) (x (S i))))).
    { apply tneg_unique. rewrite tadd_comm.
      rewrite <-(tmul_one_l (x i)), <-(tinv_l P' Q' HQ').
      rewrite rmul_assoc, <-tmul_add_l, Hprev. apply tmul_zero_r. }
    pose proof (row_equation (S i) Hi) as Hrow.
    rewrite decide_True in Hrow by lia.
    replace (S i - 1) with i in Hrow by lia.
    rewrite <-Hrow. f_equal.
    rewrite tsub_def, tmul_add_r, tadd_comm. f_equal.
    rewrite tmul_opp_l, Hx, tmul_opp_r. f_equal.
    by rewrite !rmul_assoc.
Qed.

(** The last block of the column is the inverse of the last pivot. *)
Lemma last_block_is_inverse :
  ∃ P, pivot_spec M (n - 1) = Some P ∧ tinv P = Some (x (n - 1)).
Proof.
  destruct (eliminated_row (n - 1)) as (P & Q & HP & HQ & Hrow); [lia|].
  rewrite decide_False, decide_True in Hrow by lia.
  rewrite tadd_zero_r in Hrow.
  exists P. split; [done|]. rewrite HQ. f_equal.
  rewrite <-(tmul_one_r Q), <-Hrow, <-rmul_assoc, (tinv_l P Q HQ).
  by rewrite tmul_one_l.
Qed.

End Column.

(** The iteration computes the elimination term of the Schur
    complement: for a block-tridiagonal [M] and a right inverse [X] of
    its leading n×n blocks, [Mr] after n ≥ 1 steps is C·A⁻¹·B. *)
Lemma Mr_spec_is_schur_term (n : nat) (M X : nat → nat → T) (mr : T) :
  1 ≤ n →
  block_tridiagonal n M →
  right_inverse n M X →
  Mr_spec M n = Some (SArr mr) →
  mr = schur_term n M X.
Proof.
  intros Hn Htri Hinv Hmr.
  destruct (last_block_is_inverse n M (fun i => X i (n - 1)))
    as (P & HP & HQ); [done|by rewrite Hmr|done| |].
  { intros i Hi. rewrite (Hinv i (n - 1)) by lia. done. }
  replace n with (S (n - 1)) in Hmr at 1 by lia.
  rewrite Mr_spec_S, HP in Hmr. simpl in Hmr. rewrite HQ in Hmr.
  simpl in Hmr. replace (n - 1 + 1) with n in Hmr by lia.
  injection Hmr as <-.
  unfold schur_term.
  rewrite (tsum_single n (n - 1)); [|lia|].
  - rewrite (tsum_single n (n - 1)); [done|lia|].
    intros j Hj Hne. rewrite (Htri j n) by lia.
    by rewrite !tmul_zero_r.
  - intros i Hi Hne. apply tsum_zero. intros j Hj.
    rewrite (Htri n i) by lia. apply tmul_zero_l.
Qed.

End Elimination.

(** ** DownfoldSelfEnergy: the reduction loop *)

Section DownfoldFacts.
Import DownfoldSelfEnergy.
Context {T energy kpoint sparse : Type}.
Context `{TileOps T} `{TileRing T} `{Numerics energy kpoint}.
Context `{SparseOps T energy sparse}.

Abbreviation downfold := (@downfold T energy kpoint sparse).
Abbreviation pvt_of self b :=
  (slice (d_dev self) (default 0 (cumbtd self !! b))
     (default 0 (cumbtd self !! (b + 1)))).

Lemma Mr_spec_shape (M : nat → nat → T) (n : nat) (v : slot T) :
  Mr_spec M n = Some v → v = SInt 0 ∨ ∃ m, v = SArr m.
Proof.
  destruct n as [|n].
  - intros [= <-]. by left.
  - rewrite Mr_spec_S. destruct (pivot_spec M n) as [p|]; [|done]. simpl.
    destruct (tinv p); [|done]. intros [= <-]. right. by eexists.
Qed.

Lemma Mr_spec_None_mono (M : nat → nat → T) (a b : nat) :
  a ≤ b → Mr_spec M a = None → Mr_spec M b = None.
Proof.
  induction 1 as [|b Hle IH]; [done|]. intros Ha.
  rewrite Mr_spec_S. unfold pivot_spec. by rewrite (IH Ha).
Qed.

Lemma length_cumbtd (self : downfold) :
  length (cumbtd self) = S (length (btd self)).
Proof. unfold cumbtd. simpl. by rewrite length_cumsum. Qed.

Lemma block_pvt_Ok (self : downfold) (b : nat) :
  b < length (btd self) → block_pvt self b = Ok (pvt_of self b).
Proof.
  intros Hb. unfold block_pvt.
  destruct (index_lt (cumbtd self) b) as (lo & -> & ->);
    [rewrite length_cumbtd; lia|].
  destruct (index_lt (cumbtd self) (b + 1)) as (hi & -> & ->);
    [rewrite length_cumbtd; lia|].
  done.
Qed.

Lemma Mr_spec_step (M : nat → nat → T) (lo : nat) (mr : slot T) (p : T) :
  Mr_spec M lo = Some mr →
  minus_Mr (M lo lo) mr = Ok p →
  Mr_spec M (S lo)
  = (i ← tinv p; Some (SArr (tmul (M (lo + 1) lo) (tmul i (M lo (lo + 1)))))).
Proof.
  intros Hmr Hp. rewrite Mr_spec_S. unfold pivot_spec. rewrite Hmr.
  destruct mr as [|[]|]; simpl in *; try done; by injection Hp as <-.
Qed.

Lemma minus_Mr_Ok (M : nat → nat → T) (lo : nat) (mr : slot T) (X : T) :
  Mr_spec M lo = Some mr → ∃ p, minus_Mr X mr = Ok p.
Proof.
  intros Hmr. destruct (Mr_spec_shape _ _ _ Hmr) as [->|[m ->]];
    simpl; by eexists.
Qed.

(** The loop from step [lo] on follows the iteration [Mr_spec]; it stops
    with [LinAlgError] at the first singular pivot. *)
Lemma reduce_loop (self : downfold) (Mx : sparse) (len : nat) :
  ∀ (lo : nat) (mr : slot T),
    lo + len < length (btd self) →
    Mr_spec (Mblock self Mx) lo = Some mr →
    forM (seq lo len) (mr, pvt_of self lo)
      (fun b '(Mr, pvt_i) =>
         pvt_i1 ← block_pvt self (b + 1);
         a ← minus_Mr (sp_take Mx pvt_i pvt_i) Mr;
         x ← solve a (sp_take Mx pvt_i pvt_i1);
         Ok (SArr (tmul (sp_take Mx pvt_i1 pvt_i) x), pvt_i1))
    = match Mr_spec (Mblock self Mx) (lo + len) with
      | Some v => Ok (v, pvt_of self (lo + len))
      | None => Err LinAlgError
      end.
Proof.
  induction len as [|len IH]; intros lo mr Hlen Hmr.
  - simpl. by rewrite Nat.add_0_r, Hmr.
  - cbn [forM seq]. rewrite block_pvt_Ok by lia.
    destruct (minus_Mr_Ok _ _ _ (Mblock self Mx lo lo) Hmr) as [p Hp].
    pose proof (Mr_spec_step _ _ _ _ Hmr Hp) as HS.
    replace (lo + S len) with (lo + 1 + len) by lia.
    replace (S lo) with (lo + 1) in * by lia.
    change (sp_take Mx (pvt_of self lo) (pvt_of self lo))
      with (Mblock self Mx lo lo).
    cbn [mbind result_bind]. rewrite Hp. cbn [mbind result_bind].
    rewrite solve_eq.
    destruct (tinv p) as [i|] eqn:Hi; cbn [mbind result_bind].
    + apply IH; [lia|exact HS].
    + by rewrite (Mr_spec_None_mono _ (lo + 1) (lo + 1 + len))
        by (lia || exact HS).
Qed.

Lemma reduce_chain_spec (self : downfold) (Mx : sparse) :
  1 ≤ length (btd self) →
  reduce_chain self Mx
  = match Mr_spec (Mblock self Mx) (length (btd self) - 1) with
    | Some v => Ok v
    | None => Err LinAlgError
    end.
Proof.
  intros Hnb. unfold reduce_chain. cbv zeta.
  rewrite block_pvt_Ok by lia. cbn [mbind result_bind].
  unfold range. rewrite Nat.sub_0_r.
  rewrite (reduce_loop self Mx (length (btd self) - 1) 0 (SInt 0)); [|lia|done].
  cbn [Nat.add]. by destruct (Mr_spec _ _).
Qed.

Lemma prepare_fresh (self : downfold) (E : energy) (k : kpoint)
    (d d' : cache) :
  d_E d = None → _prepare self E k d = (Ok tt, d') →
  d_SeH d' = Some (build_SeH self E k).
Proof. unfold _prepare. intros ->. by intros [= <-]. Qed.


End DownfoldFacts.

(** ** DeviceGreen: the spectral function by columns and by propagation *)

Lemma bool_cases (b : bool) : b = true ∨ b = false.
Proof. destruct b; auto. Qed.

Section Traversal.
Import DeviceGreen.
Context {T : Type} `{DaggerLaws T}.
Variables (nb b0 b1 : nat) (tX tY : list (slot T)).
Variables (G : gmap nat T) (Gam : T) (herm : bool).
Hypothesis Hb : b0 ≤ b1 < nb.
Hypothesis HtY : ∀ n, 1 ≤ n < nb → ∃ y, getarr tY n = Ok y.
Hypothesis HtX : ∀ p, p + 1 < nb → ∃ x, getarr tX p = Ok x.
Hypothesis Hup : ∀ i y, i < b0 → getarr tY (i + 1) = Ok y →
  row_tile G i = tmul (tneg y) (row_tile G (i + 1)).
Hypothesis Hdown : ∀ i x, b1 ≤ i → i + 1 < nb → getarr tX i = Ok x →
  row_tile G (i + 1) = tmul (tneg x) (row_tile G i).
Hypothesis Hherm : herm = true → dagger Gam = Gam.

Abbreviation dense := (gmap (nat * nat) T).
Abbreviation Sc := (spectral_block G Gam).
Abbreviation wf := (sound nb G Gam).
Abbreviation grw := (grows nb G Gam).
Abbreviation has Sf i j := (is_Some ((Sf : dense) !! (i, j))).

Lemma grows_put (Sf : dense) (i j : nat) :
  wf Sf → i < nb → j < nb →
  grw (fun x y => x = i ∧ y = j) Sf (<[(i, j) := Sc i j]> Sf).
Proof.
  intros Hs Hi Hj. split.
  - intros x y v. rewrite lookup_insert_Some.
    intros [[[= <- <-] <-]|[_ Hv]]; [done|by apply Hs].
  - intros x y. destruct (decide ((i, j) = (x, y))) as [[= <- <-]|Hne].
    + rewrite lookup_insert_eq. split; [by right|by eauto].
    + rewrite lookup_insert_ne by done. split; [by left|].
      intros [?|[-> ->]]; [done|congruence].
Qed.

Lemma grows_refl (Sf : dense) : wf Sf → grw (fun _ _ => False) Sf Sf.
Proof. intros Hs. split; [done|]. intros. tauto. Qed.

Lemma grows_trans (P Q : nat → nat → Prop) (Sf Sf1 Sf2 : dense) :
  grw P Sf Sf1 → grw Q Sf1 Sf2 →
  grw (fun i j => P i j ∨ Q i j) Sf Sf2.
Proof.
  intros [_ H1] [Hs H2]. split; [done|].
  intros i j. rewrite H2, H1. tauto.
Qed.

Lemma grows_iff (P Q : nat → nat → Prop) (Sf Sf' : dense) :
  (∀ i j, P i j ↔ Q i j) → grw P Sf Sf' → grw Q Sf Sf'.
Proof.
  intros HPQ [Hs H1]. split; [done|]. intros i j. by rewrite H1, HPQ.
Qed.

Lemma grows_sound (P : nat → nat → Prop) (Sf Sf' : dense) :
  grw P Sf Sf' → wf Sf'.
Proof. by intros [? _]. Qed.

Lemma grows_has (P : nat → nat → Prop) (Sf Sf' : dense) (i j : nat) :
  grw P Sf Sf' → has Sf i j → has Sf' i j.
Proof. intros [_ H1] Hh. apply H1. by left. Qed.

Lemma grows_new (P : nat → nat → Prop) (Sf Sf' : dense) (i j : nat) :
  grw P Sf Sf' → P i j → has Sf' i j.
Proof. intros [_ H1] Hh. apply H1. by right. Qed.

(** *** The four recurrences and the Hermitian copy *)

Lemma above_calc_ok (Sf : dense) (i j : nat) :
  wf Sf → has Sf i j → 1 ≤ i ≤ b0 →
  above_calc i j Sf tY = Ok (<[(i - 1, j) := Sc (i - 1) j]> Sf).
Proof.
  intros Hs [v Hv] Hi. destruct (Hs i j v Hv) as (_ & _ & ->).
  destruct (HtY i) as [y Hy]; [lia|].
  unfold above_calc, dget. rewrite Hy, Hv. simpl. do 2 f_equal.
  unfold spectral_block. rewrite (Hup (i - 1) y); [|lia|].
  - replace (i - 1 + 1) with i by lia. by rewrite !tmul_assoc.
  - by replace (i - 1 + 1) with i by lia.
Qed.

Lemma below_calc_ok (Sf : dense) (i j : nat) :
  wf Sf → has Sf i j → b1 ≤ i → i + 1 < nb →
  below_calc i j Sf tX = Ok (<[(i + 1, j) := Sc (i + 1) j]> Sf).
Proof.
  intros Hs [v Hv] Hi Hi'. destruct (Hs i j v Hv) as (_ & _ & ->).
  destruct (HtX i) as [x Hx]; [lia|].
  unfold below_calc, dget. rewrite Hx, Hv. simpl. do 2 f_equal.
  unfold spectral_block. rewrite (Hdown i x) by done.
  by rewrite !tmul_assoc.
Qed.

Lemma left_calc_ok (Sf : dense) (i j : nat) :
  wf Sf → has Sf i j → 1 ≤ j ≤ b0 →
  left_calc i j Sf tY = Ok (<[(i, j - 1) := Sc i (j - 1)]> Sf).
Proof.
  intros Hs [v Hv] Hj. destruct (Hs i j v Hv) as (_ & _ & ->).
  destruct (HtY j) as [y Hy]; [lia|].
  unfold left_calc, dget. rewrite Hy, Hv. simpl. do 2 f_equal.
  unfold spectral_block. rewrite (Hup (j - 1) y); [|lia|].
  - replace (j - 1 + 1) with j by lia.
    rewrite dagger_mul, dagger_neg, tmul_neg_l, <-tmul_assoc, tmul_neg_r.
    done.
  - by replace (j - 1 + 1) with j by lia.
Qed.

Lemma right_calc_ok (Sf : dense) (i j : nat) :
  wf Sf → has Sf i j → b1 ≤ j → j + 1 < nb →
  right_calc i j Sf tX = Ok (<[(i, j + 1) := Sc i (j + 1)]> Sf).
Proof.
  intros Hs [v Hv] Hj Hj'. destruct (Hs i j v Hv) as (_ & _ & ->).
  destruct (HtX j) as [x Hx]; [lia|].
  unfold right_calc, dget. rewrite Hx, Hv. simpl. do 2 f_equal.
  unfold spectral_block. rewrite (Hdown j x) by done.
  rewrite dagger_mul, dagger_neg, tmul_neg_l, <-tmul_assoc, tmul_neg_r.
  done.
Qed.

Lemma copy_herm_ok (Sf : dense) (i j : nat) :
  herm = true → wf Sf → has Sf j i →
  copy_herm i j Sf = Ok (<[(i, j) := Sc i j]> Sf).
Proof.
  intros Hh Hs [v Hv]. destruct (Hs j i v Hv) as (_ & _ & ->).
  unfold copy_herm, dget. rewrite Hv. simpl. do 2 f_equal.
  unfold spectral_block.
  by rewrite !dagger_mul, dagger_invol, (Hherm Hh), tmul_assoc.
Qed.

(** *** The recursive helpers *)

Lemma above_spec (j : nat) (i : nat) :
  ∀ (fuel : nat) (Sf : dense),
    wf Sf → i ≤ b0 → j < nb → has Sf i j →
    (herm = true → ∀ i', i' < i → i' < j → has Sf j i') →
    i < fuel →
    ∃ Sf', above fuel herm tY i j Sf = Ok Sf'
      ∧ grw (fun x y => x < i ∧ y = j) Sf Sf'.
Proof.
  induction i as [|i IH]; intros fuel Sf Hs Hi Hj Hij Hcp Hfuel;
    (destruct fuel as [|fuel]; [lia|]); simpl.
  - exists Sf. split; [done|].
    eapply grows_iff; [|by apply grows_refl]. intros; simpl; lia.
  - rewrite Nat.sub_0_r.
    assert (Hstep :
      (if herm then
         if decide (j ≤ i) then above_calc (S i) j Sf tY
         else copy_herm i j Sf
       else above_calc (S i) j Sf tY)
      = Ok (<[(i, j) := Sc i j]> Sf)).
    { pose proof (above_calc_ok Sf (S i) j Hs Hij ltac:(lia)) as Hc.
      simpl in Hc. rewrite Nat.sub_0_r in Hc.
      destruct (bool_cases herm) as [Hh|Hh]; rewrite Hh; [|done].
      destruct (decide (j ≤ i)); [done|].
      apply copy_herm_ok; [done..|]. apply Hcp; [done|lia..]. }
    rewrite Hstep. simpl.
    pose proof (grows_put Sf i j Hs ltac:(lia) Hj) as Hg.
    destruct (IH fuel (<[(i, j) := Sc i j]> Sf)) as (Sf' & Hrun & Hg');
      [by eapply grows_sound|lia|done|by eapply grows_new| |lia|].
    { intros Hh i' Hi' Hi'j. eapply grows_has; [done|].
      apply Hcp; [done|lia..]. }
    exists Sf'. split; [done|].
    eapply grows_iff; [|by eapply grows_trans]. intros; simpl; lia.
Qed.

Lemma below_spec (j : nat) (k : nat) :
  ∀ (i fuel : nat) (Sf : dense),
    i + k + 1 = nb →
    wf Sf → b1 ≤ i → j < nb → has Sf i j →
    (herm = true → ∀ i', i < i' < nb → i' < j → has Sf j i') →
    k < fuel →
    ∃ Sf', below fuel herm (nb - 1) tX i j Sf = Ok Sf'
      ∧ grw (fun x y => i < x < nb ∧ y = j) Sf Sf'.
Proof.
  induction k as [|k IH]; intros i fuel Sf Hk Hs Hi Hj Hij Hcp Hfuel;
    (destruct fuel as [|fuel]; [lia|]); simpl.
  - rewrite decide_True by lia. exists Sf. split; [done|].
    eapply grows_iff; [|by apply grows_refl]. intros; simpl; lia.
  - rewrite decide_False by lia.
    assert (Hstep :
      (if herm then
         if decide (j ≤ i + 1) then below_calc i j Sf tX
         else copy_herm (i + 1) j Sf
       else below_calc i j Sf tX)
      = Ok (<[(i + 1, j) := Sc (i + 1) j]> Sf)).
    { pose proof (below_calc_ok Sf i j Hs Hij Hi ltac:(lia)) as Hc.
      destruct (bool_cases herm) as [Hh|Hh]; rewrite Hh; [|done].
      destruct (decide (j ≤ i + 1)); [done|].
      apply copy_herm_ok; [done..|]. apply Hcp; [done|lia..]. }
    rewrite Hstep. simpl.
    pose proof (grows_put Sf (i + 1) j Hs ltac:(lia) Hj) as Hg.
    destruct (IH (i + 1) fuel (<[(i + 1, j) := Sc (i + 1) j]> Sf))
      as (Sf' & Hrun & Hg');
      [lia|by eapply grows_sound|lia|done|by eapply grows_new| |lia|].
    { intros Hh i' Hi' Hi'j. eapply grows_has; [done|].
      apply Hcp; [done|lia..]. }
    exists Sf'. split; [done|].
    eapply grows_iff; [|by eapply grows_trans]. intros; simpl; lia.
Qed.

(** The calls [if a: above(...)] and [if b: below(...)]. *)
Lemma above_opt (a : bool) (i j fuel : nat) (Sf : dense) :
  wf Sf → (a = true → i ≤ b0) → j < nb → has Sf i j →
  (herm = true → a = true → ∀ i', i' < i → i' < j → has Sf j i') →
  i < fuel →
  ∃ Sf', (if a then above fuel herm tY i j Sf else Ok Sf) = Ok Sf'
    ∧ grw (fun x y => a = true ∧ x < i ∧ y = j) Sf Sf'.
Proof.
  intros Hs Hi Hj Hij Hcp Hfuel. destruct a.
  - destruct (above_spec j i fuel Sf) as (Sf' & Hrun & Hg); auto.
    exists Sf'. split; [done|].
    eapply grows_iff; [|done]. intros; simpl; tauto.
  - exists Sf. split; [done|].
    eapply grows_iff; [|by apply grows_refl].
    intros; simpl; split; [done|]. by intros [? _].
Qed.

Lemma below_opt (b : bool) (i j fuel : nat) (Sf : dense) :
  wf Sf → i < nb → (b = true → b1 ≤ i) → j < nb → has Sf i j →
  (herm = true → b = true → ∀ i', i < i' < nb → i' < j → has Sf j i') →
  nb - 1 - i < fuel →
  ∃ Sf', (if b then below fuel herm (nb - 1) tX i j Sf else Ok Sf) = Ok Sf'
    ∧ grw (fun x y => b = true ∧ i < x < nb ∧ y = j) Sf Sf'.
Proof.
  intros Hs Hin Hi Hj Hij Hcp Hfuel. destruct b.
  - destruct (below_spec j (nb - 1 - i) i fuel Sf) as (Sf' & Hrun & Hg);
      auto; [lia|].
    exists Sf'. split; [done|].
    eapply grows_iff; [|done]. intros; simpl; tauto.
  - exists Sf. split; [done|].
    eapply grows_iff; [|by apply grows_refl].
    intros; simpl; split; [done|]. by intros [? _].
Qed.

Lemma left_spec (i : nat) (a b : bool) (j : nat) :
  ∀ (fuel : nat) (Sf : dense),
    wf Sf → j ≤ b0 → j ≤ i → i < nb → has Sf i j →
    (a = true → i ≤ b0) → (b = true → b1 ≤ i) →
    j + nb < fuel →
    ∃ Sf', left fuel herm (nb - 1) tX tY i j a b Sf = Ok Sf'
      ∧ grw (fun x y => y < j
               ∧ (x = i ∨ (a = true ∧ x < i) ∨ (b = true ∧ i < x < nb)))
          Sf Sf'.
Proof.
  induction j as [|j IH]; intros fuel Sf Hs Hj Hji Hi Hij Ha Hbb Hfuel;
    (destruct fuel as [|fuel]; [lia|]); simpl.
  - exists Sf. split; [done|].
    eapply grows_iff; [|by apply grows_refl]. intros; simpl; lia.
  - rewrite Nat.sub_0_r.
    assert (Hstep :
      (if herm then
         if decide (j ≤ i) then left_calc i (S j) Sf tY
         else copy_herm i j Sf
       else left_calc i (S j) Sf tY)
      = Ok (<[(i, j) := Sc i j]> Sf)).
    { pose proof (left_calc_ok Sf i (S j) Hs Hij ltac:(lia)) as Hc.
      simpl in Hc. rewrite Nat.sub_0_r in Hc.
      destruct herm; [|done]. by rewrite decide_True by lia. }
    rewrite Hstep. simpl.
    pose proof (grows_put Sf i j Hs ltac:(lia) ltac:(lia)) as Hg1.
    destruct (IH fuel (<[(i, j) := Sc i j]> Sf)) as (Sf2 & -> & Hg2);
      [by eapply grows_sound|lia|lia|done|by eapply grows_new|done..|lia|].
    simpl.
    destruct (below_opt b i j fuel Sf2) as (Sf3 & -> & Hg3);
      [by eapply grows_sound|done|done|lia| | |lia|].
    { eapply grows_has; [done|]. by eapply grows_new. }
    { intros _ _ i' Hi' Hi'j. lia. }
    simpl.
    destruct (above_opt a i j fuel Sf3) as (Sf4 & -> & Hg4);
      [by eapply grows_sound|done|lia| | |lia|].
    { eapply grows_has; [done|]. eapply grows_has; [done|].
      by eapply grows_new. }
    { intros _ Hat i' Hi' Hi'j. eapply grows_has; [done|].
      eapply grows_new; [done|]. simpl. split; [done|].
      right; left. split; [done|lia]. }
    exists Sf4. split; [done|].
    eapply grows_iff;
      [|eapply grows_trans; [eapply grows_trans;
          [eapply grows_trans; [exact Hg1|exact Hg2]|exact Hg3]|exact Hg4]].
    intros x y; simpl. split.
    + intros [[[[-> ->]|[Hy Hx]]|(Hbt & Hx & ->)]|(Hat & Hx & ->)];
        (split; [lia|tauto]).
    + intros [Hy Hx]. destruct (decide (y = j)) as [->|Hne].
      * destruct Hx as [->|[[Hat Hx]|[Hbt Hx]]]; tauto.
      * left; left; right. split; [lia|done].
Qed.

Lemma right_spec (i : nat) (a b : bool) (k : nat) :
  ∀ (j fuel : nat) (Sf : dense),
    j + k + 1 = nb →
    wf Sf → b1 ≤ j → i ≤ j → has Sf i j →
    (a = true → i ≤ b0) → (b = true → b1 ≤ i) →
    (herm = true → ∀ y, j < y < nb → has Sf y i) →
    (herm = true → a = true → ∀ y x, j < y < nb → x < i → has Sf y x) →
    (herm = true → b = true →
       ∀ y x, j < y < nb → i < x ≤ j → has Sf y x) →
    k + nb < fuel →
    ∃ Sf', right fuel herm (nb - 1) tX tY i j a b Sf = Ok Sf'
      ∧ grw (fun x y => j < y < nb
               ∧ (x = i ∨ (a = true ∧ x < i) ∨ (b = true ∧ i < x < nb)))
          Sf Sf'.
Proof.
  induction k as [|k IH];
    intros j fuel Sf Hk Hs Hj Hij Hhas Ha Hbb H1 H2 H3 Hfuel;
    (destruct fuel as [|fuel]; [lia|]); simpl.
  - rewrite decide_True by lia. exists Sf. split; [done|].
    eapply grows_iff; [|by apply grows_refl]. intros; simpl; lia.
  - rewrite decide_False by lia.
    pose proof (grows_put Sf i (j + 1) Hs ltac:(lia) ltac:(lia)) as Hg1.
    assert (Hfin : ∀ x y : nat,
      (((x = i ∧ y = j + 1)
        ∨ (j + 1 < y < nb
           ∧ (x = i ∨ (a = true ∧ x < i) ∨ (b = true ∧ i < x < nb))))
       ∨ (a = true ∧ x < i ∧ y = j + 1))
      ∨ (b = true ∧ i < x < nb ∧ y = j + 1)
      ↔ j < y < nb
        ∧ (x = i ∨ (a = true ∧ x < i) ∨ (b = true ∧ i < x < nb))).
    { intros x y. split.
      - intros [[[[-> ->]|[Hy Hx]]|(Hat & Hx & ->)]|(Hbt & Hx & ->)];
          (split; [lia|tauto]).
      - intros [Hy Hx]. destruct (decide (y = j + 1)) as [->|Hne].
        + destruct Hx as [->|[[Hat Hx]|[Hbt Hx]]]; tauto.
        + left; left; right. split; [lia|done]. }
    destruct (bool_cases herm) as [Hh|Hh].
    + assert (Hsel : ∀ X Y : result dense, (if herm then X else Y) = X)
        by (intros; by rewrite Hh).
      rewrite Hsel. clear Hsel.
      rewrite decide_False by lia.
      rewrite copy_herm_ok; [|done|done|apply H1; [done|lia]]. simpl.
      set (Sf1 := <[(i, j + 1) := Sc i (j + 1)]> Sf) in *.
      destruct (above_opt a i (j + 1) fuel Sf1) as (Sf2 & -> & Hg2);
        [by eapply grows_sound|done|lia|by eapply grows_new| |lia|].
      { intros _ Hat i' Hi' _. eapply grows_has; [done|].
        apply H2; [done|done|lia|done]. }
      simpl.
      destruct (below_opt b i (j + 1) fuel Sf2) as (Sf3 & -> & Hg3);
        [by eapply grows_sound|lia|done|lia| | |lia|].
      { eapply grows_has; [done|]. by eapply grows_new. }
      { intros _ Hbt i' Hi' Hi'j. eapply grows_has; [done|].
        eapply grows_has; [done|]. apply H3; [done|done|lia|lia]. }
      simpl.
      destruct (IH (j + 1) fuel Sf3) as (Sf4 & -> & Hg4);
        [lia|by eapply grows_sound|lia|lia| |done|done| | | |lia|].
      { do 2 (eapply grows_has; [done|]). by eapply grows_new. }
      { intros _ y Hy. do 3 (eapply grows_has; [done|]).
        apply H1; [done|lia]. }
      { intros _ Hat y x Hy Hx. do 3 (eapply grows_has; [done|]).
        apply H2; [done|done|lia|done]. }
      { intros _ Hbt y x Hy Hx.
        destruct (decide (x = j + 1)) as [->|Hne].
        - eapply grows_new; [done|]. simpl. split; [done|]. lia.
        - do 3 (eapply grows_has; [done|]).
          apply H3; [done|done|lia|lia]. }
      exists Sf4. split; [done|].
      eapply grows_iff;
        [|eapply grows_trans; [eapply grows_trans;
            [eapply grows_trans; [exact Hg1|exact Hg2]|exact Hg3]|exact Hg4]].
      intros x y. rewrite <-(Hfin x y). simpl. tauto.
    + assert (Hsel : ∀ X Y : result dense, (if herm then X else Y) = Y)
        by (intros; by rewrite Hh).
      rewrite Hsel. clear Hsel.
      rewrite right_calc_ok by (done || lia). simpl.
      set (Sf1 := <[(i, j + 1) := Sc i (j + 1)]> Sf) in *.
      destruct (IH (j + 1) fuel Sf1) as (Sf2 & -> & Hg2);
        [lia|by eapply grows_sound|lia|lia|by eapply grows_new|done|done
        |congruence|congruence|congruence|lia|].
      simpl.
      destruct (above_opt a i (j + 1) fuel Sf2) as (Sf3 & -> & Hg3);
        [by eapply grows_sound|done|lia| |congruence|lia|].
      { eapply grows_has; [done|]. by eapply grows_new. }
      simpl.
      destruct (below_opt b i (j + 1) fuel Sf3) as (Sf4 & Hrun & Hg4);
        [by eapply grows_sound|lia|done|lia| |congruence|lia|].
      { do 2 (eapply grows_has; [done|]). by eapply grows_new. }
      exists Sf4. split; [done|].
      eapply grows_iff;
        [|eapply grows_trans; [eapply grows_trans;
            [eapply grows_trans; [exact Hg1|exact Hg2]|exact Hg3]|exact Hg4]].
      intros x y. by rewrite <-(Hfin x y).
Qed.

(** *** The two call sequences of [_spectral_propagate] *)

Lemma row_cases (a b : bool) (x i : nat) :
  a = true → b = true → x < nb →
  x = i ∨ (a = true ∧ x < i) ∨ (b = true ∧ i < x < nb).
Proof. intros. destruct (Nat.lt_trichotomy x i) as [?|[?|?]]; auto. Qed.

Lemma propagate_single (fuel : nat) (S0 : dense) :
  b1 = b0 → wf S0 → has S0 b0 b0 → 2 * nb < fuel →
  ∃ Sf,
    (Sf ← left fuel herm (nb - 1) tX tY b0 b0 true true S0;
     Sf ← above fuel herm tY b0 b0 Sf;
     Sf ← below fuel herm (nb - 1) tX b0 b0 Sf;
     right fuel herm (nb - 1) tX tY b0 b0 true true Sf) = Ok Sf
    ∧ wf Sf ∧ ∀ i j, i < nb → j < nb → has Sf i j.
Proof.
  intros Hbb Hs H00 Hfuel.
  destruct (left_spec b0 true true b0 fuel S0) as (Sf1 & -> & Hg1);
    [done|lia|lia|lia|done|done|lia|lia|].
  simpl.
  destruct (above_spec b0 b0 fuel Sf1) as (Sf2 & -> & Hg2);
    [by eapply grows_sound|lia|lia|by eapply grows_has| |lia|].
  { intros _ i' Hi' _. eapply grows_new; [done|]. simpl. auto. }
  simpl.
  destruct (below_spec b0 (nb - 1 - b0) b0 fuel Sf2) as (Sf3 & -> & Hg3);
    [lia|by eapply grows_sound|lia|lia| | |lia|].
  { do 2 (eapply grows_has; [done|]). done. }
  { intros _ i' Hi' Hi'j. lia. }
  simpl.
  destruct (right_spec b0 true true (nb - 1 - b0) b0 fuel Sf3)
    as (Sf4 & Hrun & Hg4);
    [lia|by eapply grows_sound|lia|lia| |done|lia| | | |lia|].
  { do 3 (eapply grows_has; [done|]). done. }
  { intros _ y Hy. eapply grows_new; [done|]. simpl. lia. }
  { intros _ _ y x Hy Hx. do 2 (eapply grows_has; [done|]).
    eapply grows_new; [done|]. simpl. split; [lia|].
    right; right. split; [done|lia]. }
  { intros _ _ y x Hy Hx. lia. }
  exists Sf4. split; [done|]. split; [by eapply grows_sound|].
  intros i j Hi Hj.
  destruct (Nat.lt_trichotomy j b0) as [Hlt|[->|Hgt]].
  - do 3 (eapply grows_has; [done|]). eapply grows_new; [done|].
    simpl. split; [done|]. by apply row_cases.
  - destruct (Nat.lt_trichotomy i b0) as [Hlt|[->|Hgt]].
    + do 2 (eapply grows_has; [done|]). eapply grows_new; [done|].
      simpl. lia.
    + do 4 (eapply grows_has; [done|]). done.
    + eapply grows_has; [done|]. eapply grows_new; [done|]. simpl. lia.
  - eapply grows_new; [done|]. simpl. split; [lia|]. by apply row_cases.
Qed.

Lemma propagate_pair (fuel : nat) (S0 : dense) :
  b1 = b0 + 1 → wf S0 →
  has S0 b0 b0 → has S0 b0 b1 → has S0 b1 b0 → has S0 b1 b1 →
  2 * nb < fuel →
  ∃ Sf,
    (Sf ← left fuel herm (nb - 1) tX tY b1 b0 false true S0;
     Sf ← left fuel herm (nb - 1) tX tY b0 b0 true false Sf;
     Sf ← above fuel herm tY b0 b0 Sf;
     Sf ← above fuel herm tY b0 b1 Sf;
     Sf ← below fuel herm (nb - 1) tX b1 b0 Sf;
     Sf ← below fuel herm (nb - 1) tX b1 b1 Sf;
     Sf ← right fuel herm (nb - 1) tX tY b0 b1 true false Sf;
     right fuel herm (nb - 1) tX tY b1 b1 false true Sf) = Ok Sf
    ∧ wf Sf ∧ ∀ i j, i < nb → j < nb → has Sf i j.
Proof.
  intros Hbb Hs H00 H01 H10 H11 Hfuel.
  destruct (left_spec b1 false true b0 fuel S0) as (Sf1 & -> & Hg1);
    [done|lia|lia|lia|done|done|lia|lia|].
  simpl.
  destruct (left_spec b0 true false b0 fuel Sf1) as (Sf2 & -> & Hg2);
    [by eapply grows_sound|lia|lia|lia|by eapply grows_has|done|done|lia|].
  simpl.
  destruct (above_spec b0 b0 fuel Sf2) as (Sf3 & -> & Hg3);
    [by eapply grows_sound|lia|lia| | |lia|].
  { do 2 (eapply grows_has; [done|]). done. }
  { intros _ i' Hi' _. eapply grows_new; [done|]. simpl. auto. }
  simpl.
  destruct (above_spec b1 b0 fuel Sf3) as (Sf4 & -> & Hg4);
    [by eapply grows_sound|lia|lia| | |lia|].
  { do 3 (eapply grows_has; [done|]). done. }
  { intros _ i' Hi' _. do 2 (eapply grows_has; [done|]).
    eapply grows_new; [done|]. simpl. auto. }
  simpl.
  destruct (below_spec b0 (nb - 1 - b1) b1 fuel Sf4) as (Sf5 & -> & Hg5);
    [lia|by eapply grows_sound|lia|lia| | |lia|].
  { do 4 (eapply grows_has; [done|]). done. }
  { intros _ i' Hi' Hi'j. lia. }
  simpl.
  destruct (below_spec b1 (nb - 1 - b1) b1 fuel Sf5) as (Sf6 & -> & Hg6);
    [lia|by eapply grows_sound|lia|lia| | |lia|].
  { do 5 (eapply grows_has; [done|]). done. }
  { intros _ i' Hi' Hi'j. lia. }
  simpl.
  destruct (right_spec b0 true false (nb - 1 - b1) b1 fuel Sf6)
    as (Sf7 & -> & Hg7);
    [lia|by eapply grows_sound|lia|lia| |done|done| | |done|lia|].
  { do 6 (eapply grows_has; [done|]). done. }
  { intros _ y Hy. eapply grows_has; [done|].
    eapply grows_new; [done|]. simpl. lia. }
  { intros _ _ y x Hy Hx. do 5 (eapply grows_has; [done|]).
    eapply grows_new; [done|]. simpl. split; [lia|].
    right; right. split; [done|lia]. }
  simpl.
  destruct (right_spec b1 false true (nb - 1 - b1) b1 fuel Sf7)
    as (Sf8 & Hrun & Hg8);
    [lia|by eapply grows_sound|lia|lia| |done|lia| |done| |lia|].
  { do 7 (eapply grows_has; [done|]). done. }
  { intros _ y Hy. eapply grows_has; [done|].
    eapply grows_new; [done|]. simpl. lia. }
  { intros _ _ y x Hy Hx. lia. }
  exists Sf8. split; [done|]. split; [by eapply grows_sound|].
  intros i j Hi Hj.
  destruct (decide (j < b0)) as [Hj0|Hj0].
  { destruct (decide (i ≤ b0)) as [Hi0|Hi0].
    - do 6 (eapply grows_has; [done|]). eapply grows_new; [done|].
      simpl. split; [done|].
      destruct (decide (i = b0)); [by left|right; left; split; [done|lia]].
    - do 7 (eapply grows_has; [done|]). eapply grows_new; [done|].
      simpl. split; [done|].
      destruct (decide (i = b1)); [by left|right; right; split; [done|lia]]. }
  destruct (decide (j = b0)) as [->|Hj1].
  { destruct (decide (i < b0)) as [Hi0|Hi0].
    - do 5 (eapply grows_has; [done|]). eapply grows_new; [done|].
      simpl. lia.
    - destruct (decide (i = b0)) as [->|Hi1].
      + do 8 (eapply grows_has; [done|]). done.
      + destruct (decide (i = b1)) as [->|Hi2].
        * do 8 (eapply grows_has; [done|]). done.
        * do 3 (eapply grows_has; [done|]). eapply grows_new; [done|].
          simpl. lia. }
  destruct (decide (j = b1)) as [->|Hj2].
  { destruct (decide (i < b0)) as [Hi0|Hi0].
    - do 4 (eapply grows_has; [done|]). eapply grows_new; [done|].
      simpl. lia.
    - destruct (decide (i = b0)) as [->|Hi1].
      + do 8 (eapply grows_has; [done|]). done.
      + destruct (decide (i = b1)) as [->|Hi2].
        * do 8 (eapply grows_has; [done|]). done.
        * do 2 (eapply grows_has; [done|]). eapply grows_new; [done|].
          simpl. lia. }
  destruct (decide (i ≤ b0)) as [Hi0|Hi0].
  - eapply grows_has; [done|]. eapply grows_new; [done|].
    simpl. split; [lia|].
    destruct (decide (i = b0)); [by left|right; left; split; [done|lia]].
  - eapply grows_new; [done|]. simpl. split; [lia|].
    destruct (decide (i = b1)); [by left|right; right; split; [done|lia]].
Qed.

End Traversal.

(** *** The column of the Green function and the product G·Γ·G† *)

Section TallFacts.
Import DeviceGreen.
Context {T : Type} `{TileOps T}.
Variables (nb : nat) (tX tY : list (slot T)).
Hypothesis HtY : ∀ n, 1 ≤ n < nb → ∃ y, getarr tY n = Ok y.
Hypothesis HtX : ∀ p, p + 1 < nb → ∃ x, getarr tX p = Ok x.

Abbreviation tall := (gmap nat T).
Abbreviation dense := (gmap (nat * nat) T).

Lemma row_tile_Some (G : tall) (i : nat) (g : T) :
  G !! i = Some g → row_tile G i = g.
Proof. unfold row_tile. by intros ->. Qed.

Lemma read_row_Some (G : tall) (i : nat) :
  is_Some (G !! i) → read_row G i = Ok (row_tile G i).
Proof. intros [g Hg]. unfold read_row, row_tile. by rewrite Hg. Qed.

Lemma read_write_cols (G : tall) (b : nat) (r r' : list nat) (X : T) :
  read_cols (write_cols G b r X) b r'
  = Ok (takecols (setcols (default np_empty (G !! b)) r X) r').
Proof. unfold read_cols, write_cols. by rewrite lookup_insert_eq. Qed.

Lemma write_cols_has (G : tall) (b i : nat) (r : list nat) (X : T) :
  i = b ∨ is_Some (G !! i) → is_Some (write_cols G b r X !! i).
Proof.
  unfold write_cols. intros [->|HG].
  - rewrite lookup_insert_eq. by eauto.
  - destruct (decide (b = i)) as [->|Hne].
    + rewrite lookup_insert_eq. by eauto.
    + by rewrite lookup_insert_ne.
Qed.

(** The loop "the Gf column above" of [_green_column]. *)
Lemma extend_above (n : nat) :
  ∀ G : tall,
    n < nb → is_Some (G !! n) →
    ∃ G',
      forM (rev (range 0 n)) (G, n)
        (fun b '(G, slp) =>
           y ← getarr tY (b + 1);
           g ← read_row G slp;
           Ok (<[b := tmul (tneg y) g]> G, b))
      = Ok (G', 0)
      ∧ (∀ i, n ≤ i → G' !! i = G !! i)
      ∧ (∀ i, i < n → is_Some (G' !! i))
      ∧ (∀ i y, i < n → getarr tY (i + 1) = Ok y →
           row_tile G' i = tmul (tneg y) (row_tile G' (i + 1))).
Proof.
  induction n as [|n IH]; intros G Hn HG.
  - exists G. split; [done|]. split; [done|]. split; intros; lia.
  - unfold range. rewrite Nat.sub_0_r, seq_S, rev_app_distr. simpl.
    destruct (HtY (n + 1)) as [y Hy]; [lia|]. rewrite Hy. simpl.
    rewrite (read_row_Some G (S n) HG). simpl.
    set (G1 := <[n := tmul (tneg y) (row_tile G (S n))]> G).
    destruct (IH G1) as (G' & Hrun & Hframe & Hsome & Hrec);
      [lia|by unfold G1; rewrite lookup_insert_eq|].
    unfold range in Hrun. rewrite Nat.sub_0_r in Hrun.
    exists G'. split; [done|].
    assert (Hn1 : G' !! n = Some (tmul (tneg y) (row_tile G (S n)))).
    { rewrite Hframe by lia. unfold G1. by rewrite lookup_insert_eq. }
    assert (HSn : ∀ i, S n ≤ i → G' !! i = G !! i).
    { intros i Hi. rewrite Hframe by lia. unfold G1.
      by rewrite lookup_insert_ne by lia. }
    split; [done|]. split.
    + intros i Hi. destruct (decide (i = n)) as [->|Hne]; [by eauto|].
      apply Hsome. lia.
    + intros i y' Hi Hy'. destruct (decide (i = n)) as [->|Hne].
      * assert (y' = y) as -> by congruence.
        rewrite (row_tile_Some _ _ _ Hn1). f_equal.
        unfold row_tile. replace (n + 1) with (S n) by lia.
        by rewrite HSn.
      * apply Hrec; [lia|done].
Qed.

(** The loop "all blocks below" of [_green_column]. *)
Lemma extend_below (bl : nat) (G : tall) :
  bl < nb → is_Some (G !! bl) →
  ∃ G' slp,
    forM (range (bl + 1) nb) (G, bl)
      (fun b '(G, slp) =>
         x ← getarr tX (b - 1);
         g ← read_row G slp;
         Ok (<[b := tmul (tneg x) g]> G, b))
    = Ok (G', slp)
    ∧ (∀ i, i ≤ bl → G' !! i = G !! i)
    ∧ (∀ i, bl < i < nb → is_Some (G' !! i))
    ∧ (∀ i x, bl ≤ i → i + 1 < nb → getarr tX i = Ok x →
         row_tile G' (i + 1) = tmul (tneg x) (row_tile G' i)).
Proof.
  intros Hbl HG.
  destruct (forM_range_complete
    (fun b '(G, slp) =>
       x ← getarr tX (b - 1);
       g ← read_row G slp;
       Ok (<[b := tmul (tneg x) g]> G, b))
    (fun m (s : tall * nat) =>
       s.2 = m - 1
       ∧ (∀ i, i ≤ bl → s.1 !! i = G !! i)
       ∧ (∀ i, bl ≤ i < m → is_Some (s.1 !! i))
       ∧ (∀ i x, bl ≤ i → i + 1 < m → getarr tX i = Ok x →
            row_tile s.1 (i + 1) = tmul (tneg x) (row_tile s.1 i)))
    (bl + 1) nb (G, bl)) as ([G' slp] & Hrun & Hinv).
  - lia.
  - simpl. split; [lia|]. split; [done|]. split.
    + intros i Hi. by replace i with bl by lia.
    + intros; lia.
  - intros n [G1 slp] Hn (Hslp & Hframe & Hsome & Hrec). simpl in *.
    subst slp.
    destruct (HtX (n - 1)) as [x Hx]; [lia|]. rewrite Hx. simpl.
    rewrite (read_row_Some G1 (n - 1)) by (apply Hsome; lia). simpl.
    eexists. split; [done|]. simpl.
    split; [lia|]. split; [|split].
    + intros i Hi. rewrite lookup_insert_ne by lia. by apply Hframe.
    + intros i Hi. destruct (decide (i = n)) as [->|Hne].
      * rewrite lookup_insert_eq. by eauto.
      * rewrite lookup_insert_ne by lia. apply Hsome. lia.
    + intros i x' Hi Hi' Hx'. unfold row_tile.
      destruct (decide (i + 1 = n)) as [<-|Hne].
      * rewrite lookup_insert_eq, lookup_insert_ne by lia. simpl.
        replace (i + 1 - 1) with i in * by lia.
        by assert (x' = x) as -> by congruence.
      * rewrite !lookup_insert_ne by lia. apply Hrec; [done|lia|done].
  - simpl in Hinv. destruct Hinv as (_ & Hframe & Hsome & Hrec).
    exists G', slp. split; [done|]. split; [done|]. split; [|done].
    intros i Hi. apply Hsome. lia.
Qed.

(** Both loops of [_green_column], entered with the rows b0 … b1. *)
Lemma extend_column (b0 b1 : nat) (G : tall) :
  b0 ≤ b1 < nb → (∀ b, b0 ≤ b ≤ b1 → is_Some (G !! b)) →
  ∃ Gc,
    ('(G, _) ← forM (rev (range 0 b0)) (G, b0)
        (fun b '(G, slp) =>
           y ← getarr tY (b + 1);
           g ← read_row G slp;
           Ok (<[b := tmul (tneg y) g]> G, b));
     '(G, _) ← forM (range (b1 + 1) nb) (G, b1)
        (fun b '(G, slp) =>
           x ← getarr tX (b - 1);
           g ← read_row G slp;
           Ok (<[b := tmul (tneg x) g]> G, b));
     Ok G) = Ok Gc
    ∧ (∀ b, b0 ≤ b ≤ b1 → is_Some (G !! b) ∧ Gc !! b = G !! b)
    ∧ (∀ i, i < nb → is_Some (Gc !! i))
    ∧ (∀ i y, i < b0 → getarr tY (i + 1) = Ok y →
         row_tile Gc i = tmul (tneg y) (row_tile Gc (i + 1)))
    ∧ (∀ i x, b1 ≤ i → i + 1 < nb → getarr tX i = Ok x →
         row_tile Gc (i + 1) = tmul (tneg x) (row_tile Gc i)).
Proof.
  intros Hb HG.
  destruct (extend_above b0 G) as (G1 & -> & Hframe1 & Hsome1 & Hrec1);
    [lia|apply HG; lia|].
  simpl.
  destruct (extend_below b1 G1) as (G2 & slp & -> & Hframe2 & Hsome2 & Hrec2);
    [lia|rewrite Hframe1 by lia; apply HG; lia|].
  simpl. exists G2. split; [done|].
  split; [|split; [|split]].
  - intros b Hbb. split; [by apply HG|].
    rewrite Hframe2 by lia. apply Hframe1. lia.
  - intros i Hi. destruct (decide (i ≤ b1)) as [Hle|Hgt].
    + rewrite Hframe2 by done. destruct (decide (i < b0)).
      * by apply Hsome1.
      * rewrite Hframe1 by lia. apply HG. lia.
    + apply Hsome2. lia.
  - intros i y Hi Hy. unfold row_tile.
    rewrite !Hframe2 by lia. by apply Hrec1.
  - done.
Qed.

(** [outer keys G Γ] holds block (i, j) of G·Γ·G† for i, j in [keys]. *)
Lemma outer_row (G : tall) (Gam : T) (i : nat) (ks : list nat) :
  ∀ S : dense,
    (∀ j, j ∈ ks → is_Some (G !! j)) →
    ∃ S',
      forM ks S (fun j S =>
        gj ← read_row G j;
        Ok (<[(i, j) := tmul (tmul (row_tile G i) Gam) (dagger gj)]> S))
      = Ok S'
      ∧ ∀ x y, S' !! (x, y)
          = if decide (x = i ∧ y ∈ ks)
            then Some (spectral_block G Gam x y) else S !! (x, y).
Proof.
  induction ks as [|j ks IH]; intros S Hks.
  - exists S. split; [done|]. intros x y.
    rewrite decide_False; [done|]. intros [_ Hy]. by apply elem_of_nil in Hy.
  - simpl. rewrite (read_row_Some G j) by (apply Hks; left). simpl.
    destruct (IH (<[(i, j) := spectral_block G Gam i j]> S))
      as (S' & Hrun & HS').
    { intros j' Hj'. apply Hks. by right. }
    exists S'. split; [exact Hrun|]. intros x y. rewrite HS'.
    destruct (decide (x = i ∧ y ∈ ks)) as [[-> Hy]|Hno].
    + rewrite decide_True; [done|]. split; [done|by right].
    + destruct (decide ((i, j) = (x, y))) as [[= <- <-]|Hne].
      * rewrite lookup_insert_eq, decide_True; [done|]. split; [done|left].
      * rewrite lookup_insert_ne by done.
        rewrite decide_False; [done|].
        intros [-> [->|Hy]%elem_of_cons]; [done|]. by apply Hno.
Qed.

Lemma outer_rows (keys : list nat) (G : tall) (Gam : T) (ks : list nat) :
  ∀ S : dense,
    (∀ j, j ∈ keys → is_Some (G !! j)) →
    (∀ j, j ∈ ks → is_Some (G !! j)) →
    ∃ S',
      forM ks S (fun i S =>
        gi ← read_row G i;
        forM keys S (fun j S =>
          gj ← read_row G j;
          Ok (<[(i, j) := tmul (tmul gi Gam) (dagger gj)]> S)))
      = Ok S'
      ∧ ∀ x y, S' !! (x, y)
          = if decide (x ∈ ks ∧ y ∈ keys)
            then Some (spectral_block G Gam x y) else S !! (x, y).
Proof.
  induction ks as [|i ks IH]; intros S Hkeys Hks.
  - exists S. split; [done|]. intros x y.
    rewrite decide_False; [done|]. intros [Hx _]. by apply elem_of_nil in Hx.
  - simpl. rewrite (read_row_Some G i) by (apply Hks; left). simpl.
    destruct (outer_row G Gam i keys S Hkeys) as (S1 & -> & HS1). simpl.
    destruct (IH S1) as (S' & Hrun & HS'); [done| |].
    { intros j' Hj'. apply Hks. by right. }
    exists S'. split; [exact Hrun|]. intros x y. rewrite HS', HS1.
    destruct (decide (x ∈ ks ∧ y ∈ keys)) as [[Hx Hy]|Hno].
    + rewrite decide_True; [done|]. split; [by right|done].
    + destruct (decide (x = i ∧ y ∈ keys)) as [[-> Hy]|Hno'].
      * rewrite decide_True; [done|]. split; [left|done].
      * rewrite decide_False; [done|].
        intros [[->|Hx]%elem_of_cons Hy]; [by apply Hno'|by apply Hno].
Qed.

Lemma outer_spec (keys : list nat) (G : tall) (Gam : T) :
  (∀ j, j ∈ keys → is_Some (G !! j)) →
  ∃ S, outer keys G Gam = Ok S
    ∧ ∀ x y, S !! (x, y)
        = if decide (x ∈ keys ∧ y ∈ keys)
          then Some (spectral_block G Gam x y) else None.
Proof.
  intros Hkeys. unfold outer.
  destruct (outer_rows keys G Gam keys ∅ Hkeys Hkeys) as (S & Hrun & HS).
  exists S. split; [exact Hrun|]. intros x y. rewrite HS.
  by rewrite lookup_empty.
Qed.

End TallFacts.

(** *** The blocks an electrode couples to *)

Lemma foldr_min_le (x : nat) (r : list nat) : foldr Nat.min x r ≤ x.
Proof. induction r as [|y r IH]; simpl; lia. Qed.

Lemma foldr_max_ge (x : nat) (r : list nat) : x ≤ foldr Nat.max x r.
Proof. induction r as [|y r IH]; simpl; lia. Qed.

Section BlockFacts.
Import DeviceGreen.
Context {T : Type} `{TileOps T}.

Lemma np_min_le_max (idx : list nat) (mn mx : nat) :
  np_min idx = Ok mn → np_max idx = Ok mx → mn ≤ mx.
Proof.
  destruct idx as [|x r]; [done|]. simpl. intros [= <-] [= <-].
  pose proof (foldr_min_le x r). pose proof (foldr_max_ge x r). lia.
Qed.

Lemma find_block_Ok (v : nat) (cum : list nat) (b : nat) :
  find_block v cum = Ok b →
  b < length cum ∧ ∀ j y, cum !! j = Some y → v < y → b ≤ j.
Proof.
  unfold find_block.
  destruct (list_find _ cum) as [[b' c]|] eqn:Hfind; [|done].
  intros [= ->]. apply list_find_Some in Hfind as (Hc & Hv & Hfirst).
  split; [by eapply lookup_lt_Some|].
  intros j y Hy Hvy. destruct (decide (b ≤ j)); [done|].
  exfalso. apply (Hfirst j y); [done|lia|done].
Qed.

Lemma find_block_mono (mn mx : nat) (cum : list nat) (b1 b2 : nat) :
  mn ≤ mx → find_block mn cum = Ok b1 → find_block mx cum = Ok b2 →
  b1 ≤ b2 < length cum.
Proof.
  intros Hle H1 H2. pose proof (find_block_Ok _ _ _ H1) as [_ Hfirst].
  pose proof (find_block_Ok _ _ _ H2) as [Hlt _].
  split; [|done]. unfold find_block in H2.
  destruct (list_find _ cum) as [[b' c]|] eqn:Hfind; [|done].
  injection H2 as ->. apply list_find_Some in Hfind as (Hc & Hv & _).
  apply (Hfirst b2 c); [done|lia].
Qed.

End BlockFacts.

Section SpectralFacts.
Import DeviceGreen.
Context {T energy kpoint sparse : Type}.
Context `{TileOps T} `{Numerics energy kpoint} `{SparseOps T energy sparse}.

Abbreviation device := (@device T energy kpoint sparse).
Abbreviation state := (@state T energy kpoint).
Abbreviation cache := (@cache T energy kpoint).
Abbreviation elec_arg := (@elec_arg T energy kpoint).

Lemma green_column_diag_block (self : device) (idx : list nat)
    (A B C tX tY : list (slot T)) (gam : list T) (E : energy)
    (k : kpoint) :
  tiles_prepared (length (btd self)) A B C tX tY →
  let d : cache :=
    {| d_gamma := Some gam; d_A := Some A; d_B := Some B;
       d_C := Some C; d_tX := Some tX; d_tY := Some tY;
       d_E := Some E; d_k := Some k |} in
  match _green_column self d idx, _green_diag_block self d idx with
  | Ok Gc, Ok (blocks, Ab) =>
      column_of (length (btd self)) tX tY blocks Ab Gc
  | Err _, Err _ => True
  | _, _ => False
  end.
Proof.
  intros Htp d. subst d.
  pose proof (tp_nb _ _ _ _ _ _ Htp) as Hnb.
  assert (HtY : ∀ n, 1 ≤ n < length (btd self) → ∃ y, getarr tY n = Ok y).
  { intros n Hn. destruct (tp_tY _ _ _ _ _ _ Htp n Hn) as [[y Hy] _].
    exists y. by apply getarr_arr. }
  assert (HtX : ∀ p, p + 1 < length (btd self) → ∃ x, getarr tX p = Ok x).
  { intros p Hp. destruct (tp_tX _ _ _ _ _ _ Htp p Hp) as [[x Hx] _].
    exists x. by apply getarr_arr. }
  unfold _green_column, _green_diag_block. simpl.
  destruct (np_min idx) as [mn|] eqn:Hmn; simpl; [|done].
  destruct (find_block mn (btd_cum self)) as [block1|] eqn:Hf1; simpl; [|done].
  destruct (np_max idx) as [mx|] eqn:Hmx; simpl; [|done].
  destruct (find_block mx (btd_cum self)) as [block2|] eqn:Hf2; simpl; [|done].
  pose proof (find_block_mono _ _ _ _ _ (np_min_le_max _ _ _ Hmn Hmx) Hf1 Hf2)
    as Hblocks.
  unfold btd_cum in Hblocks. rewrite length_cumsum in Hblocks.
  destruct (index_lt A 0) as (a0 & -> & _);
    [rewrite (tp_len_A _ _ _ _ _ _ Htp); lia|].
  destruct (decide (block1 = block2)) as [<-|Hne].
  - simpl.
    destruct (block_columns _ idx [block1] block1) as [[b_idx r_idx]|];
      simpl; [|done].
    destruct (diag_tile _ A B C tX tY block1) as [g|]; simpl; [|done].
    destruct (extend_column (length (btd self)) tX tY HtY HtX block1 block1
                (write_cols ∅ block1 r_idx (takecols g b_idx)))
      as (Gc & -> & Hrows & Hall & Hup & Hdown); [lia| |].
    { intros b Hbb. apply write_cols_has. left. lia. }
    exists block1, block1. split; [lia|]. split; [by left|]. done.
  - destruct (decide (block1 + 1 = block2)) as [<-|Hne2]; simpl.
    2:{ rewrite decide_False; [done|].
        unfold range. rewrite length_seq. lia. }
    assert (Hrange : range block1 (block1 + 1 + 1) = [block1; block1 + 1]).
    { unfold range. replace (block1 + 1 + 1 - block1) with 2 by lia.
      simpl. do 2 f_equal. lia. }
    rewrite Hrange. simpl.
    destruct (block_columns _ idx [block1; block1 + 1] block1)
      as [[b_idx r_idx]|]; simpl; [|done].
    destruct (diag_tile _ A B C tX tY block1) as [g|]; simpl; [|done].
    rewrite !decide_True by (done || lia).
    destruct (HtX block1) as [x ->]; [lia|]. simpl.
    rewrite !read_write_cols. simpl.
    destruct (block_columns _ idx [block1; block1 + 1] (block1 + 1))
      as [[b_idx' r_idx']|]; simpl; [|done].
    destruct (diag_tile _ A B C tX tY (block1 + 1)) as [g'|]; simpl; [|done].
    rewrite (decide_False (P := block1 + 1 = block1 ∧ _)) by lia.
    rewrite (decide_True (P := 0 < block1 + 1)) by lia.
    rewrite (decide_False (P := block1 + 1 = block1)) by lia.
    destruct (HtY (block1 + 1)) as [y ->]; [lia|]. simpl.
    replace (block1 + 1 - 1) with block1 by lia.
    rewrite !read_write_cols. simpl.
    match goal with
    | |- context [forM (rev (range 0 block1)) (?G0, block1) _] =>
        set (Gb := G0)
    end.
    destruct (extend_column (length (btd self)) tX tY HtY HtX block1
                (block1 + 1) Gb)
      as (Gc & -> & Hrows & Hall & Hup & Hdown); [lia| |].
    { intros b Hbb. unfold Gb.
      destruct (decide (b = block1)) as [->|Hb1].
      - apply write_cols_has. by left.
      - apply write_cols_has. right. apply write_cols_has. left. lia. }
    exists block1, (block1 + 1). split; [lia|]. split; [by right|]. done.
Qed.

Variable recursion_limit : nat.
Context `{!DaggerLaws T}.

Lemma list_getitem_elem {A : Type} (l : list A) (key : elec_arg) (x : A) :
  list_getitem l key = Ok x → x ∈ l.
Proof.
  unfold list_getitem. destruct key; try done.
  repeat case_decide; try done; intros Hx%index_Ok;
    by eapply list_elem_of_lookup_2.
Qed.

Lemma spectral_column_propagate_prepared (self : device) (d : cache)
    (elec : elec_arg) (herm : bool) :
  prepared self d →
  (herm = true → gamma_hermitian d) →
  2 * length (btd self) < recursion_limit →
  res_agree eq (_spectral_column self d elec herm)
    (_spectral_propagate recursion_limit self d elec herm).
Proof.
  intros (gam & A & B & C & tX & tY & E & k & -> & Htp) Hgam Hfuel.
  pose proof (tp_nb _ _ _ _ _ _ Htp) as Hnb.
  assert (HtY : ∀ n, 1 ≤ n < length (btd self) → ∃ y, getarr tY n = Ok y).
  { intros n Hn. destruct (tp_tY _ _ _ _ _ _ Htp n Hn) as [[y Hy] _].
    exists y. by apply getarr_arr. }
  assert (HtX : ∀ p, p + 1 < length (btd self) → ∃ x, getarr tX p = Ok x).
  { intros p Hp. destruct (tp_tX _ _ _ _ _ _ Htp p Hp) as [[x Hx] _].
    exists x. by apply getarr_arr. }
  unfold _spectral_column, _spectral_propagate.
  destruct (list_getitem (elecs_pvt_dev self) elec) as [idx|]; simpl; [|done].
  pose proof (green_column_diag_block self idx A B C tX tY gam E k Htp) as Hcd.
  simpl in Hcd.
  destruct (_green_column self _ idx) as [Gc|],
    (_green_diag_block self _ idx) as [[blocks Ab]|]; simpl; try done.
  destruct Hcd as (b0 & b1 & Hb & Hblocks & Hrows & Hall & Hup & Hdown).
  destruct (list_getitem gam elec) as [Gam|] eqn:HGam; simpl; [|done].
  assert (Hherm : herm = true → dagger Gam = Gam).
  { intros Hh. specialize (Hgam Hh gam eq_refl).
    rewrite Forall_forall in Hgam. apply Hgam.
    by eapply list_getitem_elem. }
  destruct (outer_spec (range 0 (length (btd self))) Gc Gam)
    as (S & -> & HS).
  { intros j Hj. apply Hall. apply elem_of_seq in Hj. lia. }
  assert (Hin : ∀ j, j ∈ blocks ↔ b0 ≤ j ≤ b1).
  { intros j. destruct Hblocks as [[-> ->]|[-> ->]]; set_unfold; lia. }
  destruct (outer_spec blocks Ab Gam) as (S0 & -> & HS0).
  { intros j Hj. apply Hrows. by apply Hin. }
  simpl.
  assert (Hs0 : sound (length (btd self)) Gc Gam S0).
  { intros x y v. rewrite HS0.
    destruct (decide (x ∈ blocks ∧ y ∈ blocks)) as [[Hx Hy]|]; [|done].
    apply Hin in Hx, Hy. intros [= <-].
    split; [lia|]. split; [lia|].
    unfold spectral_block, row_tile.
    by rewrite (proj2 (Hrows x Hx)), (proj2 (Hrows y Hy)). }
  assert (Hhas0 : ∀ x y, b0 ≤ x ≤ b1 → b0 ≤ y ≤ b1 → is_Some (S0 !! (x, y))).
  { intros x y Hx Hy. rewrite HS0, decide_True; [by eauto|].
    split; by apply Hin. }
  assert (Hfinish : ∀ Sf : gmap (nat * nat) T,
    sound (length (btd self)) Gc Gam Sf →
    (∀ i j, i < length (btd self) → j < length (btd self) →
       is_Some (Sf !! (i, j))) →
    S = Sf).
  { intros Sf Hs Hfull. apply map_eq. intros [x y]. rewrite HS.
    destruct (decide (x ∈ range 0 (length (btd self))
                      ∧ y ∈ range 0 (length (btd self)))) as [[Hx Hy]|Hno].
    - apply elem_of_seq in Hx, Hy.
      destruct (Hfull x y) as [v Hv]; [lia..|]. rewrite Hv.
      by destruct (Hs x y v Hv) as (_ & _ & ->).
    - destruct (Sf !! (x, y)) as [v|] eqn:Hv; [|done].
      destruct (Hs x y v Hv) as (Hx & Hy & _). exfalso. apply Hno.
      split; apply elem_of_seq; lia. }
  destruct Hblocks as [[-> ->]|[-> ->]]; simpl.
  - destruct (propagate_single (length (btd self)) b0 b0 tX tY Gc Gam herm
                Hb HtY HtX Hup Hdown Hherm recursion_limit S0)
      as (Sf & -> & Hs & Hfull); [done|done|apply Hhas0; lia|lia|].
    simpl. by apply Hfinish.
  - destruct (propagate_pair (length (btd self)) b0 (b0 + 1) tX tY Gc Gam
                herm Hb HtY HtX Hup Hdown Hherm recursion_limit S0)
      as (Sf & -> & Hs & Hfull);
      [done|done|apply Hhas0; lia..|lia|].
    simpl. by apply Hfinish.
Qed.


End SpectralFacts.
(** ** The statements above on the three-block integer device *)

Lemma prepare_idempotent_witness :
  DeviceGreen._check_Ek 1%Z 0%Z ZTile.prepared = (Ok true, ZTile.prepared)
  ∧ DeviceGreen._prepare ZTile.toy 1%Z 0%Z ZTile.prepared
    = (Ok tt, ZTile.prepared).
Proof.
  apply (prepare_idempotent ZTile.toy 1%Z 0%Z ZTile.fresh ZTile.prepared);
    vm_compute; reflexivity.
Defined.

Lemma prepare_se_records_only_gamma_witness :
  DeviceGreen._prepare_se ZTile.toy 1%Z 0%Z ZTile.fresh
  = (Ok tt,
     {| DeviceGreen.data :=
          {| DeviceGreen.d_gamma := Some [1%Z; 1%Z];
             DeviceGreen.d_A := None; DeviceGreen.d_B := None;
             DeviceGreen.d_C := None; DeviceGreen.d_tX := None;
             DeviceGreen.d_tY := None; DeviceGreen.d_E := None;
             DeviceGreen.d_k := None |};
        DeviceGreen.se_calls := [("R", 1%Z, 0%Z); ("L", 1%Z, 0%Z)] |}).
Proof.
  refine (proj1 (prepare_se_records_only_gamma ZTile.toy 1%Z 0%Z
                   [0%Z; 0%Z] [] _)).
  repeat constructor.
Defined.

Lemma spectral_btd_propagate_is_value_error_witness :
  DeviceGreen.spectral 100 ZTile.toy (DeviceGreen.EStr "L") 1%Z 0%Z
    "btd" "propagate" true ZTile.fresh
  = (Err (ValueError
       "DeviceGreen.spectral combination of format+method not recognized btd+propagate."),
     ZTile.prepared).
Proof.
  apply spectral_btd_propagate_is_value_error.
  vm_compute. reflexivity.
Defined.

(** C7 (the claim as stated fails).  On the toy device, where
    [_prepare(1, 0)] returns and "L" is a configured electrode,
    [spectral("L", 1, 0, format='btd', method='propagate')] does not raise
    [NotImplementedError]. *)
Lemma spectral_btd_propagate_not_NotImplemented :
  (DeviceGreen._prepare ZTile.toy 1%Z 0%Z ZTile.fresh).1 = Ok tt
  ∧ (DeviceGreen.spectral 100 ZTile.toy (DeviceGreen.EStr "L") 1%Z 0%Z
       "btd" "propagate" true ZTile.fresh).1
    ≠ Err NotImplementedError.
Proof. split; [vm_compute; reflexivity|]. vm_compute. discriminate. Qed.



Lemma prepare_tiles_satisfy_recurrences_witness :
  ∃ A B C tX tY,
    DeviceGreen.d_A (DeviceGreen.data ZTile.prepared) = Some A
    ∧ DeviceGreen.d_B (DeviceGreen.data ZTile.prepared) = Some B
    ∧ DeviceGreen.d_C (DeviceGreen.data ZTile.prepared) = Some C
    ∧ DeviceGreen.d_tX (DeviceGreen.data ZTile.prepared) = Some tX
    ∧ DeviceGreen.d_tY (DeviceGreen.data ZTile.prepared) = Some tY
    ∧ 2 ≤ 3
    ∧ (∀ n, 1 ≤ n < 3 → is_Some (arr_at tY n))
    ∧ (∀ p, p + 1 < 3 → is_Some (arr_at tX p))
    ∧ arr_at tY 1
      = (a ← arr_at A 0; c ← arr_at C 1; i ← tinv a; Some (tmul i c))
    ∧ (∀ n, 2 ≤ n < 3 →
        arr_at tY n
        = (a ← arr_at A (n - 1); b ← arr_at B (n - 2);
           y ← arr_at tY (n - 1); c ← arr_at C n;
           i ← tinv (tsub a (tmul b y)); Some (tmul i c)))
    ∧ arr_at tX (3 - 2)
      = (a ← arr_at A (3 - 1); b ← arr_at B (3 - 2); i ← tinv a;
         Some (tmul i b))
    ∧ (∀ p, p + 2 < 3 →
        arr_at tX p
        = (a ← arr_at A (p + 1); c ← arr_at C (p + 2);
           x ← arr_at tX (p + 1); b ← arr_at B p;
           i ← tinv (tsub a (tmul c x)); Some (tmul i b))).
Proof.
  apply (prepare_tiles_satisfy_recurrences ZTile.toy 1%Z 0%Z ZTile.fresh
           ZTile.prepared).
  - left. reflexivity.
  - vm_compute. reflexivity.
Defined.


(** The integer tiles form a ring in which [zinv] inverts the units. *)
Lemma ztile_ring_laws : RingLaws Z.
Proof.
  split; simpl; intros; try lia.
  all: unfold ZTile.zinv in *; repeat case_decide; simplify_eq; lia.
Qed.

Lemma chain_tridiagonal : block_tridiagonal 2 ZTile.chain_M.
Proof.
  intros i j Hi Hj Hfar.
  assert (i = 0 ∧ j = 2 ∨ i = 2 ∧ j = 0) as [[-> ->]|[-> ->]] by lia;
    vm_compute; reflexivity.
Qed.

Lemma chain_right_inverse : right_inverse 2 ZTile.chain_M ZTile.chain_X.
Proof.
  intros i j Hi Hj.
  destruct i as [|[|i]]; [| |lia]; (destruct j as [|[|j]]; [| |lia]);
    vm_compute; reflexivity.
Qed.



(** [zargsort] meets the contract of [np.argsort]. *)
Lemma insert_by_perm (key : nat → Z) (i : nat) (l : list nat) :
  ZTile.insert_by key i l ≡ₚ i :: l.
Proof.
  induction l as [|j l IH]; simpl; [done|].
  destruct (key i <=? key j)%Z; [done|].
  rewrite IH. apply Permutation_swap.
Qed.

Lemma insert_by_sorted (key : nat → Z) (i : nat) (l : list nat) :
  StronglySorted (fun a b => (key a ≤ key b)%Z) l →
  StronglySorted (fun a b => (key a ≤ key b)%Z) (ZTile.insert_by key i l).
Proof.
  induction 1 as [|j l Hl IH Hj]; simpl.
  - by repeat constructor.
  - destruct (Z.leb_spec (key i) (key j)) as [Hle|Hgt].
    + constructor; [by constructor|].
      constructor; [done|].
      eapply Forall_impl; [exact Hj|]. simpl. lia.
    + constructor; [done|].
      rewrite insert_by_perm. constructor; [lia|done].
Qed.

Lemma zargsort_perm (l : list Z) :
  ZTile.zargsort l ≡ₚ seq 0 (length l).
Proof.
  unfold ZTile.zargsort. generalize (seq 0 (length l)) as xs.
  induction xs as [|x xs IH]; simpl; [done|].
  by rewrite insert_by_perm, IH.
Qed.

Lemma zargsort_sorted (l : list Z) :
  StronglySorted
    (fun a b => (default 0 (l !! a) ≤ default 0 (l !! b))%Z)
    (ZTile.zargsort l).
Proof.
  unfold ZTile.zargsort. generalize (seq 0 (length l)) as xs.
  induction xs as [|x xs IH]; simpl; [constructor|].
  by apply insert_by_sorted.
Qed.

Lemma strongly_sorted_lookup {A : Type} (Rel : A → A → Prop) (l : list A)
    (p q : nat) (a b : A) :
  StronglySorted Rel l → (∀ x, Rel x x) →
  p ≤ q → l !! p = Some a → l !! q = Some b → Rel a b.
Proof.
  intros Hl Hrefl. revert p q.
  induction Hl as [|x l Hl IH Hx]; intros p q Hpq Hp Hq; [done|].
  destruct p as [|p], q as [|q]; simpl in *; try lia.
  - by simplify_eq.
  - simplify_eq. rewrite Forall_forall in Hx.
    by eapply Hx, list_elem_of_lookup_2.
  - apply (IH p q); [lia|done..].
Qed.

Lemma ztile_real_laws : RealLaws Z.
Proof.
  split.
  - intros x y. simpl.
    destruct (Z.leb_spec (- x) (- y)), (Z.leb_spec y x); try done; lia.
  - intros l. apply zargsort_perm.
  - intros l p q a b Hpq Ha Hb. simpl in *.
    assert (Hlt : ∀ i, i ∈ ZTile.zargsort l → i < length l).
    { intros i Hi. rewrite zargsort_perm in Hi.
      apply elem_of_seq in Hi. lia. }
    destruct (lookup_lt_is_Some_2 l a) as [x Hx];
      [by eapply Hlt, list_elem_of_lookup_2|].
    destruct (lookup_lt_is_Some_2 l b) as [y Hy];
      [by eapply Hlt, list_elem_of_lookup_2|].
    exists x, y. split; [done|]. split; [done|].
    apply Z.leb_le.
    change (default 0 (Some x) ≤ default 0 (Some y))%Z.
    rewrite <-Hx, <-Hy.
    apply (strongly_sorted_lookup
             (fun a b => (default 0 (l !! a) ≤ default 0 (l !! b))%Z)
             (ZTile.zargsort l) p q a b);
      [apply zargsort_sorted|intros; lia|done..].
Qed.

Lemma green_array_btd_agree_witness :
  let r1 := DeviceGreen.green ZTile.toy 1%Z 0%Z "array" ZTile.fresh in
  let r2 := DeviceGreen.green ZTile.toy 1%Z 0%Z "btd" ZTile.fresh in
  r1.2 = r2.2
  ∧ res_rel (fun g1 g2 =>
        ∃ G Gb D,
          g1 = DeviceGreen.GArray G ∧ g2 = DeviceGreen.GBlock Gb
          ∧ BlockMatrix.toarray Gb = Ok D
          ∧ ∀ i j, i < 3 → j < 3 → tridiagonal i j →
              is_Some (G !! (i, j)) ∧ G !! (i, j) = D !! (i, j))
      r1.1 r2.1.
Proof.
  apply (green_array_btd_agree ZTile.toy 1%Z 0%Z ZTile.fresh).
  left. reflexivity.
Defined.

Lemma scattering_state_reduce_keeps_largest_witness :
  ∃ dos,
    DeviceGreen._scattering_state_reduce
      (DeviceGreen.data ZTile.prepared) (DeviceGreen.EInt 0%Z)
      [2%Z; (-5)%Z; 3%Z] 7%Z (DeviceGreen.CNum 1%Z)
    = Ok (dos, 7%Z)
    ∧ dos = [3%Z].
Proof.
  destruct (scattering_state_reduce_keeps_largest
              (DeviceGreen.data ZTile.prepared) (DeviceGreen.EInt 0%Z)
              [2%Z; (-5)%Z; 3%Z] 7%Z 1%Z [1%Z; 1%Z] 1%Z ztile_real_laws)
    as ((dos & Hrun & Hdos) & _).
  - reflexivity.
  - reflexivity.
  - exists dos. split; [exact Hrun|].
    vm_compute in Hdos.
    inversion Hdos as [|? ? ? ? Hv Hrest]; subst.
    inversion Hrest; subst. vm_compute in Hv. congruence.
Defined.

(** On integer tiles [dagger] is the identity and the laws of the
    conjugate transpose are those of the integers. *)
Lemma ztile_dagger_laws : DaggerLaws Z.
Proof. split; simpl; intros; lia. Qed.


(** * Further properties of the code *)

(** ** BlockMatrix and its indexer *)

Section BlockMatrixFacts.
Context {T : Type} `{TileOps T}.

Abbreviation bm := (BlockMatrix.t T).
Abbreviation kept nb i j := (i ≤ j ∧ j ≤ i + 1 ∧ i + 1 < nb).

Lemma getitem_stored (m : bm) (key : nat * nat) (v : T) :
  BlockMatrix._M m !! key = Some v → BlockMatrix.getitem m key = Ok v.
Proof. unfold BlockMatrix.getitem. by intros ->. Qed.

Lemma getitem_in_range (m : bm) (i j : nat) :
  i < BlockMatrix.len m → j < BlockMatrix.len m →
  ∃ v, BlockMatrix.getitem m (i, j) = Ok v
    ∧ (BlockMatrix._M m !! (i, j) = Some v
       ∨ BlockMatrix._M m !! (i, j) = None
         ∧ ∃ bi bj, BlockMatrix.blocks m !! i = Some bi
             ∧ BlockMatrix.blocks m !! j = Some bj ∧ v = zeros bi bj).
Proof.
  intros Hi Hj. unfold BlockMatrix.getitem.
  destruct (BlockMatrix._M m !! (i, j)) as [v|]; [by eauto|].
  destruct (index_lt (BlockMatrix.blocks m) i Hi) as (bi & -> & Hbi).
  destruct (index_lt (BlockMatrix.blocks m) j Hj) as (bj & -> & Hbj).
  simpl. eexists. split; [done|]. right. split; [done|]. by eauto.
Qed.

(** X1.  [__setitem__] followed by [__getitem__] with the same key
    returns the stored tile, whatever the key is (the indexer does not
    check it against the number of blocks); other keys and the block
    sizes are left alone, and a second [__setitem__] with the same key
    replaces the first. *)
Theorem setitem_getitem_round_trip (m : bm) (key key' : nat * nat)
    (v v' : T) :
  BlockMatrix.getitem (BlockMatrix.setitem m key v) key = Ok v
  ∧ (key' ≠ key →
     BlockMatrix.getitem (BlockMatrix.setitem m key v) key'
     = BlockMatrix.getitem m key')
  ∧ BlockMatrix.blocks (BlockMatrix.setitem m key v) = BlockMatrix.blocks m
  ∧ BlockMatrix.setitem (BlockMatrix.setitem m key v) key v'
    = BlockMatrix.setitem m key v'.
Proof.
  split; [|split; [|split]].
  - apply getitem_stored. simpl. by rewrite lookup_insert_eq.
  - intros Hne. unfold BlockMatrix.getitem. simpl.
    by rewrite lookup_insert_ne.
  - done.
  - unfold BlockMatrix.setitem. simpl. by rewrite insert_insert_eq.
Qed.

(** [blocks[z]] exists exactly for −nb ≤ z < nb. *)
Lemma pyindex_spec {A : Type} (l : list A) (z : Z) :
  let n := Z.of_nat (length l) in
  ((- n ≤ z < n)%Z →
     ∃ b, l !! Z.to_nat (if decide (0 ≤ z)%Z then z else (n + z)%Z) = Some b
       ∧ pyindex l z = Ok b)
  ∧ (¬ (- n ≤ z < n)%Z → pyindex l z = Err IndexError).
Proof.
  intros n. unfold pyindex. fold n. split.
  - intros Hz. destruct (decide (0 ≤ z)%Z).
    + destruct (lookup_lt_is_Some_2 l (Z.to_nat z)) as [b Hb]; [lia|].
      exists b. split; [done|]. unfold index. by rewrite Hb.
    + rewrite decide_True by lia.
      destruct (lookup_lt_is_Some_2 l (Z.to_nat (n + z))) as [b Hb]; [lia|].
      exists b. split; [done|]. unfold index. by rewrite Hb.
  - intros Hz. destruct (decide (0 ≤ z)%Z).
    + unfold index. rewrite lookup_ge_None_2; [done|lia].
    + by rewrite decide_False by lia.
Qed.


(** The tiles [tobtd] copies. *)
Lemma tobtd_spec (m : bm) :
  ∃ ret, BlockMatrix.tobtd m = Ok ret
    ∧ BlockMatrix.blocks ret = BlockMatrix.blocks m
    ∧ ∀ i j,
        (kept (BlockMatrix.len m) i j →
           ∃ v, BlockMatrix.getitem m (i, j) = Ok v
             ∧ BlockMatrix._M ret !! (i, j) = Some v)
        ∧ (¬ kept (BlockMatrix.len m) i j →
           BlockMatrix._M ret !! (i, j) = None).
Proof.
  unfold BlockMatrix.tobtd. set (nb := BlockMatrix.len m).
  destruct (forM_range_complete
    (fun j ret =>
       forM (range (max 0 (j - 1)) (min (j + 1) (nb - 1))) ret (fun i ret =>
         v ← BlockMatrix.getitem m (i, j);
         Ok (BlockMatrix.setitem ret (i, j) v)))
    (fun n (ret : bm) =>
       BlockMatrix.blocks ret = BlockMatrix.blocks m
       ∧ ∀ i j,
           (kept nb i j ∧ j < n →
              ∃ v, BlockMatrix.getitem m (i, j) = Ok v
                ∧ BlockMatrix._M ret !! (i, j) = Some v)
           ∧ (¬ (kept nb i j ∧ j < n) →
              BlockMatrix._M ret !! (i, j) = None))
    0 nb (BlockMatrix.init (BlockMatrix.blocks m)))
    as (ret & Hrun & Hbl & Hinv).
  - lia.
  - split; [done|]. intros i j. split; [lia|]. intros _. apply lookup_empty.
  - intros j ret Hj [Hbl Hinv].
    destruct (forM_range_complete
      (fun i ret =>
         v ← BlockMatrix.getitem m (i, j);
         Ok (BlockMatrix.setitem ret (i, j) v))
      (fun n (ret' : bm) =>
         BlockMatrix.blocks ret' = BlockMatrix.blocks m
         ∧ ∀ i j',
             (kept nb i j' ∧ (j' < j ∨ j' = j ∧ i < n) →
                ∃ v, BlockMatrix.getitem m (i, j') = Ok v
                  ∧ BlockMatrix._M ret' !! (i, j') = Some v)
             ∧ (¬ (kept nb i j' ∧ (j' < j ∨ j' = j ∧ i < n)) →
                BlockMatrix._M ret' !! (i, j') = None))
      (max 0 (j - 1)) (min (j + 1) (nb - 1)) ret)
      as (ret' & Hrun' & Hbl' & Hinv').
    + lia.
    + split; [done|]. intros i j'. split.
      * intros [Hk Hc]. apply Hinv. split; [done|]. lia.
      * intros Hno. apply Hinv. intros [Hk Hc]. apply Hno. split; [done|lia].
    + intros i ret1 Hi [Hbl1 Hinv1].
      destruct (getitem_in_range m i j) as (v & Hv & _); [lia..|].
      rewrite Hv. simpl. eexists. split; [done|]. split; [done|].
      intros i' j'. simpl. split.
      * intros [Hk Hc].
        destruct (decide ((i, j) = (i', j'))) as [[= <- <-]|Hne].
        -- exists v. by rewrite lookup_insert_eq.
        -- rewrite lookup_insert_ne by done. apply Hinv1.
           split; [done|]. destruct Hc as [?|[-> ?]]; [by left|].
           right. split; [done|].
           destruct (decide (i' = i)) as [->|]; [done|lia].
      * intros Hno. rewrite lookup_insert_ne.
        -- apply Hinv1. intros [Hk Hc]. apply Hno. split; [done|lia].
        -- intros [= <- <-]. apply Hno. split; [lia|]. right. lia.
    + exists ret'. split; [exact Hrun'|]. split; [done|].
      intros i j'. split.
      * intros [Hk Hc]. apply Hinv'. split; [done|]. lia.
      * intros Hno. apply Hinv'. intros [Hk Hc]. apply Hno.
        split; [done|]. lia.
  - exists ret. split; [exact Hrun|]. split; [done|].
    intros i j. split.
    + intros Hk. apply Hinv. split; [done|]. lia.
    + intros Hno. apply Hinv. intros [Hk _]. by apply Hno.
Qed.

(** X3.  [tobtd] never raises and returns a block matrix with the same
    block sizes that stores exactly the tiles (i, j) with
    i ≤ j ≤ i+1 and i+1 < nb, each the tile [__getitem__] answers for
    it (a zero tile when it was never set): the diagonal but for its
    last tile and the super-diagonal.  No tile below the diagonal and
    not the tile (nb−1, nb−1) is ever copied. *)
Theorem tobtd_copies_upper_bidiagonal (m : bm) :
  ∃ ret, BlockMatrix.tobtd m = Ok ret
    ∧ BlockMatrix.blocks ret = BlockMatrix.blocks m
    ∧ (∀ i j, i ≤ j ≤ i + 1 → i + 1 < BlockMatrix.len m →
         ∃ v, BlockMatrix.getitem m (i, j) = Ok v
           ∧ BlockMatrix._M ret !! (i, j) = Some v)
    ∧ (∀ i j, j < i → BlockMatrix._M ret !! (i, j) = None)
    ∧ (∀ i j, i + 1 < j → BlockMatrix._M ret !! (i, j) = None)
    ∧ (∀ i j, BlockMatrix.len m ≤ i + 1 →
         BlockMatrix._M ret !! (i, j) = None).
Proof.
  destruct (tobtd_spec m) as (ret & Hrun & Hbl & Hspec).
  exists ret. split; [done|]. split; [done|].
  split; [|split; [|split]].
  - intros i j Hij Hi. apply Hspec. lia.
  - intros i j Hij. apply Hspec. lia.
  - intros i j Hij. apply Hspec. lia.
  - intros i j Hi. apply Hspec. lia.
Qed.

(** X4.  [tobtd] is idempotent: applied to its own result it returns
    that result again. *)
Theorem tobtd_idempotent (m ret : bm) :
  BlockMatrix.tobtd m = Ok ret → BlockMatrix.tobtd ret = Ok ret.
Proof.
  intros Hrun.
  destruct (tobtd_spec m) as (ret0 & Hrun0 & Hbl & Hspec).
  assert (ret0 = ret) as -> by congruence.
  destruct (tobtd_spec ret) as (ret' & Hrun' & Hbl' & Hspec').
  rewrite Hrun'. f_equal.
  assert (Hlen : BlockMatrix.len ret = BlockMatrix.len m)
    by (unfold BlockMatrix.len; by rewrite Hbl).
  destruct ret' as [bl' M'], ret as [bl M]. simpl in *. subst bl'.
  f_equal. apply map_eq. intros [i j].
  destruct (decide (kept (BlockMatrix.len m) i j)) as [Hk|Hk].
  - destruct (proj1 (Hspec i j) Hk) as (v & _ & Hv).
    destruct (proj1 (Hspec' i j)) as (v' & Hv' & HM'); [by rewrite Hlen|].
    rewrite (getitem_stored (BlockMatrix.mk bl M) (i, j) v Hv) in Hv'.
    congruence.
  - rewrite (proj2 (Hspec i j) Hk).
    apply Hspec'. by rewrite Hlen.
Qed.

(** X5.  For a block matrix with at least one block: whenever
    [toarray] returns for the matrix and for its [tobtd], the two dense
    arrays have the same blocks at the positions [tobtd] copies, and the
    array of the [tobtd] has zero blocks everywhere else. *)
Theorem toarray_of_tobtd (m ret : bm) (D D' : gmap (nat * nat) T) :
  1 ≤ BlockMatrix.len m →
  BlockMatrix.tobtd m = Ok ret →
  BlockMatrix.toarray m = Ok D →
  BlockMatrix.toarray ret = Ok D' →
  ∀ i j, i < BlockMatrix.len m → j < BlockMatrix.len m →
    (i ≤ j ≤ i + 1 ∧ i + 1 < BlockMatrix.len m →
       is_Some (D !! (i, j)) ∧ D' !! (i, j) = D !! (i, j))
    ∧ (¬ (i ≤ j ≤ i + 1 ∧ i + 1 < BlockMatrix.len m) →
       ∃ bi bj, BlockMatrix.blocks m !! i = Some bi
         ∧ BlockMatrix.blocks m !! j = Some bj
         ∧ D' !! (i, j) = Some (zeros bi bj)).
Proof.
  intros Hone Hrun HD HD' i j Hi Hj.
  destruct (tobtd_spec m) as (ret0 & Hrun0 & Hbl & Hspec).
  assert (ret0 = ret) as -> by congruence.
  assert (Hlen : BlockMatrix.len ret = BlockMatrix.len m)
    by (unfold BlockMatrix.len; by rewrite Hbl).
  destruct (toarray_lookup m Hone) as (D0 & HD0 & Hm).
  assert (D0 = D) as -> by congruence.
  destruct (toarray_lookup ret ltac:(lia)) as (D1 & HD1 & Hret).
  assert (D1 = D') as -> by congruence.
  destruct (Hm i j Hi Hj) as (v & Hv & HDv).
  destruct (Hret i j) as (v' & Hv' & HDv'); [by rewrite Hlen..|].
  split.
  - intros Hk. split; [by eauto|].
    destruct (proj1 (Hspec i j)) as (w & Hw & HMw); [lia|].
    rewrite (getitem_stored ret (i, j) w HMw) in Hv'. congruence.
  - intros Hk.
    assert (HM : BlockMatrix._M ret !! (i, j) = None)
      by (apply Hspec; lia).
    destruct (getitem_in_range ret i j) as (w & Hw & [HMw|(_ & bi & bj & Hbi & Hbj & ->)]);
      [by rewrite Hlen..|congruence|].
    rewrite Hbl in Hbi, Hbj. exists bi, bj.
    split; [done|]. split; [done|]. congruence.
Qed.

End BlockMatrixFacts.


Lemma tobtd_idempotent_witness :
  ∃ ret, BlockMatrix.tobtd ZTile.full2 = Ok ret
    ∧ BlockMatrix.tobtd ret = Ok ret.
Proof.
  eexists. split; [vm_compute; reflexivity|].
  apply (tobtd_idempotent ZTile.full2). vm_compute. reflexivity.
Defined.

Lemma toarray_of_tobtd_witness :
  ∃ ret D D',
    BlockMatrix.tobtd ZTile.full2 = Ok ret
    ∧ BlockMatrix.toarray ZTile.full2 = Ok D
    ∧ BlockMatrix.toarray ret = Ok D'
    ∧ D' !! (0, 1) = D !! (0, 1)
    ∧ D' !! (1, 0) = Some (zeros 1 1).
Proof.
  eexists. eexists. eexists.
  split; [vm_compute; reflexivity|].
  split; [vm_compute; reflexivity|].
  split; [vm_compute; reflexivity|].
  pose proof (toarray_of_tobtd (T := Z) ZTile.full2 _ _ _
                ltac:(vm_compute; lia) eq_refl eq_refl eq_refl) as Hcmp.
  split.
  - apply (Hcmp 0 1); [vm_compute; lia..|]. vm_compute. lia.
  - destruct (proj2 (Hcmp 1 0 ltac:(vm_compute; lia) ltac:(vm_compute; lia)))
      as (bi & bj & Hbi & Hbj & HD); [vm_compute; lia|].
    vm_compute in Hbi, Hbj. by simplify_eq.
Defined.

(** ** DeviceGreen: what [_prepare] does to the cache and the providers *)

Section PrepareEffects.
Import DeviceGreen.
Context {T energy kpoint sparse : Type}.
Context `{TileOps T} `{Numerics energy kpoint} `{SparseOps T energy sparse}.

Abbreviation device := (@device T energy kpoint sparse).
Abbreviation state := (@state T energy kpoint).
Abbreviation electrode := (@electrode T energy kpoint).
Abbreviation calls_of E k els :=
  (rev ((fun el : electrode => (name el, E, k)) <$> els)).
Abbreviation gamma_only gamma :=
  {| d_gamma := Some gamma; d_A := None; d_B := None; d_C := None;
     d_tX := None; d_tY := None; d_E := None; d_k := None |}.

(** The electrode loop of [_prepare] when every provider returns. *)
Lemma prepare_loop_ok (els : list electrode) E k (SEs : list T)
    (acc : sparse * list T) (st : state) :
  Forall2 (fun el se => self_energy el E k = Ok se) els SEs →
  forS els acc (fun elec '(inv_G, gamma) =>
      bind (call_self_energy elec E k) (fun SE =>
      ret (sp_isub inv_G (pvt_dev elec) SE,
           gamma ++ [se2scat elec SE]))) st
  = (Ok (foldl (fun G p => sp_isub G (pvt_dev p.1) p.2) acc.1 (zip els SEs),
         acc.2 ++ zip_with se2scat els SEs),
     {| data := data st; se_calls := calls_of E k els ++ se_calls st |}).
Proof.
  intros Hall. revert acc st.
  induction Hall as [|el se els SEs Hse _ IH]; intros [G gamma] st; simpl.
  - unfold ret. rewrite app_nil_r. by destruct st.
  - unfold bind at 1. unfold bind at 1. unfold call_self_energy at 1.
    rewrite Hse. unfold ret at 1. rewrite IH. simpl.
    by rewrite <-!app_assoc.
Qed.

(** ... and when the provider after the electrodes [pre] raises. *)
Lemma prepare_loop_err (pre post : list electrode) (el : electrode) E k
    (SEs : list T) (e : exn) (acc : sparse * list T) (st : state) :
  Forall2 (fun el se => self_energy el E k = Ok se) pre SEs →
  self_energy el E k = Err e →
  forS (pre ++ el :: post) acc (fun elec '(inv_G, gamma) =>
      bind (call_self_energy elec E k) (fun SE =>
      ret (sp_isub inv_G (pvt_dev elec) SE,
           gamma ++ [se2scat elec SE]))) st
  = (Err e,
     {| data := data st;
        se_calls := calls_of E k (pre ++ [el]) ++ se_calls st |}).
Proof.
  intros Hall Hel. revert acc st.
  induction Hall as [|el' se pre SEs Hse _ IH]; intros [G gamma] st; simpl.
  - unfold bind at 1. unfold bind at 1. unfold call_self_energy at 1.
    by rewrite Hel.
  - unfold bind at 1. unfold bind at 1. unfold call_self_energy at 1.
    rewrite Hse. unfold ret at 1. rewrite IH. simpl.
    by rewrite <-!app_assoc.
Qed.

Lemma prepare_loop_returns (els : list electrode) E k
    (acc r : sparse * list T) (st st' : state) :
  forS els acc (fun elec '(inv_G, gamma) =>
      bind (call_self_energy elec E k) (fun SE =>
      ret (sp_isub inv_G (pvt_dev elec) SE,
           gamma ++ [se2scat elec SE]))) st = (Ok r, st') →
  ∃ SEs, Forall2 (fun el se => self_energy el E k = Ok se) els SEs.
Proof.
  revert acc st. induction els as [|el els IH]; intros [G gamma] st; simpl.
  - intros _. exists []. constructor.
  - unfold bind at 1. unfold bind at 1. unfold call_self_energy at 1.
    destruct (self_energy el E k) as [se|e] eqn:Hse; [|done].
    unfold ret at 1. intros [SEs HSEs]%IH. exists (se :: SEs).
    by constructor.
Qed.

(** X6.  A [DeviceGreen] without electrodes cannot be prepared: on a
    cache that carries no [E], [_prepare] raises [UnboundLocalError] at
    [del SE] (the loop variable was never bound), leaves the cache
    empty, and so does [green] for every format, valid or not. *)
Theorem prepare_without_electrodes (self : device) (E : energy) (k : kpoint)
    (st : state) :
  elecs self = [] →
  d_E (data st) = None →
  let st' := {| data := empty_cache; se_calls := se_calls st |} in
  _prepare self E k st = (Err (UnboundLocalError "SE"), st')
  ∧ ∀ format, green self E k format st = (Err (UnboundLocalError "SE"), st').
Proof.
  intros Hels HE st'.
  assert (Hprep : _prepare self E k st = (Err (UnboundLocalError "SE"), st')).
  { unfold _prepare. unfold bind at 1. rewrite check_Ek_fresh by done.
    unfold _prepare_body. rewrite Hels. simpl.
    reflexivity. }
  split; [done|]. intros format. unfold green. unfold bind at 1.
  by rewrite Hprep.
Qed.

(** X7.  A device with fewer than two BTD blocks cannot be prepared
    either: with every provider returning, [_prepare] on a cache
    without [E] raises [IndexError] when it slices the first two
    blocks, after it has called every provider and stored [gamma]; the
    cache is left with [gamma] only. *)
Theorem prepare_needs_two_blocks (self : device) (E : energy) (k : kpoint)
    (SEs : list T) (st : state) :
  length (btd self) < 2 →
  elecs self ≠ [] →
  Forall2 (fun el se => self_energy el E k = Ok se) (elecs self) SEs →
  d_E (data st) = None →
  _prepare self E k st
  = (Err IndexError,
     {| data := gamma_only (zip_with se2scat (elecs self) SEs);
        se_calls := calls_of E k (elecs self) ++ se_calls st |}).
Proof.
  intros Hnb Hels Hall HE.
  unfold _prepare. unfold bind at 1. rewrite check_Ek_fresh by done.
  unfold _prepare_body. unfold bind at 1.
  rewrite (prepare_loop_ok _ _ _ SEs) by done.
  unfold bind at 1, lift at 1. rewrite decide_False by done.
  unfold bind at 1, modify_data at 1. unfold bind at 1, lift at 1.
  assert (Hext : ∀ G, extract_tiles self G = Err IndexError).
  { intros G. unfold extract_tiles, index.
    destruct (btd_cum self !! 0) as [c0|] eqn:Hc0; [|done]. simpl.
    destruct (btd_cum self !! 1) as [c1|] eqn:Hc1; [|done].
    apply lookup_lt_Some in Hc1. unfold btd_cum in Hc1.
    rewrite length_cumsum in Hc1. lia. }
  by rewrite Hext.
Qed.

(** X8.  On a cache without [E], a [_prepare(E, k)] that returns has
    called [self_energy(E, k)] of every electrode exactly once, in the
    order of [self.elecs], and stored [gamma[i] = se2scat_i(Σ_i)] in
    that order. *)
Theorem prepare_calls_each_provider_once (self : device) (E : energy)
    (k : kpoint) (st st1 : state) :
  d_E (data st) = None →
  _prepare self E k st = (Ok tt, st1) →
  ∃ SEs,
    Forall2 (fun el se => self_energy el E k = Ok se) (elecs self) SEs
    ∧ d_gamma (data st1) = Some (zip_with se2scat (elecs self) SEs)
    ∧ se_calls st1 = calls_of E k (elecs self) ++ se_calls st.
Proof.
  intros HE. unfold _prepare. unfold bind at 1.
  rewrite check_Ek_fresh by done.
  unfold _prepare_body. unfold bind at 1.
  destruct (forS _ _ _ _) as [[r|e] st'] eqn:Hloop; [|done].
  destruct (prepare_loop_returns _ _ _ _ _ _ _ Hloop) as [SEs HSEs].
  rewrite (prepare_loop_ok _ _ _ SEs) in Hloop by done.
  injection Hloop as <- <-. simpl.
  unfold bind, lift, modify_data.
  destruct (decide (elecs self = [])); [done|].
  destruct (extract_tiles self _) as [[[A B] C]|e]; [|done].
  destruct (propagation_tiles _ A B C) as [[tX tY]|e]; [|done].
  intros [= <-]. exists SEs. by simpl.
Qed.

(** X9.  When the provider of one electrode raises and those before it
    return, [_prepare] on a cache without [E] raises the same
    exception: the electrodes up to the failing one were called once
    each, none after it, and the cache is left empty. *)
Theorem prepare_stops_at_failing_provider (self : device) (E : energy)
    (k : kpoint) (pre post : list electrode) (el : electrode)
    (SEs : list T) (e : exn) (st : state) :
  elecs self = pre ++ el :: post →
  Forall2 (fun el se => self_energy el E k = Ok se) pre SEs →
  self_energy el E k = Err e →
  d_E (data st) = None →
  _prepare self E k st
  = (Err e,
     {| data := empty_cache;
        se_calls := calls_of E k (pre ++ [el]) ++ se_calls st |}).
Proof.
  intros Hels Hall Hel HE.
  unfold _prepare. unfold bind at 1. rewrite check_Ek_fresh by done.
  unfold _prepare_body. unfold bind at 1. rewrite Hels.
  by rewrite (prepare_loop_err pre post el E k SEs e).
Qed.

(** X10.  [_prepare_se] (the preparation step of [eigenchannel]) on a
    cache that carries [E0] and [k0]: when [(E, k)] is close to them it
    returns at once, calls no provider and leaves the cache alone; when
    it is not, and every provider returns, it empties the cache, calls
    every provider once and stores [gamma] only, so the tiles [A], [B],
    [C], [tX], [tY] of an earlier [_prepare] are gone and [E] is
    unset. *)
Theorem prepare_se_on_prepared_cache (self : device) (E E0 : energy)
    (k k0 : kpoint) (SEs : list T) (st : state) :
  d_E (data st) = Some E0 →
  d_k (data st) = Some k0 →
  (allclose_E E0 E = true → allclose_k k0 k = true →
     _prepare_se self E k st = (Ok tt, st))
  ∧ (allclose_E E0 E = false ∨ allclose_k k0 k = false →
     Forall2 (fun el se => self_energy el E k = Ok se) (elecs self) SEs →
     _prepare_se self E k st
     = (Ok tt,
        {| data := gamma_only (zip_with se2scat (elecs self) SEs);
           se_calls := calls_of E k (elecs self) ++ se_calls st |})).
Proof.
  intros HE Hk. split.
  - intros HaE Hak. unfold _prepare_se. unfold bind at 1.
    by rewrite (check_Ek_hit E k st E0 k0).
  - intros Hfar Hall. unfold _prepare_se. unfold bind at 1.
    assert (Hmiss : _check_Ek E k st
      = (Ok false, {| data := empty_cache; se_calls := se_calls st |})).
    { unfold _check_Ek, bind, get_data, lift, reset, modify_data, ret.
      rewrite HE, Hk. simpl.
      destruct (allclose_E E0 E); [|done].
      destruct (allclose_k k0 k); [|done]. by destruct Hfar. }
    rewrite Hmiss. unfold _prepare_se_body. unfold bind at 1.
    by rewrite (prepare_se_loop _ _ _ SEs) by done.
Qed.

(** The block [b] of the BTD partition as a slice. *)
Abbreviation blk self b :=
  (default 0 ((0 :: btd_cum self) !! b),
   default 0 ((0 :: btd_cum self) !! (b + 1))).

(** The three lists during the block extraction of [_prepare], before
    the iteration [b] of its loop. *)
Abbreviation extracted self G b sl0 slp A B C :=
  (sl0 = blk self (b - 1) ∧ slp = blk self b
   ∧ length A = length (btd self) ∧ length B = length (btd self)
   ∧ length C = length (btd self)
   ∧ (∀ i, i < b →
        A !! i = Some (SArr (sp_block G (blk self i) (blk self i))))
   ∧ (∀ i, i + 1 < b →
        B !! i = Some (SArr (sp_block G (blk self (i + 1)) (blk self i))))
   ∧ (∀ i, b ≤ i + 1 → i < length (btd self) → B !! i = Some (SInt 1))
   ∧ (∀ i, 1 ≤ i ≤ b →
        C !! i = Some (SArr (sp_block G (blk self (i - 1)) (blk self i))))
   ∧ C !! 0 = Some (SInt 1)).

Lemma extract_tiles_blocks (self : device) (G : sparse)
    (A B C : list (slot T)) :
  extract_tiles self G = Ok (A, B, C) →
  let nb := length (btd self) in
  (∀ b, b < nb →
     A !! b = Some (SArr (sp_block G (blk self b) (blk self b))))
  ∧ (∀ b, b + 1 < nb →
       B !! b = Some (SArr (sp_block G (blk self (b + 1)) (blk self b))))
  ∧ B !! (nb - 1) = Some (SInt 1)
  ∧ (∀ b, 1 ≤ b < nb →
       C !! b = Some (SArr (sp_block G (blk self (b - 1)) (blk self b))))
  ∧ C !! 0 = Some (SInt 1).
Proof.
  unfold extract_tiles. intros Hrun. cbv zeta in *.
  set (nb := length (btd self)) in *.
  destruct (index (btd_cum self) 0) as [c0|] eqn:Hc0; simpl in Hrun; [|done].
  destruct (index (btd_cum self) 1) as [c1|] eqn:Hc1; simpl in Hrun; [|done].
  assert (Hnb : 2 ≤ nb).
  { apply index_Ok_lt in Hc1. unfold btd_cum in Hc1.
    rewrite length_cumsum in Hc1. unfold nb. lia. }
  apply index_Ok in Hc0, Hc1.
  rewrite !setindex_lt in Hrun by (rewrite length_replicate; lia).
  simpl in Hrun.
  destruct (forM _ _ _) as [[[[[sl0 slp] A1] B1] C1]|] eqn:Hloop;
    simpl in Hrun; [|done].
  eapply (forM_range_sound _
    (fun b (s : (nat * nat) * (nat * nat) * list (slot T) * list (slot T)
                * list (slot T)) =>
       let '(sl0, slp, A, B, C) := s in
       extracted self G b sl0 slp A B C)) in Hloop; [|lia| |].
  - destruct Hloop
      as (-> & -> & HlA & HlB & HlC & HA & HB & HB1 & HC & HC0).
    unfold neg_index in Hrun. rewrite HlA, HlB in Hrun.
    rewrite !decide_True in Hrun by lia. simpl in Hrun.
    rewrite !setindex_lt in Hrun by lia. simpl in Hrun.
    injection Hrun as <- <- <-.
    replace (nb - 1 - 1) with (nb - 2) by lia.
    split; [|split; [|split; [|split]]].
    + intros b Hb. destruct (decide (b = nb - 1)) as [->|Hne].
      * by rewrite list_lookup_insert_eq by lia.
      * rewrite list_lookup_insert_ne by lia. apply HA. lia.
    + intros b Hb. destruct (decide (b = nb - 2)) as [->|Hne].
      * rewrite list_lookup_insert_eq by lia.
        by replace (nb - 2 + 1) with (nb - 1) by lia.
      * rewrite list_lookup_insert_ne by lia. apply HB. lia.
    + rewrite list_lookup_insert_ne by lia. apply HB1; lia.
    + intros b Hb. apply HC. lia.
    + done.
  - simpl. rewrite Hc0, Hc1. simpl.
    rewrite !length_insert, !length_replicate.
    repeat split; try done.
    + intros i Hi. replace i with 0 by lia.
      rewrite list_lookup_insert_eq by (rewrite length_replicate; lia).
      simpl. by rewrite Hc0.
    + intros i Hi. lia.
    + intros i _ Hi. apply lookup_replicate_2. lia.
    + intros i Hi. replace i with 1 by lia.
      rewrite list_lookup_insert_eq by (rewrite length_replicate; lia).
      simpl. by rewrite Hc0, Hc1.
    + rewrite list_lookup_insert_ne by lia. apply lookup_replicate_2. lia.
  - intros b [[[[sl0' slp'] A'] B'] C'] s1 Hb
      (-> & -> & HlA & HlB & HlC & HA & HB & HB1 & HC & HC0).
    unfold extract_step.
    destruct (index (btd_cum self) b) as [cb|] eqn:Hcb; simpl; [|done].
    destruct (index (btd_cum self) (b + 1)) as [cb1|] eqn:Hcb1; simpl;
      [|done].
    apply index_Ok in Hcb, Hcb1.
    rewrite !setindex_lt by lia. simpl. intros [= <-].
    rewrite !length_insert.
    assert (Hblk : (cb, cb1) = blk self (b + 1)).
    { replace (b + 1 + 1) with (S (S b)) by lia.
      replace (b + 1) with (S b) in * by lia. simpl. by rewrite Hcb, Hcb1. }
    replace (b + 1 - 1) with b by lia.
    split; [done|]. split; [done|]. repeat split; try done.
    + intros i Hi. destruct (decide (i = b)) as [->|Hne].
      * by rewrite list_lookup_insert_eq by lia.
      * rewrite list_lookup_insert_ne by lia. apply HA. lia.
    + intros i Hi. destruct (decide (i = b - 1)) as [->|Hne].
      * rewrite list_lookup_insert_eq by lia.
        by replace (b - 1 + 1) with b by lia.
      * rewrite list_lookup_insert_ne by lia. apply HB. lia.
    + intros i Hi Hi'. rewrite list_lookup_insert_ne by lia.
      apply HB1; lia.
    + intros i Hi. destruct (decide (i = b + 1)) as [->|Hne].
      * rewrite list_lookup_insert_eq by lia.
        replace (b + 1 - 1) with b by lia. by rewrite Hblk.
      * rewrite list_lookup_insert_ne by lia. apply HC. lia.
    + rewrite list_lookup_insert_ne by lia. done.
Qed.

(** X11.  After a [_prepare(E, k)] that returns on a cache without
    [E], the lists of the cache hold the blocks of the matrix
    [inv_G] = pivoted [S(k)·E − H(k)] with every Σ subtracted at its
    electrode's orbitals: [A[b]] is the diagonal block (b, b), [B[b]]
    the block (b+1, b) below it and [C[b]] the block (b−1, b) above
    it; [B[nb−1]] and [C[0]], for which no such block exists, keep
    their placeholder 1. *)
Theorem prepare_tiles_are_blocks (self : device) (E : energy) (k : kpoint)
    (st st1 : state) :
  d_E (data st) = None →
  _prepare self E k st = (Ok tt, st1) →
  let nb := length (btd self) in
  ∃ SEs A B C,
    Forall2 (fun el se => self_energy el E k = Ok se) (elecs self) SEs
    ∧ d_A (data st1) = Some A ∧ d_B (data st1) = Some B
    ∧ d_C (data st1) = Some C
    ∧ let inv_G :=
        foldl (fun G p => sp_isub G (pvt_dev p.1) p.2)
          (sp_pivot (sp_sub (sp_scale (H_Sk self k) E) (H_Hk self k))
             (pvt self))
          (zip (elecs self) SEs) in
      (∀ b, b < nb →
         A !! b = Some (SArr (sp_block inv_G (blk self b) (blk self b))))
      ∧ (∀ b, b + 1 < nb →
           B !! b
           = Some (SArr (sp_block inv_G (blk self (b + 1)) (blk self b))))
      ∧ B !! (nb - 1) = Some (SInt 1)
      ∧ (∀ b, 1 ≤ b < nb →
           C !! b
           = Some (SArr (sp_block inv_G (blk self (b - 1)) (blk self b))))
      ∧ C !! 0 = Some (SInt 1).
Proof.
  intros HE. unfold _prepare. unfold bind at 1.
  rewrite check_Ek_fresh by done.
  unfold _prepare_body. unfold bind at 1.
  destruct (forS _ _ _ _) as [[r|e] st'] eqn:Hloop; [|done].
  destruct (prepare_loop_returns _ _ _ _ _ _ _ Hloop) as [SEs HSEs].
  rewrite (prepare_loop_ok _ _ _ SEs) in Hloop by done.
  injection Hloop as <- <-. simpl.
  unfold bind, lift, modify_data.
  destruct (decide (elecs self = [])); [done|].
  destruct (extract_tiles self _) as [[[A B] C]|e] eqn:Hext; [|done].
  destruct (propagation_tiles _ A B C) as [[tX tY]|e]; [|done].
  intros [= <-]. exists SEs, A, B, C. simpl.
  split; [done|]. split; [done|]. split; [done|]. split; [done|].
  by apply extract_tiles_blocks.
Qed.

End PrepareEffects.

Lemma prepare_without_electrodes_witness :
  DeviceGreen._prepare ZTile.bare 1%Z 0%Z ZTile.fresh
  = (Err (UnboundLocalError "SE"), ZTile.fresh)
  ∧ DeviceGreen.green ZTile.bare 1%Z 0%Z "btd" ZTile.fresh
    = (Err (UnboundLocalError "SE"), ZTile.fresh).
Proof.
  destruct (prepare_without_electrodes ZTile.bare 1%Z 0%Z ZTile.fresh
              eq_refl eq_refl) as [Hp Hg].
  split; [exact Hp|exact (Hg "btd")].
Defined.

Lemma prepare_needs_two_blocks_witness :
  DeviceGreen._prepare ZTile.one_block 1%Z 0%Z ZTile.fresh
  = (Err IndexError,
     {| DeviceGreen.data :=
          {| DeviceGreen.d_gamma := Some [1%Z; 1%Z];
             DeviceGreen.d_A := None; DeviceGreen.d_B := None;
             DeviceGreen.d_C := None; DeviceGreen.d_tX := None;
             DeviceGreen.d_tY := None; DeviceGreen.d_E := None;
             DeviceGreen.d_k := None |};
        DeviceGreen.se_calls := [("R", 1%Z, 0%Z); ("L", 1%Z, 0%Z)] |}).
Proof.
  apply (prepare_needs_two_blocks ZTile.one_block 1%Z 0%Z [0%Z; 0%Z]
           ZTile.fresh).
  - simpl. lia.
  - discriminate.
  - repeat constructor.
  - reflexivity.
Defined.

Lemma prepare_calls_each_provider_once_witness :
  ∃ SEs,
    Forall2 (fun el se => DeviceGreen.self_energy el 1%Z 0%Z = Ok se)
      (DeviceGreen.elecs ZTile.toy) SEs
    ∧ DeviceGreen.d_gamma (DeviceGreen.data ZTile.prepared)
      = Some (zip_with DeviceGreen.se2scat (DeviceGreen.elecs ZTile.toy) SEs)
    ∧ DeviceGreen.se_calls ZTile.prepared
      = [("R", 1%Z, 0%Z); ("L", 1%Z, 0%Z)].
Proof.
  apply (prepare_calls_each_provider_once ZTile.toy 1%Z 0%Z ZTile.fresh
           ZTile.prepared).
  - reflexivity.
  - vm_compute. reflexivity.
Defined.

Lemma prepare_stops_at_failing_provider_witness :
  DeviceGreen._prepare ZTile.broken 1%Z 0%Z ZTile.fresh
  = (Err (ValueError "no such energy"),
     {| DeviceGreen.data := DeviceGreen.empty_cache;
        DeviceGreen.se_calls := [("M", 1%Z, 0%Z); ("L", 1%Z, 0%Z)] |}).
Proof.
  apply (prepare_stops_at_failing_provider ZTile.broken 1%Z 0%Z
           [ZTile.elec_L] [ZTile.elec_R] ZTile.elec_bad [0%Z]
           (ValueError "no such energy") ZTile.fresh).
  - reflexivity.
  - repeat constructor.
  - reflexivity.
  - reflexivity.
Defined.

Lemma prepare_se_on_prepared_cache_witness :
  DeviceGreen._prepare_se ZTile.toy 1%Z 0%Z ZTile.prepared
  = (Ok tt, ZTile.prepared)
  ∧ DeviceGreen._prepare_se ZTile.toy 2%Z 0%Z ZTile.prepared
    = (Ok tt,
       {| DeviceGreen.data :=
            {| DeviceGreen.d_gamma := Some [3%Z; 0%Z];
               DeviceGreen.d_A := None; DeviceGreen.d_B := None;
               DeviceGreen.d_C := None; DeviceGreen.d_tX := None;
               DeviceGreen.d_tY := None; DeviceGreen.d_E := None;
               DeviceGreen.d_k := None |};
          DeviceGreen.se_calls :=
            [("R", 2%Z, 0%Z); ("L", 2%Z, 0%Z);
             ("R", 1%Z, 0%Z); ("L", 1%Z, 0%Z)] |}).
Proof.
  split.
  - apply (proj1 (prepare_se_on_prepared_cache ZTile.toy 1%Z 1%Z 0%Z 0%Z []
                    ZTile.prepared eq_refl eq_refl)); reflexivity.
  - apply (proj2 (prepare_se_on_prepared_cache ZTile.toy 2%Z 1%Z 0%Z 0%Z
                    [1%Z; (-1)%Z] ZTile.prepared eq_refl eq_refl)).
    + left. reflexivity.
    + repeat constructor.
Defined.

Lemma prepare_tiles_are_blocks_witness :
  ∃ A B C,
    DeviceGreen.d_A (DeviceGreen.data ZTile.prepared) = Some A
    ∧ DeviceGreen.d_B (DeviceGreen.data ZTile.prepared) = Some B
    ∧ DeviceGreen.d_C (DeviceGreen.data ZTile.prepared) = Some C
    ∧ A !! 1 = Some (SArr 1%Z) ∧ B !! 0 = Some (SArr 1%Z)
    ∧ B !! 2 = Some (SInt 1) ∧ C !! 1 = Some (SArr 2%Z)
    ∧ C !! 0 = Some (SInt 1).
Proof.
  destruct (prepare_tiles_are_blocks ZTile.toy 1%Z 0%Z ZTile.fresh
              ZTile.prepared eq_refl)
    as (SEs & A & B & C & HSEs & HA & HB & HC & Hblocks);
    [vm_compute; reflexivity|].
  exists A, B, C. split; [done|]. split; [done|]. split; [done|].
  vm_compute in HA, HB, HC. simplify_eq. vm_compute. done.
Defined.

(** ** DeviceGreen: the public methods *)

Lemma lower_ascii_idempotent (c : ascii) :
  lower_ascii (lower_ascii c) = lower_ascii c.
Proof. destruct c as [[] [] [] [] [] [] [] []]; vm_compute; reflexivity. Qed.

Lemma lower_idempotent (s : string) : lower (lower s) = lower s.
Proof.
  induction s as [|c s IH]; simpl; [done|].
  by rewrite lower_ascii_idempotent, IH.
Qed.

Lemma bind_Ok {A B : Type} (x : result A) (f : A → result B) (b : B) :
  x ≫= f = Ok b → ∃ a, x = Ok a ∧ f a = Ok b.
Proof. destruct x as [a|e]; simpl; [by eauto|done]. Qed.

Ltac invert_bind Hrun :=
  repeat
    (apply bind_Ok in Hrun as (? & _ & Hrun); cbv beta zeta in Hrun;
     repeat match type of Hrun with
            | context [let '(_, _) := ?p in _] => destruct p
            end).

Section MethodFacts.
Import DeviceGreen.
Context {T energy kpoint sparse R : Type}.
Context `{TileOps T} `{Numerics energy kpoint} `{SparseOps T energy sparse}.
Context `{RealOps R} `{Lapack T R}.
Variable recursion_limit : nat.

Abbreviation device := (@device T energy kpoint sparse).
Abbreviation state := (@state T energy kpoint).
Abbreviation electrode := (@electrode T energy kpoint).
Abbreviation elec_arg := (@elec_arg T energy kpoint).
Abbreviation spectral :=
  (@spectral T energy kpoint sparse _ _ _ recursion_limit).
Abbreviation scattering_state :=
  (@scattering_state T energy kpoint sparse R _ _ _ _ _ recursion_limit).

(** *** Electrode arguments *)

Lemma find_name_Some (els : list electrode) (n i : nat) (s : string) :
  find_name els n s = Some i →
  n ≤ i
  ∧ ∃ el, els !! (i - n) = Some el ∧ name el = s
      ∧ ∀ j el', j < i - n → els !! j = Some el' → name el' ≠ s.
Proof.
  revert n. induction els as [|el els IH]; intros n; simpl; [done|].
  destruct (decide (name el = s)) as [Hs|Hs].
  - intros [= <-]. split; [lia|]. exists el.
    rewrite Nat.sub_diag. simpl. split; [done|]. split; [done|].
    intros; lia.
  - intros (Hle & el0 & Hel0 & Hn0 & Hfirst)%IH. split; [lia|].
    exists el0. replace (i - n) with (S (i - S n)) by lia. simpl.
    split; [done|]. split; [done|].
    intros [|j] el' Hj; simpl; [by intros [= <-]|].
    intros Hel'. apply (Hfirst j el'); [lia|done].
Qed.

Lemma find_name_None (els : list electrode) (n : nat) (s : string) :
  find_name els n s = None → Forall (fun el => name el ≠ s) els.
Proof.
  revert n. induction els as [|el els IH]; intros n; simpl; [constructor|].
  destruct (decide (name el = s)); [done|].
  intros Hrest%IH. by constructor.
Qed.

(** X12.  [_elec] and [_elec_name] are inverse on names: for every
    string, [_elec_name(_elec(name))] is the string again.  A string
    that names an electrode is turned into the position of the first
    electrode of that name, a valid index of [self.elecs]; a
    [PivotSelfEnergy] object is treated as its name; an integer is
    handed back as it is; and [_elec] applied twice is [_elec]. *)
Theorem elec_name_round_trip (self : device) (s : string) (el : electrode)
    (z : Z) (arg : elec_arg) :
  _elec_name self (_elec self (EStr s)) = Ok s
  ∧ (Exists (fun el => name el = s) (elecs self) →
     ∃ i el0,
       _elec self (EStr s) = EInt (Z.of_nat i)
       ∧ elecs self !! i = Some el0 ∧ name el0 = s
       ∧ ∀ j el', j < i → elecs self !! j = Some el' → name el' ≠ s)
  ∧ _elec self (EObj el) = _elec self (EStr (name el))
  ∧ _elec self (EInt z) = EInt z
  ∧ _elec self (_elec self arg) = _elec self arg.
Proof.
  assert (Hstr : ∀ s',
    (∃ i el0, find_name (elecs self) 0 s' = Some i
       ∧ _elec self (EStr s') = EInt (Z.of_nat i)
       ∧ elecs self !! i = Some el0 ∧ name el0 = s'
       ∧ ∀ j el', j < i → elecs self !! j = Some el' → name el' ≠ s')
    ∨ (find_name (elecs self) 0 s' = None
       ∧ _elec self (EStr s') = EStr s'
       ∧ Forall (fun el => name el ≠ s') (elecs self))).
  { intros s'. unfold _elec.
    destruct (find_name (elecs self) 0 s') as [i|] eqn:Hfind.
    - left. apply find_name_Some in Hfind as (_ & el0 & Hel0 & Hn0 & Hfirst).
      rewrite Nat.sub_0_r in *. exists i, el0. by eauto 10.
    - right. split; [done|]. split; [done|]. by eapply find_name_None. }
  split; [|split; [|split; [|split]]].
  - destruct (Hstr s) as [(i & el0 & _ & -> & Hel0 & Hn0 & _)|(_ & -> & _)];
      [|done].
    unfold _elec_name, list_getitem.
    rewrite decide_True by (apply lookup_lt_Some in Hel0; lia).
    unfold index. rewrite Nat2Z.id, Hel0. simpl. by rewrite Hn0.
  - intros Hex.
    destruct (Hstr s) as [(i & el0 & _ & ? & ? & ? & ?)|(_ & _ & Hno)];
      [by eauto 10|].
    exfalso. apply Exists_exists in Hex as (el0 & Hin & Hn0).
    rewrite Forall_forall in Hno. by apply (Hno el0).
  - done.
  - done.
  - destruct arg as [s'|z'|el']; [| done |].
    + destruct (Hstr s') as [(i & el0 & _ & -> & _)|(_ & -> & Hno)]; [done|].
      unfold _elec. by rewrite (find_name_unknown _ _ _ Hno).
    + change (_elec self (EObj el')) with (_elec self (EStr (name el'))).
      destruct (Hstr (name el')) as [(i & el0 & _ & -> & _)|(_ & -> & Hno)];
        [done|].
      unfold _elec. by rewrite (find_name_unknown _ _ _ Hno).
Qed.

(** *** The state a public method leaves *)

Lemma green_state (self : device) E k format (st : state) :
  (green self E k format st).2 = (_prepare self E k st).2.
Proof.
  unfold green, bind, get_data, lift.
  destruct (_prepare self E k st) as [[[]|e] st1]; [|done].
  by repeat case_decide.
Qed.

Lemma spectral_state (self : device) elec E k format method herm
    (st : state) :
  (spectral self elec E k format method herm st).2
  = (_prepare self E k st).2.
Proof.
  unfold DeviceGreen.spectral, bind, get_data, lift.
  destruct (_prepare self E k st) as [[[]|e] st1]; [|done].
  by repeat case_decide.
Qed.

Lemma prepare_se_loop_data (els : list electrode) E k (acc : list T)
    (st st' : state) r :
  forS els acc (fun elec gamma =>
      bind (call_self_energy elec E k) (fun SE =>
      ret (gamma ++ [se2scat elec SE]))) st = (r, st') →
  data st' = data st.
Proof.
  revert acc st. induction els as [|el els IH]; intros acc st; simpl.
  - unfold ret. by intros [= <- <-].
  - unfold bind at 1. unfold bind at 1. unfold call_self_energy at 1.
    destruct (self_energy el E k) as [SE|e].
    + unfold ret at 1. by intros Hd%IH.
    + by intros [= <- <-].
Qed.

(** X13.  The cache stays consistent under every public method: if on
    entry the cache carries [E] only together with a complete set of
    prepared tiles, the same holds on exit of [_prepare], [_prepare_se],
    [green], [spectral] and [scattering_state], whatever their
    arguments are and whether they return or raise.  A call that
    raises midway therefore never leaves a half-built cache that a
    later call with the same [(E, k)] would take for prepared. *)
Theorem cache_stays_consistent (self : device) (st : state)
    (E : energy) (k : kpoint) (elec : elec_arg) (format method : string)
    (herm : bool) (cutoff : cutoff_arg) :
  cache_wf self (data st) →
  cache_wf self (data (_prepare self E k st).2)
  ∧ cache_wf self (data (_prepare_se self E k st).2)
  ∧ cache_wf self (data (green self E k format st).2)
  ∧ cache_wf self
      (data (spectral self elec E k format method herm st).2)
  ∧ cache_wf self
      (data (scattering_state self elec E k cutoff method st).2).
Proof.
  intros Hwf.
  assert (Hprep : ∀ E' k' st', cache_wf self (data st') →
    cache_wf self (data (_prepare self E' k' st').2)).
  { intros E' k' st' Hwf'.
    destruct (_prepare self E' k' st') as [r st1] eqn:Hrun.
    by destruct (prepare_wf self E' k' st' st1 r Hwf' Hrun). }
  split; [by apply Hprep|]. split; [|split; [|split]].
  - unfold _prepare_se. unfold bind at 1.
    destruct (check_Ek_cases E k st)
      as [(E0 & k0 & _ & _ & _ & _ & ->)|[[e ->]| ->]]; [done|done|].
    unfold _prepare_se_body. unfold bind at 1.
    destruct (forS _ _ _ _) as [[gamma|e] st'] eqn:Hloop;
      apply prepare_se_loop_data in Hloop; simpl in *.
    + left. simpl. by rewrite Hloop.
    + left. by rewrite Hloop.
  - rewrite green_state. by apply Hprep.
  - rewrite spectral_state. by apply Hprep.
  - unfold DeviceGreen.scattering_state. unfold bind at 1.
    pose proof (Hprep E k st Hwf) as Hwf1.
    destruct (_prepare self E k st) as [[[]|e] st1]; [|done].
    simpl in Hwf1.
    destruct (decide (lower method = "full")) as [Hfull|Hfull].
    + unfold _scattering_state_full.
      unfold bind at 1, get_data at 1.
      destruct (d_E (data st1)) as [E0|]; [|done].
      unfold bind at 1, lift at 1, attr at 1.
      destruct (d_k (data st1)) as [k0|]; [|done].
      unfold bind at 1, lift at 1, attr at 1.
      unfold bind at 1.
      pose proof (spectral_state self (_elec self elec) E0 k0 "array"
                    "column" true st1) as Hst.
      pose proof (Hprep E0 k0 st1 Hwf1) as Hwf2.
      destruct (spectral _ _ _ _ _ _ _ st1) as [[A|e'] st2]; simpl in Hst;
        rewrite <-Hst in Hwf2; [|done].
      unfold bind, get_data, lift. simpl. done.
    + unfold bind, get_data, lift. simpl. done.
Qed.

(** *** Dispatch on the format and method strings *)

(** X14.  [green] reads its [format] case-insensitively and accepts
    "dense" as another name of "array".  The format is looked at only
    after [_prepare]: with a format that is none of array, dense,
    sparse, btd, bm the call still prepares the cache for [(E, k)] and
    then raises [ValueError]; when [_prepare] raises, that exception is
    raised for every format. *)
Theorem green_format_dispatch (self : device) (E : energy) (k : kpoint)
    (format : string) (st : state) :
  green self E k format st = green self E k (lower format) st
  ∧ (lower format = "dense" →
     green self E k format st = green self E k "array" st)
  ∧ (lower format ≠ "array" → lower format ≠ "dense" →
     lower format ≠ "sparse" → lower format ≠ "btd" →
     lower format ≠ "bm" →
     ∀ st1, _prepare self E k st = (Ok tt, st1) →
       green self E k format st
       = (Err (ValueError
            "DeviceGreen.green 'format' not valid input [array,sparse,btd/bm]"),
          st1))
  ∧ (∀ e st1, _prepare self E k st = (Err e, st1) →
       green self E k format st = (Err e, st1)).
Proof.
  split; [|split; [|split]].
  - unfold green. by rewrite lower_idempotent.
  - intros Hd. unfold green, bind, get_data.
    destruct (_prepare self E k st) as [[[]|e] st1]; [|done].
    rewrite Hd. simpl. done.
  - intros Hf1 Hf2 Hf3 Hf4 Hf5 st1 Hprep. unfold green, bind, get_data.
    rewrite Hprep. rewrite decide_False by tauto.
    by rewrite !decide_False by done.
  - intros e st1 Hprep. unfold green, bind. by rewrite Hprep.
Qed.

(** X15.  [spectral] reads [format] and [method] case-insensitively.
    The combinations it serves are array or dense with column or
    propagate, and btd or bm with column; for every other pair (a
    "sparse" format, "propagate" with bm, an unknown word) it prepares
    the cache and then raises [ValueError] naming the lower-cased pair,
    without looking at the electrode argument. *)
Theorem spectral_dispatch (self : device) (elec : elec_arg) (E : energy)
    (k : kpoint) (format method : string) (herm : bool) (st : state) :
  spectral self elec E k format method herm st
  = spectral self elec E k (lower format) (lower method) herm st
  ∧ (¬ ((lower format = "array" ∨ lower format = "dense")
        ∧ (lower method = "column" ∨ lower method = "propagate")) →
     ¬ ((lower format = "btd" ∨ lower format = "bm")
        ∧ lower method = "column") →
     ∀ st1, _prepare self E k st = (Ok tt, st1) →
       spectral self elec E k format method herm st
       = (Err (ValueError
            ("DeviceGreen.spectral combination of format+method not recognized "
               +:+ lower format +:+ "+" +:+ lower method +:+ ".")),
          st1)).
Proof.
  split.
  - unfold DeviceGreen.spectral. by rewrite !lower_idempotent.
  - intros Hno1 Hno2 st1 Hprep.
    unfold DeviceGreen.spectral, bind, get_data, lift. rewrite Hprep.
    repeat case_decide; try done; exfalso; tauto.
Qed.

(** X16.  [scattering_state] reads [method] case-insensitively and
    finds the method by name among the attributes
    [_scattering_state_<method>]: a word other than full, svd,
    propagate and reduce raises [ValueError] after the cache was
    prepared, and "reduce" finds the helper [_scattering_state_reduce]
    and raises a [TypeError], the helper being called without two of
    its arguments (the wording of the message depends on the Python
    version and is left open). *)
Theorem scattering_state_dispatch (self : device) (elec : elec_arg)
    (E : energy) (k : kpoint) (cutoff : cutoff_arg) (method : string)
    (st : state) :
  scattering_state self elec E k cutoff method st
  = scattering_state self elec E k cutoff (lower method) st
  ∧ ∀ st1, _prepare self E k st = (Ok tt, st1) →
      (lower method = "reduce" →
       ∃ msg,
         scattering_state self elec E k cutoff method st
         = (Err (TypeError msg), st1))
      ∧ (lower method ≠ "full" → lower method ≠ "svd" →
         lower method ≠ "propagate" → lower method ≠ "reduce" →
         scattering_state self elec E k cutoff method st
         = (Err (ValueError
              "DeviceGreen.scattering_state method is not [full,svd,propagate]"),
            st1)).
Proof.
  split.
  - unfold DeviceGreen.scattering_state. by rewrite lower_idempotent.
  - intros st1 Hprep. split.
    + intros Hm. unfold DeviceGreen.scattering_state. unfold bind at 1.
      rewrite Hprep, Hm. eexists. reflexivity.
    + intros Hm1 Hm2 Hm3 Hm4. unfold DeviceGreen.scattering_state.
      unfold bind at 1. rewrite Hprep.
      rewrite !decide_False by done.
      unfold bind, get_data, lift. by rewrite !decide_False by done.
Qed.

(** X17.  The [cutoff] of the propagate method: a number is used both
    for the initial space and for the returned states; of a sequence
    with exactly two entries the first cuts the initial space and the
    second the returned states; of a sequence of any other length only
    the first entry is used, for both; an empty sequence raises
    [IndexError] before anything is computed.  The state returned is
    tagged with the method name and these two values. *)
Theorem scattering_propagate_cutoffs (self : device)
    (d : @cache T energy kpoint) (elec : elec_arg) (cutoff : cutoff_arg) :
  _scattering_state_propagate self d elec (CSeq []) = Err IndexError
  ∧ ∀ s, _scattering_state_propagate self d elec cutoff = Ok s →
      info_method (sc_info s) = "propagate"
      ∧ match cutoff with
        | CNum c =>
            info_cutoff_space (sc_info s) = Some c
            ∧ info_cutoff (sc_info s) = CNum c
        | CSeq [c0; c1] =>
            info_cutoff_space (sc_info s) = Some c0
            ∧ info_cutoff (sc_info s) = CNum c1
        | CSeq (c0 :: _) =>
            info_cutoff_space (sc_info s) = Some c0
            ∧ info_cutoff (sc_info s) = CNum c0
        | CSeq [] => False
        end.
Proof.
  split; [done|]. intros s Hrun.
  unfold _scattering_state_propagate in Hrun. cbv zeta in Hrun.
  destruct cutoff as [c|[|c0 [|c1 [|c2 cs]]]]; simpl in Hrun; [| done | | |];
    invert_bind Hrun; injection Hrun as <-; done.
Qed.

End MethodFacts.

Lemma elec_name_round_trip_witness :
  DeviceGreen._elec ZTile.toy (DeviceGreen.EStr "R")
  = DeviceGreen.EInt 1%Z
  ∧ DeviceGreen._elec_name ZTile.toy
      (DeviceGreen._elec ZTile.toy (DeviceGreen.EStr "R")) = Ok "R"%string.
Proof.
  destruct (elec_name_round_trip ZTile.toy "R" ZTile.elec_L 0%Z
              (DeviceGreen.EInt 0%Z)) as (Hname & Hidx & _).
  split; [|exact Hname].
  destruct Hidx as (i & el0 & Hi & Hel0 & _).
  - apply Exists_cons_tl, Exists_cons_hd. reflexivity.
  - vm_compute. reflexivity.
Defined.

Lemma cache_stays_consistent_witness :
  cache_wf ZTile.toy
    (DeviceGreen.data
       (DeviceGreen.green ZTile.toy 1%Z 0%Z "no such format" ZTile.fresh).2)
  ∧ cache_wf ZTile.toy
      (DeviceGreen.data
         (DeviceGreen.scattering_state 100 ZTile.toy (DeviceGreen.EStr "L")
            1%Z 0%Z (DeviceGreen.CNum 0%Z) "full" ZTile.fresh).2).
Proof.
  destruct (cache_stays_consistent (R := Z) 100 ZTile.toy ZTile.fresh 1%Z 0%Z
              (DeviceGreen.EStr "L") "no such format" "full" true
              (DeviceGreen.CNum 0%Z)) as (_ & _ & Hg & _ & Hs).
  - left. reflexivity.
  - split; [exact Hg|exact Hs].
Defined.

Lemma green_format_dispatch_witness :
  DeviceGreen.green ZTile.toy 1%Z 0%Z "Dense" ZTile.fresh
  = DeviceGreen.green ZTile.toy 1%Z 0%Z "array" ZTile.fresh
  ∧ DeviceGreen.green ZTile.toy 1%Z 0%Z "full" ZTile.fresh
    = (Err (ValueError
         "DeviceGreen.green 'format' not valid input [array,sparse,btd/bm]"),
       ZTile.prepared).
Proof.
  destruct (green_format_dispatch ZTile.toy 1%Z 0%Z "Dense" ZTile.fresh)
    as (_ & Hdense & _).
  destruct (green_format_dispatch ZTile.toy 1%Z 0%Z "full" ZTile.fresh)
    as (_ & _ & Hbad & _).
  split; [apply Hdense; reflexivity|].
  apply Hbad; try discriminate. vm_compute. reflexivity.
Defined.

Lemma spectral_dispatch_witness :
  DeviceGreen.spectral 100 ZTile.toy (DeviceGreen.EStr "L") 1%Z 0%Z
    "BM" "Propagate" true ZTile.fresh
  = (Err (ValueError
       "DeviceGreen.spectral combination of format+method not recognized bm+propagate."),
     ZTile.prepared).
Proof.
  apply (proj2 (spectral_dispatch 100 ZTile.toy (DeviceGreen.EStr "L")
                  1%Z 0%Z "BM" "Propagate" true ZTile.fresh)).
  - intros [[Hf|Hf] _]; discriminate Hf.
  - intros [_ Hm]. discriminate Hm.
  - vm_compute. reflexivity.
Defined.

Lemma scattering_state_dispatch_witness :
  (∃ msg,
     DeviceGreen.scattering_state 100 ZTile.toy (DeviceGreen.EStr "L") 1%Z
       0%Z (DeviceGreen.CNum 0%Z) "Reduce" ZTile.fresh
     = (Err (TypeError msg), ZTile.prepared))
  ∧ DeviceGreen.scattering_state 100 ZTile.toy (DeviceGreen.EStr "L") 1%Z 0%Z
      (DeviceGreen.CNum 0%Z) "column" ZTile.fresh
    = (Err (ValueError
         "DeviceGreen.scattering_state method is not [full,svd,propagate]"),
       ZTile.prepared).
Proof.
  split.
  - apply (proj2 (scattering_state_dispatch (R := Z) 100 ZTile.toy
                    (DeviceGreen.EStr "L") 1%Z 0%Z (DeviceGreen.CNum 0%Z)
                    "Reduce" ZTile.fresh) ZTile.prepared);
      [vm_compute; reflexivity|reflexivity].
  - apply (proj2 (scattering_state_dispatch (R := Z) 100 ZTile.toy
                    (DeviceGreen.EStr "L") 1%Z 0%Z (DeviceGreen.CNum 0%Z)
                    "column" ZTile.fresh) ZTile.prepared);
      [vm_compute; reflexivity|discriminate..].
Defined.

Lemma scattering_propagate_cutoffs_witness :
  ∃ s,
    DeviceGreen._scattering_state_propagate (R := Z) ZTile.toy
      (DeviceGreen.data ZTile.prepared) (DeviceGreen.EInt 0%Z)
      (DeviceGreen.CSeq [0%Z; 1%Z; 5%Z]) = Ok s
    ∧ DeviceGreen.info_cutoff_space (DeviceGreen.sc_info s) = Some 0%Z
    ∧ DeviceGreen.info_cutoff (DeviceGreen.sc_info s) = DeviceGreen.CNum 0%Z.
Proof.
  destruct (DeviceGreen._scattering_state_propagate (R := Z) ZTile.toy
              (DeviceGreen.data ZTile.prepared) (DeviceGreen.EInt 0%Z)
              (DeviceGreen.CSeq [0%Z; 1%Z; 5%Z])) as [s|e] eqn:Hrun;
    [|vm_compute in Hrun; discriminate].
  exists s. split; [reflexivity|].
  exact (proj2 (proj2 (scattering_propagate_cutoffs (R := Z) ZTile.toy
                  (DeviceGreen.data ZTile.prepared) (DeviceGreen.EInt 0%Z)
                  (DeviceGreen.CSeq [0%Z; 1%Z; 5%Z])) s Hrun)).
Defined.

(** ** DownfoldSelfEnergy: the cache and short chains *)

Section DownfoldEdges.
Import DownfoldSelfEnergy.
Context {T energy kpoint sparse : Type}.
Context `{TileOps T} `{TileRing T} `{Numerics energy kpoint}.
Context `{SparseOps T energy sparse}.

Abbreviation downfold := (@downfold T energy kpoint sparse).
Abbreviation cache := (@cache energy kpoint sparse).
Abbreviation built self E k :=
  {| d_SeH := Some (build_SeH self E k); d_E := Some E;
     d_k := Some (asarrayd k) |}.

(** X18.  [DownfoldSelfEnergy._prepare] keeps one downfold matrix: on
    a cache without [E], or whose [E] or [k] is not close to the
    requested one, it rebuilds [SeH] for [(E, k)] and records both; on
    a cache whose [E] and [k] are close to the requested ones it
    returns without touching the cache, so that a second
    [_prepare(E, k)] after the first rebuilds nothing. *)
Theorem downfold_prepare_cache (self : downfold) (E : energy) (k : kpoint)
    (d : cache) :
  (d_E d = None → _prepare self E k d = (Ok tt, built self E k))
  ∧ (∀ E0 k0, d_E d = Some E0 → d_k d = Some k0 →
       allclose_E E0 E = false ∨ allclose_k k0 k = false →
       _prepare self E k d = (Ok tt, built self E k))
  ∧ (∀ E0 k0, d_E d = Some E0 → d_k d = Some k0 →
       allclose_E E0 E = true → allclose_k k0 k = true →
       _prepare self E k d = (Ok tt, d))
  ∧ (allclose_E E E = true → allclose_k (asarrayd k) k = true →
     _prepare self E k (built self E k) = (Ok tt, built self E k)).
Proof.
  split; [|split; [|split]].
  - intros HE. unfold _prepare. by rewrite HE.
  - intros E0 k0 HE Hk Hfar. unfold _prepare. rewrite HE, Hk.
    destruct (allclose_E E0 E); [|done].
    destruct (allclose_k k0 k); [|done]. by destruct Hfar.
  - intros E0 k0 HE Hk HaE Hak. unfold _prepare.
    by rewrite HE, Hk, HaE, Hak.
  - intros HaE Hak. unfold _prepare. simpl. by rewrite HaE, Hak.
Qed.

(** X19.  Short chains.  For a downfolding chain of a single block the
    loop of [self_energy] does not run: whenever the wrapped provider
    returns, [self_energy(E, k)] returns the integer 0 it initialised
    [Mr] with (not a matrix), after having built the cache for
    [(E, k)].  For a chain without blocks it raises [IndexError] when
    it slices the first block. *)
Theorem downfold_short_chain (self : downfold) (E : energy) (k : kpoint)
    (d : cache) (se : T) :
  d_E d = None →
  bloch_self_energy self E k = Ok se →
  (length (btd self) = 1 →
     self_energy self E k d = (Ok (SInt 0), built self E k))
  ∧ (length (btd self) = 0 →
     self_energy self E k d = (Err IndexError, built self E k)).
Proof.
  intros HE Hse.
  assert (Hprep : _prepare self E k d = (Ok tt, built self E k))
    by (unfold _prepare; by rewrite HE).
  split.
  - intros Hone. unfold self_energy. rewrite Hprep. simpl. rewrite Hse.
    simpl. rewrite reduce_chain_spec by lia. by rewrite Hone.
  - intros Hnone. unfold self_energy. rewrite Hprep. simpl. rewrite Hse.
    simpl. unfold reduce_chain, block_pvt, cumbtd.
    destruct (btd self); [done|discriminate Hnone].
Qed.

End DownfoldEdges.

Lemma downfold_prepare_cache_witness :
  (DownfoldSelfEnergy._prepare ZTile.chain 1%Z 0%Z
     DownfoldSelfEnergy.empty_cache).1 = Ok tt
  ∧ DownfoldSelfEnergy._prepare ZTile.chain 1%Z 0%Z
      (DownfoldSelfEnergy._prepare ZTile.chain 1%Z 0%Z
         DownfoldSelfEnergy.empty_cache).2
    = DownfoldSelfEnergy._prepare ZTile.chain 1%Z 0%Z
        DownfoldSelfEnergy.empty_cache.
Proof.
  destruct (downfold_prepare_cache ZTile.chain 1%Z 0%Z
              DownfoldSelfEnergy.empty_cache) as (Hmiss & _ & _ & Hhit).
  rewrite (Hmiss eq_refl). split; [reflexivity|].
  apply Hhit; reflexivity.
Defined.

Lemma downfold_short_chain_witness :
  DownfoldSelfEnergy.self_energy ZTile.short_chain 1%Z 0%Z
    DownfoldSelfEnergy.empty_cache
  = (Ok (SInt 0),
     {| DownfoldSelfEnergy.d_SeH :=
          Some (DownfoldSelfEnergy.build_SeH ZTile.short_chain 1%Z 0%Z);
        DownfoldSelfEnergy.d_E := Some 1%Z;
        DownfoldSelfEnergy.d_k := Some 0%Z |}).
Proof.
  exact (proj1 (downfold_short_chain ZTile.short_chain 1%Z 0%Z
                  DownfoldSelfEnergy.empty_cache 1%Z eq_refl eq_refl)
           eq_refl).
Defined.

(** ** DeviceGreen: the full Green function, dense and by blocks *)

Section GreenFull.
Import DeviceGreen.
Context {T energy kpoint sparse : Type}.
Context `{TileOps T} `{Numerics energy kpoint} `{SparseOps T energy sparse}.

Abbreviation device := (@device T energy kpoint sparse).
Abbreviation state := (@state T energy kpoint).
Abbreviation cache := (@cache T energy kpoint).
Abbreviation dense := (gmap (nat * nat) T).

Section Columns.
Variables (nb : nat) (A B C tX tY : list (slot T)).
Hypothesis Htp : tiles_prepared nb A B C tX tY.

(** Column [b] of a matrix read through [f] is the diagonal tile [g]
    continued upwards with [tY] and downwards with [tX]. *)
Abbreviation column_filled f g b :=
  ((f b b : option T) = Some g
   ∧ (∀ a, a < b → ∃ y t, getarr tY (a + 1) = Ok y
        ∧ f (a + 1) b = Some t ∧ f a b = Some (tmul (tneg y) t))
   ∧ (∀ a, b < a < nb → ∃ x t, getarr tX (a - 1) = Ok x
        ∧ f (a - 1) b = Some t ∧ f a b = Some (tmul (tneg x) t))).

Lemma tY_arr (n : nat) : 1 ≤ n < nb → ∃ y, getarr tY n = Ok y.
Proof.
  intros Hn. destruct (tp_tY _ _ _ _ _ _ Htp n Hn) as [[y Hy] _].
  exists y. by apply getarr_arr.
Qed.

Lemma tX_arr (p : nat) : p + 1 < nb → ∃ x, getarr tX p = Ok x.
Proof.
  intros Hp. destruct (tp_tX _ _ _ _ _ _ Htp p Hp) as [[x Hx] _].
  exists x. by apply getarr_arr.
Qed.

(** Two matrices whose column [b] is filled from the same diagonal tile
    have the same column [b]. *)
Lemma column_filled_unique (f f' : nat → nat → option T) (g : T) (b : nat) :
  b < nb → column_filled f g b → column_filled f' g b →
  ∀ a, a < nb → ∃ t, f a b = Some t ∧ f' a b = Some t.
Proof.
  intros Hb (Hd & Hup & Hdn) (Hd' & Hup' & Hdn').
  assert (Habove : ∀ d a, a + d = b → ∃ t, f a b = Some t ∧ f' a b = Some t).
  { induction d as [|d IH]; intros a Ha.
    - replace a with b by lia. by eauto.
    - destruct (IH (a + 1)) as (t & Ht & Ht'); [lia|].
      destruct (Hup a) as (y & t1 & Hy & Ht1 & Hv); [lia|].
      destruct (Hup' a) as (y' & t1' & Hy' & Ht1' & Hv'); [lia|].
      exists (tmul (tneg y) t1). split; [done|].
      rewrite Hv'. repeat f_equal; congruence. }
  assert (Hbelow : ∀ d a, a = b + d → a < nb →
    ∃ t, f a b = Some t ∧ f' a b = Some t).
  { induction d as [|d IH]; intros a Ha Hlt.
    - replace a with b by lia. by eauto.
    - destruct (IH (a - 1)) as (t & Ht & Ht'); [lia..|].
      destruct (Hdn a) as (x & t1 & Hx & Ht1 & Hv); [lia|].
      destruct (Hdn' a) as (x' & t1' & Hx' & Ht1' & Hv'); [lia|].
      exists (tmul (tneg x) t1). split; [done|].
      rewrite Hv'. repeat f_equal; congruence. }
  intros a Ha. destruct (decide (a ≤ b)).
  - apply (Habove (b - a)). lia.
  - apply (Hbelow (a - b)); lia.
Qed.

(** The loops "Do above" and "Do below" of [_green_array], in full. *)
Lemma array_above_full (b m : nat) (G : dense) (t : T) :
  m ≤ b → b < nb → G !! (m, b) = Some t →
  ∃ G' s,
    forM (rev (seq 0 m)) (G, m) (fun a '(G, slp) =>
      y ← getarr tY (a + 1);
      g ← dget G slp b;
      Ok (<[(a, b) := tmul (tneg y) g]> G, a)) = Ok (G', s)
    ∧ (∀ i j, ¬ (j = b ∧ i < m) → G' !! (i, j) = G !! (i, j))
    ∧ (∀ a, a < m → ∃ y t', getarr tY (a + 1) = Ok y
         ∧ G' !! (a + 1, b) = Some t'
         ∧ G' !! (a, b) = Some (tmul (tneg y) t')).
Proof.
  revert G t. induction m as [|m IH]; intros G t Hm Hb Ht.
  - exists G, 0. simpl. split; [done|]. split; [done|]. intros; lia.
  - rewrite seq_S, rev_app_distr. simpl.
    destruct (tY_arr (m + 1)) as [y Hy]; [lia|].
    assert (Hd : dget G (S m) b = Ok t) by (unfold dget; by rewrite Ht).
    rewrite Hy. simpl. rewrite Hd. simpl.
    destruct (IH (<[(m, b) := tmul (tneg y) t]> G) (tmul (tneg y) t))
      as (G' & s & Hrun & Hfr & Hrec);
      [lia|done|by rewrite lookup_insert_eq|].
    exists G', s. split; [done|]. split.
    + intros i j Hij.
      rewrite Hfr by (intros [??]; apply Hij; split; [done|lia]).
      apply lookup_insert_ne. intros [= <- <-]. apply Hij. split; [done|lia].
    + intros a Ha. destruct (decide (a = m)) as [->|Hne].
      * exists y, t. split; [done|].
        rewrite !Hfr by lia. rewrite lookup_insert_eq.
        rewrite lookup_insert_ne by (intros [= ?]; lia).
        replace (m + 1) with (S m) by lia. done.
      * apply Hrec. lia.
Qed.

Lemma array_below_full (b len a0 : nat) (G : dense) (t : T) :
  1 ≤ a0 → a0 + len ≤ nb → G !! (a0 - 1, b) = Some t →
  ∃ G' s,
    forM (seq a0 len) (G, a0 - 1) (fun a '(G, slp) =>
      x ← getarr tX (a - 1);
      g ← dget G slp b;
      Ok (<[(a, b) := tmul (tneg x) g]> G, a)) = Ok (G', s)
    ∧ (∀ i j, ¬ (j = b ∧ a0 ≤ i) → G' !! (i, j) = G !! (i, j))
    ∧ (∀ a, a0 ≤ a < a0 + len → ∃ x t', getarr tX (a - 1) = Ok x
         ∧ G' !! (a - 1, b) = Some t'
         ∧ G' !! (a, b) = Some (tmul (tneg x) t')).
Proof.
  revert a0 G t. induction len as [|len IH]; intros a0 G t Ha0 Hlen Ht.
  - exists G, (a0 - 1). simpl. split; [done|]. split; [done|]. intros; lia.
  - simpl.
    destruct (tX_arr (a0 - 1)) as [x Hx]; [lia|].
    assert (Hd : dget G (a0 - 1) b = Ok t) by (unfold dget; by rewrite Ht).
    rewrite Hx. simpl. rewrite Hd. simpl.
    destruct (IH (S a0) (<[(a0, b) := tmul (tneg x) t]> G) (tmul (tneg x) t))
      as (G' & s & Hrun & Hfr & Hrec); [lia|lia| |].
    { rewrite Nat.sub_succ, Nat.sub_0_r. by rewrite lookup_insert_eq. }
    rewrite Nat.sub_succ, Nat.sub_0_r in Hrun.
    exists G', s. split; [done|]. split.
    + intros i j Hij.
      rewrite Hfr by (intros [??]; apply Hij; split; [done|lia]).
      apply lookup_insert_ne. intros [= <- <-]. apply Hij. split; [done|lia].
    + intros a Ha. destruct (decide (a = a0)) as [->|Hne].
      * exists x, t. split; [done|].
        rewrite !Hfr by lia. rewrite lookup_insert_eq.
        rewrite lookup_insert_ne by (intros [= ?]; lia). done.
      * apply Hrec. lia.
Qed.

(** One column of [_green_array]. *)
Lemma array_column_full (b : nat) (G : dense) :
  b < nb →
  match green_array_column nb A B C tX tY b G with
  | Ok G' =>
      ∃ g, diag_tile nb A B C tX tY b = Ok g
        ∧ (∀ i j, j ≠ b → G' !! (i, j) = G !! (i, j))
        ∧ column_filled (fun i j => G' !! (i, j)) g b
  | Err e => diag_tile nb A B C tX tY b = Err e
  end.
Proof.
  intros Hb. unfold green_array_column.
  destruct (diag_tile nb A B C tX tY b) as [g|e] eqn:Hg; [|done]. simpl.
  replace (range 0 b) with (seq 0 b) by (unfold range; f_equal; lia).
  destruct (array_above_full b b (<[(b, b) := g]> G) g)
    as (G1 & s1 & -> & Hfr1 & Hup); [lia|done|by rewrite lookup_insert_eq|].
  simpl.
  assert (HG1 : G1 !! (b, b) = Some g).
  { rewrite Hfr1 by lia. by rewrite lookup_insert_eq. }
  unfold range.
  destruct (array_below_full b (nb - (b + 1)) (b + 1) G1 g)
    as (G2 & s2 & Hrun2 & Hfr2 & Hdn); [lia|lia| |].
  { by replace (b + 1 - 1) with b by lia. }
  replace (b + 1 - 1) with b in Hrun2 by lia.
  rewrite Hrun2. simpl.
  exists g. split; [done|]. split; [|split; [|split]].
  - intros i j Hj. rewrite Hfr2, Hfr1 by lia.
    apply lookup_insert_ne. congruence.
  - by rewrite Hfr2 by lia.
  - intros a Ha. destruct (Hup a Ha) as (y & t' & Hy & Ht' & Hv).
    exists y, t'. split; [done|]. by rewrite !Hfr2 by lia.
  - intros a Ha. apply Hdn. lia.
Qed.

(** The two inner loops of [_green_bm] in column [b]. *)
Lemma bm_above_full (b m : nat) (Gb : BlockMatrix.t T) (g0 : T) :
  m ≤ b → b < nb → BlockMatrix._M Gb !! (m, b) = Some g0 →
  ∃ Gb' s,
    forM (rev (seq 1 m)) (Gb, g0) (fun bb '(G, G0) =>
      y ← getarr tY bb;
      let G0 := tmul (tneg y) G0 in
      Ok (BlockMatrix.setitem G (bb - 1, b) G0, G0)) = Ok (Gb', s)
    ∧ BlockMatrix.blocks Gb' = BlockMatrix.blocks Gb
    ∧ (∀ i j, ¬ (j = b ∧ i < m) →
         BlockMatrix._M Gb' !! (i, j) = BlockMatrix._M Gb !! (i, j))
    ∧ (∀ a, a < m → ∃ y t', getarr tY (a + 1) = Ok y
         ∧ BlockMatrix._M Gb' !! (a + 1, b) = Some t'
         ∧ BlockMatrix._M Gb' !! (a, b) = Some (tmul (tneg y) t')).
Proof.
  revert Gb g0. induction m as [|m IH]; intros Gb g0 Hm Hb Hg0.
  - exists Gb, g0. simpl. split; [done|]. split; [done|].
    split; [done|]. intros; lia.
  - rewrite seq_S, rev_app_distr. simpl.
    destruct (tY_arr (S m)) as [y Hy]; [lia|]. rewrite Hy. simpl.
    rewrite Nat.sub_0_r.
    destruct (IH (BlockMatrix.setitem Gb (m, b) (tmul (tneg y) g0))
                (tmul (tneg y) g0))
      as (Gb' & s & Hrun & Hbl & Hfr & Hrec);
      [lia|done|by simpl; rewrite lookup_insert_eq|].
    exists Gb', s. split; [done|]. split; [done|]. split.
    + intros i j Hij.
      rewrite Hfr by (intros [??]; apply Hij; split; [done|lia]).
      simpl. apply lookup_insert_ne. intros [= <- <-].
      apply Hij. split; [done|lia].
    + intros a Ha. destruct (decide (a = m)) as [->|Hne].
      * exists y, g0. replace (m + 1) with (S m) by lia.
        split; [done|]. rewrite !Hfr by lia. simpl.
        rewrite lookup_insert_eq.
        by rewrite lookup_insert_ne by (intros [= ?]; lia).
      * apply Hrec. lia.
Qed.

Lemma bm_below_full (b len a0 : nat) (Gb : BlockMatrix.t T) (g0 : T) :
  a0 + len + 1 ≤ nb → BlockMatrix._M Gb !! (a0, b) = Some g0 →
  ∃ Gb' s,
    forM (seq a0 len) (Gb, g0) (fun bb '(G, G0) =>
      x ← getarr tX bb;
      let G0 := tmul (tneg x) G0 in
      Ok (BlockMatrix.setitem G (bb + 1, b) G0, G0)) = Ok (Gb', s)
    ∧ BlockMatrix.blocks Gb' = BlockMatrix.blocks Gb
    ∧ (∀ i j, ¬ (j = b ∧ a0 < i) →
         BlockMatrix._M Gb' !! (i, j) = BlockMatrix._M Gb !! (i, j))
    ∧ (∀ a, a0 < a ≤ a0 + len → ∃ x t', getarr tX (a - 1) = Ok x
         ∧ BlockMatrix._M Gb' !! (a - 1, b) = Some t'
         ∧ BlockMatrix._M Gb' !! (a, b) = Some (tmul (tneg x) t')).
Proof.
  revert a0 Gb g0. induction len as [|len IH]; intros a0 Gb g0 Hlen Hg0.
  - exists Gb, g0. simpl. split; [done|]. split; [done|].
    split; [done|]. intros; lia.
  - simpl.
    destruct (tX_arr a0) as [x Hx]; [lia|]. rewrite Hx. simpl.
    destruct (IH (S a0)
                (BlockMatrix.setitem Gb (a0 + 1, b) (tmul (tneg x) g0))
                (tmul (tneg x) g0))
      as (Gb' & s & Hrun & Hbl & Hfr & Hrec); [lia| |].
    { simpl. replace (a0 + 1) with (S a0) by lia.
      by rewrite lookup_insert_eq. }
    exists Gb', s. split; [done|]. split; [done|]. split.
    + intros i j Hij.
      rewrite Hfr by (intros [??]; apply Hij; split; [done|lia]).
      simpl. apply lookup_insert_ne. intros [= <- <-].
      apply Hij. split; [done|lia].
    + intros a Ha. destruct (decide (a = S a0)) as [->|Hne].
      * exists x, g0. simpl. rewrite Nat.sub_0_r.
        split; [done|]. rewrite !Hfr by lia. simpl.
        replace (a0 + 1) with (S a0) by lia.
        rewrite lookup_insert_eq.
        by rewrite lookup_insert_ne by (intros [= ?]; lia).
      * apply Hrec. lia.
Qed.

(** Every column of the array [_green_array] returns is filled. *)
Lemma array_run_full (G : dense) :
  forM (range 0 nb) (∅ : dense) (green_array_column nb A B C tX tY) = Ok G →
  ∀ b, b < nb →
    ∃ g, diag_tile nb A B C tX tY b = Ok g
      ∧ column_filled (fun i j => G !! (i, j)) g b.
Proof.
  intros Hrun.
  refine (forM_range_sound _ (fun n (G : dense) =>
    ∀ b, b < n → ∃ g, diag_tile nb A B C tX tY b = Ok g
      ∧ column_filled (fun i j => G !! (i, j)) g b) 0 nb ∅ G _ _ _ Hrun);
    [lia|intros; lia|].
  intros n G0 G1 Hn Hinv Hstep b Hb.
  pose proof (array_column_full n G0 ltac:(lia)) as Hcol.
  rewrite Hstep in Hcol. destruct Hcol as (g & Hg & Hfr & Hfill).
  destruct (decide (b = n)) as [->|Hne]; [by eauto|].
  destruct (Hinv b) as (g' & Hg' & Hd & Hup & Hdn); [lia|].
  exists g'. split; [done|]. split; [|split].
  - by rewrite Hfr.
  - intros a Ha. destruct (Hup a Ha) as (y & t & Hy & Ht & Hv).
    exists y, t. by rewrite !Hfr.
  - intros a Ha. destruct (Hdn a Ha) as (x & t & Hx & Ht & Hv).
    exists x, t. by rewrite !Hfr.
Qed.

(** The block matrix [_green_btd] returns holds every diagonal tile. *)
Lemma btd_run_diagonal (Gb0 Gb : BlockMatrix.t T) :
  forM (range 0 nb) Gb0 (green_btd_column nb A B C tX tY) = Ok Gb →
  BlockMatrix.blocks Gb = BlockMatrix.blocks Gb0
  ∧ ∀ b, b < nb →
      ∃ g, diag_tile nb A B C tX tY b = Ok g
        ∧ BlockMatrix._M Gb !! (b, b) = Some g.
Proof.
  intros Hrun.
  refine (forM_range_sound _ (fun n (Gb : BlockMatrix.t T) =>
    BlockMatrix.blocks Gb = BlockMatrix.blocks Gb0
    ∧ ∀ b, b < n → ∃ g, diag_tile nb A B C tX tY b = Ok g
        ∧ BlockMatrix._M Gb !! (b, b) = Some g) 0 nb Gb0 Gb _ _ _ Hrun);
    [lia|split; [done|intros; lia]|].
  intros n G0 G1 Hn [Hbl Hinv]. unfold green_btd_column.
  destruct (diag_tile nb A B C tX tY n) as [g|] eqn:Hg; simpl; [|done].
  intros Hstep.
  assert (Hshape :
    BlockMatrix.blocks G1 = BlockMatrix.blocks G0
    ∧ BlockMatrix._M G1 !! (n, n) = Some g
    ∧ ∀ b, b ≠ n →
        BlockMatrix._M G1 !! (b, b) = BlockMatrix._M G0 !! (b, b)).
  { destruct (decide (0 < n));
      [destruct (getarr tY n); simpl in Hstep; [|done]|];
      (destruct (decide (n < nb - 1));
       [destruct (getarr tX n); simpl in Hstep; [|done]|]);
      simpl in Hstep; injection Hstep as <-; simpl;
      (split; [done|]); split;
      try (intros b Hb);
      repeat first
        [ rewrite lookup_insert_eq
        | rewrite lookup_insert_ne
            by (let Heq := fresh in intros Heq; injection Heq; intros; lia) ];
      done. }
  destruct Hshape as (Hbl1 & Hnn & Hfr).
  split; [congruence|]. intros b Hb.
  destruct (decide (b = n)) as [->|Hne]; [by eauto|].
  rewrite Hfr by done. apply Hinv. lia.
Qed.

(** One column of the loop of [_green_bm]. *)
Lemma bm_column_full (b : nat) (Gb : BlockMatrix.t T) (g : T) :
  b < nb → BlockMatrix._M Gb !! (b, b) = Some g →
  ∃ Gb',
    (G0 ← BlockMatrix.getitem Gb (b, b);
     '(G, _) ← forM (rev (range 1 (b + 1))) (Gb, G0) (fun bb '(G, G0) =>
        y ← getarr tY bb;
        let G0 := tmul (tneg y) G0 in
        Ok (BlockMatrix.setitem G (bb - 1, b) G0, G0));
     G0 ← BlockMatrix.getitem G (b, b);
     '(G, _) ← forM (range b (nb - 1)) (G, G0) (fun bb '(G, G0) =>
        x ← getarr tX bb;
        let G0 := tmul (tneg x) G0 in
        Ok (BlockMatrix.setitem G (bb + 1, b) G0, G0));
     Ok G) = Ok Gb'
    ∧ BlockMatrix.blocks Gb' = BlockMatrix.blocks Gb
    ∧ (∀ i j, j ≠ b →
         BlockMatrix._M Gb' !! (i, j) = BlockMatrix._M Gb !! (i, j))
    ∧ column_filled (fun i j => BlockMatrix._M Gb' !! (i, j)) g b.
Proof.
  intros Hb Hg.
  rewrite (getitem_stored Gb (b, b) g Hg). simpl.
  replace (range 1 (b + 1)) with (seq 1 b) by (unfold range; f_equal; lia).
  destruct (bm_above_full b b Gb g) as (G1 & s1 & Hrun1 & Hbl1 & Hfr1 & Hup);
    [lia|done|done|].
  simpl in Hrun1. rewrite Hrun1. simpl.
  assert (HG1 : BlockMatrix._M G1 !! (b, b) = Some g)
    by (by rewrite Hfr1 by lia).
  rewrite (getitem_stored G1 (b, b) g HG1). simpl.
  unfold range.
  destruct (bm_below_full b (nb - 1 - b) b G1 g)
    as (G2 & s2 & Hrun2 & Hbl2 & Hfr2 & Hdn); [lia|done|].
  simpl in Hrun2. rewrite Hrun2. simpl. exists G2. split; [done|]. split; [congruence|].
  split; [|split; [|split]].
  - intros i j Hj. by rewrite Hfr2, Hfr1 by tauto.
  - by rewrite Hfr2 by lia.
  - intros a Ha. destruct (Hup a Ha) as (y & t' & Hy & Ht' & Hv).
    exists y, t'. split; [done|]. by rewrite !Hfr2 by lia.
  - intros a Ha. apply Hdn. lia.
Qed.

(** The loop of [_green_bm] fills every column. *)
Lemma bm_run_full (Gb : BlockMatrix.t T) :
  (∀ b, b < nb → ∃ g, diag_tile nb A B C tX tY b = Ok g
     ∧ BlockMatrix._M Gb !! (b, b) = Some g) →
  ∃ Gb',
    forM (range 0 nb) Gb (fun b G =>
      G0 ← BlockMatrix.getitem G (b, b);
      '(G, _) ← forM (rev (range 1 (b + 1))) (G, G0) (fun bb '(G, G0) =>
         y ← getarr tY bb;
         let G0 := tmul (tneg y) G0 in
         Ok (BlockMatrix.setitem G (bb - 1, b) G0, G0));
      G0 ← BlockMatrix.getitem G (b, b);
      '(G, _) ← forM (range b (nb - 1)) (G, G0) (fun bb '(G, G0) =>
         x ← getarr tX bb;
         let G0 := tmul (tneg x) G0 in
         Ok (BlockMatrix.setitem G (bb + 1, b) G0, G0));
      Ok G) = Ok Gb'
    ∧ BlockMatrix.blocks Gb' = BlockMatrix.blocks Gb
    ∧ ∀ b, b < nb → ∃ g, diag_tile nb A B C tX tY b = Ok g
        ∧ column_filled (fun i j => BlockMatrix._M Gb' !! (i, j)) g b.
Proof.
  intros Hdiag.
  destruct (forM_range_complete
    (fun b G =>
      G0 ← BlockMatrix.getitem G (b, b);
      '(G, _) ← forM (rev (range 1 (b + 1))) (G, G0) (fun bb '(G, G0) =>
         y ← getarr tY bb;
         let G0 := tmul (tneg y) G0 in
         Ok (BlockMatrix.setitem G (bb - 1, b) G0, G0));
      G0 ← BlockMatrix.getitem G (b, b);
      '(G, _) ← forM (range b (nb - 1)) (G, G0) (fun bb '(G, G0) =>
         x ← getarr tX bb;
         let G0 := tmul (tneg x) G0 in
         Ok (BlockMatrix.setitem G (bb + 1, b) G0, G0));
      Ok G)
    (fun n (G : BlockMatrix.t T) =>
       BlockMatrix.blocks G = BlockMatrix.blocks Gb
       ∧ (∀ b, b < n → ∃ g, diag_tile nb A B C tX tY b = Ok g
            ∧ column_filled (fun i j => BlockMatrix._M G !! (i, j)) g b)
       ∧ (∀ b, n ≤ b → b < nb → ∃ g, diag_tile nb A B C tX tY b = Ok g
            ∧ BlockMatrix._M G !! (b, b) = Some g))
    0 nb Gb) as (Gb' & Hrun & Hbl & Hfill & _).
  - lia.
  - split; [done|]. split; [intros; lia|]. intros b _ Hb. by apply Hdiag.
  - intros n G Hn (Hbl & Hfill & Hrest).
    destruct (Hrest n) as (g & Hg & HGn); [lia..|].
    destruct (bm_column_full n G g) as (G' & HG' & Hbl' & Hfr & Hcol);
      [lia|done|].
    exists G'. split; [exact HG'|]. split; [congruence|]. split.
    + intros b Hb. destruct (decide (b = n)) as [->|Hne]; [by eauto|].
      destruct (Hfill b) as (g' & Hg' & Hd & Hup & Hdn); [lia|].
      exists g'. split; [done|]. split; [|split].
      * by rewrite Hfr.
      * intros a Ha. destruct (Hup a Ha) as (y & t & Hy & Ht & Hv).
        exists y, t. by rewrite !Hfr.
      * intros a Ha. destruct (Hdn a Ha) as (x & t & Hx & Ht & Hv).
        exists x, t. by rewrite !Hfr.
    + intros b Hb Hb'. rewrite Hfr by lia. apply Hrest; lia.
  - exists Gb'. by eauto.
Qed.

(** The dense array and the full block matrix hold the same blocks. *)
Lemma array_bm_same (G : dense) (Gb Gb' : BlockMatrix.t T) :
  forM (range 0 nb) (∅ : dense) (green_array_column nb A B C tX tY) = Ok G →
  (∀ b, b < nb → ∃ g, diag_tile nb A B C tX tY b = Ok g
     ∧ column_filled (fun i j => BlockMatrix._M Gb' !! (i, j)) g b) →
  ∀ i j, i < nb → j < nb →
    ∃ t, G !! (i, j) = Some t ∧ BlockMatrix._M Gb' !! (i, j) = Some t.
Proof.
  intros HG Hbm i j Hi Hj.
  destruct (array_run_full G HG j Hj) as (g & Hg & Hcol).
  destruct (Hbm j Hj) as (g' & Hg' & Hcol').
  assert (g' = g) as -> by congruence.
  by apply (column_filled_unique
              (fun i j => G !! (i, j))
              (fun i j => BlockMatrix._M Gb' !! (i, j)) g j).
Qed.

End Columns.

(** On a prepared cache [_green_array] and [_green_bm] raise the same
    exception or return the same blocks. *)
Lemma green_array_bm_prepared (self : device) (d : cache) :
  prepared self d →
  res_rel (fun (G : dense) (Gb : BlockMatrix.t T) =>
      BlockMatrix.blocks Gb = btd self
      ∧ ∀ i j, i < length (btd self) → j < length (btd self) →
          ∃ t, G !! (i, j) = Some t ∧ BlockMatrix._M Gb !! (i, j) = Some t)
    (_green_array self d) (_green_bm self d).
Proof.
  intros Hp. pose proof (green_array_btd_prepared self d Hp) as Hrel.
  destruct Hp as (gamma & A & B & C & tX & tY & E & k & -> & Htp).
  pose proof (tp_nb _ _ _ _ _ _ Htp) as Hnb.
  unfold _green_bm. unfold _green_array, _green_btd in *. simpl in *.
  destruct (index_lt A 0) as (a0 & Ha0 & _);
    [rewrite (tp_len_A _ _ _ _ _ _ Htp); lia|].
  rewrite Ha0 in *. simpl in *.
  unfold BlockMatrix.len in *. simpl in *.
  destruct (forM (range 0 (length (btd self))) ∅ _) as [G|e] eqn:HG;
    destruct (forM (range 0 (length (btd self))) (BlockMatrix.init _) _)
      as [Gb|e'] eqn:HGb; simpl in *; try done.
  destruct (btd_run_diagonal _ A B C tX tY _ _ HGb) as [Hbl Hdiag].
  simpl in Hbl. rewrite Hbl.
  destruct (bm_run_full _ A B C tX tY Htp Gb Hdiag)
    as (Gb' & Hrun & Hbl' & Hfill).
  simpl in Hrun. rewrite Hrun. split; [congruence|].
  by apply (array_bm_same _ A B C tX tY Htp G Gb Gb').
Qed.

(** X20.  For every (E, k), started from the same state,
    [green(E, k, format='array')] and [green(E, k, format='bm')] leave
    the same state and either raise the same exception or return a
    dense array and a block matrix that store every one of the nb × nb
    blocks, with the same tile in both; [toarray()] of the block matrix
    is then the dense array, block by block. *)
Theorem green_array_bm_agree (self : device) (E : energy) (k : kpoint)
    (st : state) :
  cache_wf self (data st) →
  let nb := length (btd self) in
  let r1 := green self E k "array" st in
  let r2 := green self E k "bm" st in
  r1.2 = r2.2
  ∧ res_rel (fun g1 g2 =>
        ∃ G Gb D,
          g1 = GArray G ∧ g2 = GBlock Gb
          ∧ BlockMatrix.toarray Gb = Ok D
          ∧ ∀ i j, i < nb → j < nb →
              ∃ t, G !! (i, j) = Some t
                ∧ BlockMatrix._M Gb !! (i, j) = Some t
                ∧ D !! (i, j) = Some t)
      r1.1 r2.1.
Proof.
  intros Hwf nb r1 r2. subst r1 r2. unfold green, bind, get_data, lift.
  destruct (_prepare self E k st) as [[[]|e] st1] eqn:Hprep; [|done].
  destruct (prepare_wf self E k st st1 _ Hwf Hprep) as [_ Hp].
  specialize (Hp eq_refl). simpl. split; [done|].
  pose proof (green_array_bm_prepared self (data st1) Hp) as Hrel.
  unfold res_rel in *.
  destruct (_green_array self (data st1)) as [G|e1],
    (_green_bm self (data st1)) as [Gb|e2]; simpl; try done.
  destruct Hrel as [Hbl Hrel].
  assert (Hlen : 1 ≤ BlockMatrix.len Gb).
  { destruct Hp as (? & ? & ? & ? & ? & ? & ? & ? & _ & Htp).
    pose proof (tp_nb _ _ _ _ _ _ Htp). unfold BlockMatrix.len.
    rewrite Hbl. lia. }
  destruct (toarray_lookup Gb Hlen) as (D & HD & Hcells).
  exists G, Gb, D. repeat (split; [done|]).
  intros i j Hi Hj.
  destruct (Hrel i j Hi Hj) as (t & HG & HGb).
  destruct (Hcells i j) as (v & Hv & HDv);
    [unfold BlockMatrix.len; rewrite Hbl; done..|].
  unfold BlockMatrix.getitem in Hv. rewrite HGb in Hv.
  exists t. split; [done|]. split; [done|]. congruence.
Qed.

End GreenFull.

Lemma green_array_bm_agree_witness :
  let r1 := DeviceGreen.green ZTile.toy 1%Z 0%Z "array" ZTile.fresh in
  let r2 := DeviceGreen.green ZTile.toy 1%Z 0%Z "bm" ZTile.fresh in
  r1.2 = r2.2
  ∧ res_rel (fun g1 g2 =>
        ∃ G Gb D,
          g1 = DeviceGreen.GArray G ∧ g2 = DeviceGreen.GBlock Gb
          ∧ BlockMatrix.toarray Gb = Ok D
          ∧ ∀ i j, i < 3 → j < 3 →
              ∃ t, G !! (i, j) = Some t
                ∧ BlockMatrix._M Gb !! (i, j) = Some t
                ∧ D !! (i, j) = Some t)
      r1.1 r2.1.
Proof.
  apply (green_array_bm_agree ZTile.toy 1%Z 0%Z ZTile.fresh).
  left. reflexivity.
Defined.

(** ** The spectral function in the formats [array], [btd] and [bm] *)

Section SpectralLoops.
Import DeviceGreen.
Context {T : Type} `{TileOps T} `{!DaggerLaws T}.

Variables (nb : nat) (G : gmap nat T) (Gam : T).
Hypothesis Hall : ∀ i, i < nb → is_Some (G !! i).

Lemma spectral_block_assoc (i j : nat) :
  tmul (row_tile G i) (tmul Gam (dagger (row_tile G j)))
  = spectral_block G Gam i j.
Proof. unfold spectral_block. by rewrite tmul_assoc. Qed.

Lemma spectral_block_dagger (i j : nat) :
  dagger Gam = Gam →
  dagger (spectral_block G Gam i j) = spectral_block G Gam j i.
Proof.
  intros HG. unfold spectral_block.
  by rewrite !dagger_mul, dagger_invol, HG, tmul_assoc.
Qed.

(** The inner loop without [herm]: the blocks [lo, hi) of column [jb]. *)
Lemma column_loop (jb lo hi : nat) (BI : BlockMatrix.t T) :
  lo ≤ hi → hi ≤ nb →
  ∃ BI',
    forM (range lo hi) BI (fun ib BI =>
      gi ← read_row G ib;
      Ok (BlockMatrix.setitem BI (ib, jb)
            (tmul gi (tmul Gam (dagger (row_tile G jb)))))) = Ok BI'
    ∧ BlockMatrix.blocks BI' = BlockMatrix.blocks BI
    ∧ ∀ i j, BlockMatrix._M BI' !! (i, j)
        = if decide (j = jb ∧ lo ≤ i < hi)
          then Some (spectral_block G Gam i j)
          else BlockMatrix._M BI !! (i, j).
Proof.
  intros Hle Hhi.
  pose (Inv := fun n (BI' : BlockMatrix.t T) =>
       BlockMatrix.blocks BI' = BlockMatrix.blocks BI
       ∧ ∀ i j, BlockMatrix._M BI' !! (i, j)
           = if decide (j = jb ∧ lo ≤ i < n)
             then Some (spectral_block G Gam i j)
             else BlockMatrix._M BI !! (i, j)).
  apply (forM_range_complete _ Inv); subst Inv; cbv beta; [done| |].
  - split; [done|]. intros i j. case_decide; [lia|done].
  - intros n BI1 Hn [Hbl HM].
    rewrite read_row_Some by (apply Hall; lia). simpl.
    eexists. split; [done|]. split; [done|]. intros i j. simpl.
    rewrite spectral_block_assoc.
    destruct (decide ((i, j) = (n, jb))) as [[= -> ->]|Hne].
    + rewrite lookup_insert_eq. case_decide; [done|lia].
    + rewrite lookup_insert_ne by done. rewrite HM.
      repeat case_decide; try done; try lia.
      destruct Hne. f_equal; lia.
Qed.

(** The inner loop with [herm]: the blocks [lo, hi) above the diagonal
    of column [jb] and their mirror images in row [jb]. *)
Lemma column_loop_herm (jb lo hi : nat) (BI : BlockMatrix.t T) :
  dagger Gam = Gam → lo ≤ hi → hi ≤ jb → jb < nb →
  ∃ BI',
    forM (range lo hi) BI (fun ib BI =>
      gi ← read_row G ib;
      let BI := BlockMatrix.setitem BI (ib, jb)
                  (tmul gi (tmul Gam (dagger (row_tile G jb)))) in
      v ← BlockMatrix.getitem BI (ib, jb);
      Ok (BlockMatrix.setitem BI (jb, ib) (dagger v))) = Ok BI'
    ∧ BlockMatrix.blocks BI' = BlockMatrix.blocks BI
    ∧ ∀ i j, BlockMatrix._M BI' !! (i, j)
        = if decide (j = jb ∧ lo ≤ i < hi ∨ i = jb ∧ lo ≤ j < hi)
          then Some (spectral_block G Gam i j)
          else BlockMatrix._M BI !! (i, j).
Proof.
  intros HG Hle Hhi Hjb.
  pose (Inv := fun n (BI' : BlockMatrix.t T) =>
       BlockMatrix.blocks BI' = BlockMatrix.blocks BI
       ∧ ∀ i j, BlockMatrix._M BI' !! (i, j)
           = if decide (j = jb ∧ lo ≤ i < n ∨ i = jb ∧ lo ≤ j < n)
             then Some (spectral_block G Gam i j)
             else BlockMatrix._M BI !! (i, j)).
  apply (forM_range_complete _ Inv); subst Inv; cbv beta; [done| |].
  - split; [done|]. intros i j. case_decide; [lia|done].
  - intros n BI1 Hn [Hbl HM].
    rewrite read_row_Some by (apply Hall; lia). simpl.
    rewrite (getitem_stored _ (n, jb) _ (lookup_insert_eq _ _ _)). simpl.
    eexists. split; [done|]. split; [done|]. intros i j. simpl.
    rewrite spectral_block_assoc, spectral_block_dagger by done.
    destruct (decide ((i, j) = (jb, n))) as [[= -> ->]|Hne1].
    { rewrite lookup_insert_eq. case_decide; [done|lia]. }
    rewrite lookup_insert_ne by done.
    destruct (decide ((i, j) = (n, jb))) as [[= -> ->]|Hne2].
    { rewrite lookup_insert_eq. case_decide; [done|lia]. }
    rewrite lookup_insert_ne by done. rewrite HM.
    repeat case_decide; try done; try lia.
    assert (i = n ∧ j = jb ∨ i = jb ∧ j = n) as [[-> ->]|[-> ->]] by lia;
      done.
Qed.

(** The loop over the columns without [herm], for any bounds of the
    inner loop. *)
Lemma spectral_loop (lo hi : nat → nat) (BI : BlockMatrix.t T) :
  (∀ j, j < nb → lo j ≤ hi j ≤ nb) →
  ∃ BI',
    forM (range 0 nb) BI (fun jb BI =>
      gj ← read_row G jb;
      let Gj := tmul Gam (dagger gj) in
      forM (range (lo jb) (hi jb)) BI (fun ib BI =>
        gi ← read_row G ib;
        Ok (BlockMatrix.setitem BI (ib, jb) (tmul gi Gj)))) = Ok BI'
    ∧ BlockMatrix.blocks BI' = BlockMatrix.blocks BI
    ∧ ∀ i j, BlockMatrix._M BI' !! (i, j)
        = if decide (j < nb ∧ lo j ≤ i < hi j)
          then Some (spectral_block G Gam i j)
          else BlockMatrix._M BI !! (i, j).
Proof.
  intros Hb.
  pose (Inv := fun n (BI' : BlockMatrix.t T) =>
       BlockMatrix.blocks BI' = BlockMatrix.blocks BI
       ∧ ∀ i j, BlockMatrix._M BI' !! (i, j)
           = if decide (j < n ∧ lo j ≤ i < hi j)
             then Some (spectral_block G Gam i j)
             else BlockMatrix._M BI !! (i, j)).
  apply (forM_range_complete _ Inv); subst Inv; cbv beta; [lia| |].
  - split; [done|]. intros i j. case_decide; [lia|done].
  - intros n BI1 Hn [Hbl HM].
    rewrite read_row_Some by (apply Hall; lia). simpl.
    destruct (column_loop n (lo n) (hi n) BI1)
      as (BI2 & Hrun & Hbl2 & HM2); [apply Hb; lia..|].
    exists BI2. split; [exact Hrun|]. split; [congruence|].
    intros i j. rewrite HM2, HM.
    repeat case_decide; try done; try lia.
    + destruct_and!; subst. lia.
    + destruct_and!. assert (j = n) as -> by lia. lia.
Qed.

(** The loop over the columns with [herm], for any lower bound of the
    inner loop. *)
Lemma spectral_loop_herm (lo : nat → nat) (BI : BlockMatrix.t T) :
  dagger Gam = Gam → (∀ j, lo j ≤ j) →
  ∃ BI',
    forM (range 0 nb) BI (fun jb BI =>
      gj ← read_row G jb;
      let Gj := tmul Gam (dagger gj) in
      BI ← forM (range (lo jb) jb) BI (fun ib BI =>
        gi ← read_row G ib;
        let BI := BlockMatrix.setitem BI (ib, jb) (tmul gi Gj) in
        v ← BlockMatrix.getitem BI (ib, jb);
        Ok (BlockMatrix.setitem BI (jb, ib) (dagger v)));
      gj ← read_row G jb;
      Ok (BlockMatrix.setitem BI (jb, jb) (tmul gj Gj))) = Ok BI'
    ∧ BlockMatrix.blocks BI' = BlockMatrix.blocks BI
    ∧ ∀ i j, BlockMatrix._M BI' !! (i, j)
        = if decide (i < nb ∧ j < nb ∧ (lo j ≤ i ≤ j ∨ lo i ≤ j ≤ i))
          then Some (spectral_block G Gam i j)
          else BlockMatrix._M BI !! (i, j).
Proof.
  intros HG Hlo.
  pose (Inv := fun n (BI' : BlockMatrix.t T) =>
       BlockMatrix.blocks BI' = BlockMatrix.blocks BI
       ∧ ∀ i j, BlockMatrix._M BI' !! (i, j)
           = if decide (i < n ∧ j < n ∧ (lo j ≤ i ≤ j ∨ lo i ≤ j ≤ i))
             then Some (spectral_block G Gam i j)
             else BlockMatrix._M BI !! (i, j)).
  apply (forM_range_complete _ Inv); subst Inv; cbv beta; [lia| |].
  - split; [done|]. intros i j. case_decide; [lia|done].
  - intros n BI1 Hn [Hbl HM].
    rewrite read_row_Some by (apply Hall; lia). simpl.
    destruct (column_loop_herm n (lo n) n BI1)
      as (BI2 & Hrun & Hbl2 & HM2); [done|apply Hlo|lia|lia|].
    simpl in Hrun. rewrite Hrun. simpl.
    eexists. split; [done|]. split; [simpl; congruence|].
    intros i j. simpl. rewrite spectral_block_assoc.
    pose proof (Hlo n) as Hlon.
    destruct (decide ((i, j) = (n, n))) as [[= -> ->]|Hne].
    { rewrite lookup_insert_eq. case_decide; [done|lia]. }
    rewrite lookup_insert_ne by done. rewrite HM2, HM.
    repeat case_decide; try done; exfalso;
      destruct (decide (i = n)) as [->|?];
      destruct (decide (j = n)) as [->|?]; try lia; by destruct Hne.
Qed.

End SpectralLoops.

Section SpectralFormats.
Import DeviceGreen.
Context {T energy kpoint sparse : Type}.
Context `{TileOps T} `{Numerics energy kpoint} `{SparseOps T energy sparse}.
Context `{!DaggerLaws T}.
Variable recursion_limit : nat.

Abbreviation device := (@device T energy kpoint sparse).
Abbreviation state := (@state T energy kpoint).
Abbreviation cache := (@cache T energy kpoint).
Abbreviation elec_arg := (@elec_arg T energy kpoint).

(** On a prepared cache the three column methods raise the same
    exception or return the blocks of one matrix: all of them in the
    formats [array] and [bm], those of the stored pattern in [btd]. *)
Lemma spectral_formats_prepared (self : device) (d : cache)
    (elec : elec_arg) (herm : bool) :
  prepared self d →
  (herm = true → gamma_hermitian d) →
  let nb := length (btd self) in
  res_rel (fun S Bm =>
      BlockMatrix.blocks Bm = btd self
      ∧ (∀ i j, i < nb → j < nb → is_Some (S !! (i, j)))
      ∧ ∀ i j, BlockMatrix._M Bm !! (i, j) = S !! (i, j))
    (_spectral_column self d elec herm)
    (_spectral_column_bm self d elec herm)
  ∧ res_rel (fun S Bt =>
      BlockMatrix.blocks Bt = btd self
      ∧ (∀ i j, i < nb → j < nb → is_Some (S !! (i, j)))
      ∧ ∀ i j, BlockMatrix._M Bt !! (i, j)
          = if herm
            then if decide (i ≤ j + 1 ∧ j ≤ i + 1 ∧ i < nb ∧ j < nb)
                 then S !! (i, j) else None
            else if decide (i ≤ j ∧ j ≤ i + 1 ∧ i + 1 < nb)
                 then S !! (i, j) else None)
    (_spectral_column self d elec herm)
    (_spectral_column_btd self d elec herm).
Proof.
  intros (gam & A & B & C & tX & tY & E & k & -> & Htp) Hgam nb.
  unfold _spectral_column, _spectral_column_bm, _spectral_column_btd.
  destruct (list_getitem (elecs_pvt_dev self) elec) as [idx|]; simpl;
    [|done].
  pose proof (green_column_diag_block self idx A B C tX tY gam E k Htp) as Hcd.
  simpl in Hcd.
  destruct (_green_column self _ idx) as [Gc|]; simpl; [|done].
  destruct (_green_diag_block self _ idx) as [[blocks Ab]|]; [|done].
  destruct Hcd as (b0 & b1 & _ & _ & _ & Hall & _ & _).
  destruct (list_getitem gam elec) as [Gam|] eqn:HGam; simpl; [|done].
  assert (Hherm : herm = true → dagger Gam = Gam).
  { intros Hh. specialize (Hgam Hh gam eq_refl).
    rewrite Forall_forall in Hgam. apply Hgam.
    by eapply list_getitem_elem. }
  destruct (outer_spec (range 0 (length (btd self))) Gc Gam)
    as (S & -> & HS).
  { intros j Hj. apply Hall. apply elem_of_seq in Hj. lia. }
  assert (HSome : ∀ i j, i < nb → j < nb → is_Some (S !! (i, j))).
  { intros i j Hi Hj. rewrite HS, decide_True; [done|].
    unfold range. rewrite !elem_of_seq. subst nb. lia. }
  assert (HSin : ∀ i j, i < nb → j < nb →
            S !! (i, j) = Some (spectral_block Gc Gam i j)).
  { intros i j Hi Hj. rewrite HS, decide_True; [done|].
    unfold range. rewrite !elem_of_seq. subst nb. lia. }
  assert (HSout : ∀ i j, ¬ (i < nb ∧ j < nb) → S !! (i, j) = None).
  { intros i j Hij. rewrite HS, decide_False; [done|].
    unfold range. rewrite !elem_of_seq. subst nb. lia. }
  destruct (bool_cases herm) as [Hh|Hh]; subst herm.
  - specialize (Hherm eq_refl).
    destruct (spectral_loop_herm nb Gc Gam Hall (fun _ => 0)
                (BlockMatrix.init (btd self)) Hherm)
      as (Bm & Hbm & Hblm & HMm); [intros; lia|].
    destruct (spectral_loop_herm nb Gc Gam Hall (fun jb => max 0 (jb - 1))
                (BlockMatrix.init (btd self)) Hherm)
      as (Bt & Hbt & Hblt & HMt); [intros; lia|].
    simpl in Hbm, Hbt. subst nb. rewrite Hbm, Hbt. simpl.
    split; (split; [done|]; split; [done|]); intros i j.
    + rewrite HMm. simpl. rewrite lookup_empty.
      case_decide; [rewrite HSin; [done|lia..]|rewrite HSout; [done|lia]].
    + rewrite HMt. simpl. rewrite lookup_empty.
      repeat case_decide; try done; try lia.
      rewrite HSin; [done|lia..].
  - destruct (spectral_loop nb Gc Gam Hall (fun _ => 0) (fun _ => nb)
                (BlockMatrix.init (btd self)))
      as (Bm & Hbm & Hblm & HMm); [intros; lia|].
    destruct (spectral_loop nb Gc Gam Hall (fun jb => max 0 (jb - 1))
                (fun jb => min (jb + 1) (nb - 1))
                (BlockMatrix.init (btd self)))
      as (Bt & Hbt & Hblt & HMt); [intros; lia|].
    simpl in Hbm, Hbt. subst nb. rewrite Hbm, Hbt. simpl.
    split; (split; [done|]; split; [done|]); intros i j.
    + rewrite HMm. simpl. rewrite lookup_empty.
      case_decide; [rewrite HSin; [done|lia..]|rewrite HSout; [done|lia]].
    + rewrite HMt. simpl. rewrite lookup_empty.
      repeat case_decide; try done; try lia.
      rewrite HSin; [done|lia..].
Qed.

(** X21.  For every (E, k) and electrode argument, started from the
    same state, and, when [herm] is set, with every Γ Hermitian (the
    lower triangle is then stored as the conjugate transpose of the
    upper one): [spectral(e, E, k, format='array')] and
    [spectral(e, E, k, format='bm')] leave the same state and either
    raise the same exception or return a dense matrix with all nb × nb
    blocks and a block matrix that stores exactly the same blocks. *)
Theorem spectral_bm_agrees_with_array (self : device) (elec : elec_arg)
    (E : energy) (k : kpoint) (herm : bool) (st : state) :
  cache_wf self (data st) →
  (herm = true →
     gamma_hermitian (data st)
     ∧ Forall (fun el => ∀ t, dagger (se2scat el t) = se2scat el t)
         (elecs self)) →
  let nb := length (btd self) in
  let r1 := spectral recursion_limit self elec E k "array" "column" herm st in
  let r2 := spectral recursion_limit self elec E k "bm" "column" herm st in
  r1.2 = r2.2
  ∧ res_rel (fun s1 s2 =>
        ∃ S Bm,
          s1 = SDense S ∧ s2 = SBlock Bm
          ∧ BlockMatrix.blocks Bm = btd self
          ∧ (∀ i j, i < nb → j < nb → is_Some (S !! (i, j)))
          ∧ BlockMatrix._M Bm = S)
      r1.1 r2.1.
Proof.
  intros Hwf Hgam nb r1 r2. subst r1 r2.
  unfold spectral, bind, get_data, lift.
  destruct (_prepare self E k st) as [[[]|e] st1] eqn:Hprep; [|done].
  destruct (prepare_wf self E k st st1 _ Hwf Hprep) as [_ Hp].
  specialize (Hp eq_refl).
  assert (Hgam1 : herm = true → gamma_hermitian (data st1)).
  { intros Hh. destruct (Hgam Hh) as [Hg Hels].
    by eapply prepare_gamma_hermitian. }
  destruct (spectral_formats_prepared self (data st1) (_elec self elec) herm
              Hp Hgam1) as [Hbm _].
  simpl. split; [done|].
  unfold res_rel in *.
  destruct (_spectral_column _ _ _ _) as [S|],
    (_spectral_column_bm _ _ _ _) as [Bm|]; simpl; try done.
  destruct Hbm as (Hbl & HS & HM).
  exists S, Bm. repeat (split; [done|]).
  apply map_eq. intros [i j]. apply HM.
Qed.

(** X22.  Under the same conditions [spectral(e, E, k, format='btd')]
    leaves the state of [format='array'] and raises the same exception
    or returns a block matrix whose stored blocks are blocks of the
    dense matrix: with [herm] set the whole block-tridiagonal part;
    with [herm] unset only the diagonal and the super-diagonal without
    the last diagonal block, so that neither a sub-diagonal block nor
    block (nb-1, nb-1) is stored. *)
Theorem spectral_btd_stored_blocks (self : device) (elec : elec_arg)
    (E : energy) (k : kpoint) (herm : bool) (st : state) :
  cache_wf self (data st) →
  (herm = true →
     gamma_hermitian (data st)
     ∧ Forall (fun el => ∀ t, dagger (se2scat el t) = se2scat el t)
         (elecs self)) →
  let nb := length (btd self) in
  let r1 := spectral recursion_limit self elec E k "array" "column" herm st in
  let r2 := spectral recursion_limit self elec E k "btd" "column" herm st in
  r1.2 = r2.2
  ∧ res_rel (fun s1 s2 =>
        ∃ S Bt,
          s1 = SDense S ∧ s2 = SBlock Bt
          ∧ BlockMatrix.blocks Bt = btd self
          ∧ (∀ i j, i < nb → j < nb → is_Some (S !! (i, j)))
          ∧ ∀ i j, BlockMatrix._M Bt !! (i, j)
              = if herm
                then if decide (i ≤ j + 1 ∧ j ≤ i + 1 ∧ i < nb ∧ j < nb)
                     then S !! (i, j) else None
                else if decide (i ≤ j ∧ j ≤ i + 1 ∧ i + 1 < nb)
                     then S !! (i, j) else None)
      r1.1 r2.1.
Proof.
  intros Hwf Hgam nb r1 r2. subst r1 r2.
  unfold spectral, bind, get_data, lift.
  destruct (_prepare self E k st) as [[[]|e] st1] eqn:Hprep; [|done].
  destruct (prepare_wf self E k st st1 _ Hwf Hprep) as [_ Hp].
  specialize (Hp eq_refl).
  assert (Hgam1 : herm = true → gamma_hermitian (data st1)).
  { intros Hh. destruct (Hgam Hh) as [Hg Hels].
    by eapply prepare_gamma_hermitian. }
  destruct (spectral_formats_prepared self (data st1) (_elec self elec) herm
              Hp Hgam1) as [_ Hbt].
  simpl. split; [done|].
  unfold res_rel in *.
  destruct (_spectral_column _ _ _ _) as [S|],
    (_spectral_column_btd _ _ _ _) as [Bt|]; simpl; try done.
  destruct Hbt as (Hbl & HS & HM).
  exists S, Bt. by repeat (split; [done|]).
Qed.

End SpectralFormats.

Lemma spectral_bm_agrees_with_array_witness :
  let r1 :=
    DeviceGreen.spectral 100 ZTile.toy (DeviceGreen.EStr "L") 1%Z 0%Z
      "array" "column" true ZTile.fresh in
  let r2 :=
    DeviceGreen.spectral 100 ZTile.toy (DeviceGreen.EStr "L") 1%Z 0%Z
      "bm" "column" true ZTile.fresh in
  r1.2 = r2.2
  ∧ res_rel (fun s1 s2 =>
        ∃ S Bm,
          s1 = DeviceGreen.SDense S ∧ s2 = DeviceGreen.SBlock Bm
          ∧ BlockMatrix.blocks Bm = DeviceGreen.btd ZTile.toy
          ∧ (∀ i j, i < 3 → j < 3 → is_Some (S !! (i, j)))
          ∧ BlockMatrix._M Bm = S)
      r1.1 r2.1.
Proof.
  apply (spectral_bm_agrees_with_array 100
           (DaggerLaws0 := ztile_dagger_laws)
           ZTile.toy (DeviceGreen.EStr "L") 1%Z 0%Z true ZTile.fresh).
  - left. reflexivity.
  - intros _. split; [intros gamma Hg; discriminate Hg|].
    repeat constructor.
Defined.

Lemma spectral_btd_stored_blocks_witness :
  let r1 :=
    DeviceGreen.spectral 100 ZTile.toy (DeviceGreen.EStr "L") 1%Z 0%Z
      "array" "column" false ZTile.fresh in
  let r2 :=
    DeviceGreen.spectral 100 ZTile.toy (DeviceGreen.EStr "L") 1%Z 0%Z
      "btd" "column" false ZTile.fresh in
  (r1.2 = r2.2
   ∧ res_rel (fun s1 s2 =>
        ∃ S Bt,
          s1 = DeviceGreen.SDense S ∧ s2 = DeviceGreen.SBlock Bt
          ∧ BlockMatrix.blocks Bt = DeviceGreen.btd ZTile.toy
          ∧ (∀ i j, i < 3 → j < 3 → is_Some (S !! (i, j)))
          ∧ ∀ i j, BlockMatrix._M Bt !! (i, j)
              = if decide (i ≤ j ∧ j ≤ i + 1 ∧ i + 1 < 3)
                then S !! (i, j) else None)
      r1.1 r2.1)
  ∧ ∃ Bt, r2.1 = Ok (DeviceGreen.SBlock Bt)
      ∧ BlockMatrix._M Bt !! (2, 2) = None
      ∧ BlockMatrix._M Bt !! (1, 0) = None.
Proof.
  split.
  - apply (spectral_btd_stored_blocks 100
             (DaggerLaws0 := ztile_dagger_laws)
             ZTile.toy (DeviceGreen.EStr "L") 1%Z 0%Z false ZTile.fresh).
    + left. reflexivity.
    + intros Hh. discriminate Hh.
  - eexists. repeat split; vm_compute; reflexivity.
Defined.

(** ** The index checks of the column methods *)

Lemma cumsum_from_ge (acc : nat) (l : list nat) (i c : nat) :
  cumsum_from acc l !! i = Some c → acc ≤ c.
Proof.
  revert acc i. induction l as [|x l IH]; intros acc i; [done|].
  destruct i as [|i]; simpl.
  - intros [= <-]. lia.
  - intros Hc. apply IH in Hc. lia.
Qed.

Lemma cumsum_from_mono (acc : nat) (l : list nat) (i j ci cj : nat) :
  i ≤ j → cumsum_from acc l !! i = Some ci →
  cumsum_from acc l !! j = Some cj → ci ≤ cj.
Proof.
  revert acc i j. induction l as [|x l IH]; intros acc i j Hij; [done|].
  destruct i as [|i], j as [|j]; simpl; try lia.
  - intros [= <-] [= <-]. lia.
  - intros [= <-] Hj. by apply cumsum_from_ge in Hj.
  - apply IH. lia.
Qed.

Section FindBlock.
Import DeviceGreen.
Context {T : Type} `{TileOps T}.

Lemma np_min_spec (idx : list nat) (mn : nat) :
  np_min idx = Ok mn → mn ∈ idx ∧ ∀ z, z ∈ idx → mn ≤ z.
Proof.
  destruct idx as [|x r]; [done|]. simpl. intros [= <-].
  induction r as [|y r [IHin IHle]]; simpl.
  - split; [apply elem_of_cons; by left|].
    intros z Hz%elem_of_cons. destruct Hz as [->|Hz]; [lia|].
    by apply elem_of_nil in Hz.
  - pose proof (IHle x ltac:(apply elem_of_cons; by left)) as Hx.
    split.
    + destruct (Nat.min_spec y (foldr Nat.min x r)) as [[_ ->]|[_ ->]].
      * apply elem_of_cons. right. apply elem_of_cons. by left.
      * apply elem_of_cons in IHin as [Heq|Hin]; apply elem_of_cons.
        -- by left.
        -- right. apply elem_of_cons. by right.
    + intros z Hz. apply elem_of_cons in Hz as [->|Hz]; [lia|].
      apply elem_of_cons in Hz as [->|Hz]; [lia|].
      pose proof (IHle z ltac:(apply elem_of_cons; by right)). lia.
Qed.

Lemma np_max_spec (idx : list nat) (mx : nat) :
  np_max idx = Ok mx → mx ∈ idx ∧ ∀ z, z ∈ idx → z ≤ mx.
Proof.
  destruct idx as [|x r]; [done|]. simpl. intros [= <-].
  induction r as [|y r [IHin IHle]]; simpl.
  - split; [apply elem_of_cons; by left|].
    intros z Hz%elem_of_cons. destruct Hz as [->|Hz]; [lia|].
    by apply elem_of_nil in Hz.
  - pose proof (IHle x ltac:(apply elem_of_cons; by left)) as Hx.
    split.
    + destruct (Nat.max_spec y (foldr Nat.max x r)) as [[_ ->]|[_ ->]].
      * apply elem_of_cons in IHin as [Heq|Hin]; apply elem_of_cons.
        -- by left.
        -- right. apply elem_of_cons. by right.
      * apply elem_of_cons. right. apply elem_of_cons. by left.
    + intros z Hz. apply elem_of_cons in Hz as [->|Hz]; [lia|].
      apply elem_of_cons in Hz as [->|Hz]; [lia|].
      pose proof (IHle z ltac:(apply elem_of_cons; by right)). lia.
Qed.

Lemma find_block_Err (v : nat) (cum : list nat) (e : exn) :
  find_block v cum = Err e → e = IndexError ∧ ∀ c, c ∈ cum → c ≤ v.
Proof.
  unfold find_block.
  destruct (list_find _ cum) as [[b c]|] eqn:Hfind; [done|].
  intros [= <-]. split; [done|]. intros c Hc.
  apply list_find_None in Hfind. rewrite Forall_forall in Hfind.
  specialize (Hfind c Hc). simpl in Hfind. lia.
Qed.

Lemma find_block_beyond (v : nat) (cum : list nat) :
  (∀ c, c ∈ cum → c ≤ v) → find_block v cum = Err IndexError.
Proof.
  intros Hall. unfold find_block.
  destruct (list_find _ cum) as [[b c]|] eqn:Hfind; [|done].
  apply list_find_Some in Hfind as (Hc & Hv & _).
  apply list_elem_of_lookup_2 in Hc. apply Hall in Hc. lia.
Qed.

Lemma find_block_inside (v : nat) (cum : list nat) (c : nat) :
  c ∈ cum → v < c → ∃ b c', find_block v cum = Ok b
    ∧ cum !! b = Some c' ∧ v < c'.
Proof.
  intros Hc Hv. unfold find_block.
  destruct (list_find _ cum) as [[b c']|] eqn:Hfind.
  - apply list_find_Some in Hfind as (Hc' & Hv' & _). by eauto.
  - apply list_find_None in Hfind. rewrite Forall_forall in Hfind.
    specialize (Hfind c Hc). simpl in Hfind. lia.
Qed.

End FindBlock.

Section ColumnChecks.
Import DeviceGreen.
Context {T energy kpoint sparse : Type}.
Context `{TileOps T} `{Numerics energy kpoint} `{SparseOps T energy sparse}.

Abbreviation device := (@device T energy kpoint sparse).
Abbreviation state := (@state T energy kpoint).
Abbreviation cache := (@cache T energy kpoint).

(** X23.  [_green_column] and [_green_diag_block] check the orbital
    indices before they read the cache, so that for every cache:
    without indices both raise the [ValueError] of [idx.min()]; with an
    index that no entry of [btd_cum] exceeds both raise [IndexError];
    and with all indices inside the device, one of them in block b or
    before and one after block b + 1, both raise their
    [AssertionError]. *)
Theorem green_column_index_checks (self : device) (d : cache)
    (idx : list nat) :
  (idx = [] →
     _green_column self d idx
     = Err (ValueError "zero-size array to reduction operation minimum which has no identity")
     ∧ _green_diag_block self d idx
       = Err (ValueError "zero-size array to reduction operation minimum which has no identity"))
  ∧ (∀ x, x ∈ idx → (∀ c, c ∈ btd_cum self → c ≤ x) →
       _green_column self d idx = Err IndexError
       ∧ _green_diag_block self d idx = Err IndexError)
  ∧ (∀ x y b cb cb1,
       (∀ z, z ∈ idx → ∃ c, c ∈ btd_cum self ∧ z < c) →
       x ∈ idx → y ∈ idx →
       btd_cum self !! b = Some cb → x < cb →
       btd_cum self !! (b + 1) = Some cb1 → cb1 ≤ y →
       _green_column self d idx
       = Err (AssertionError
           "DeviceGreen Green column requires consecutive indices maximally spanning 2 blocks.")
       ∧ _green_diag_block self d idx
         = Err (AssertionError
             "DeviceGreen requires G calculation for only 1 or 2 blocks")).
Proof.
  split; [by intros ->|]. split.
  - intros x Hx Hbeyond. unfold _green_column, _green_diag_block.
    destruct (np_min idx) as [mn|e] eqn:Hmn.
    2:{ destruct idx; [set_solver|done]. }
    simpl.
    destruct (find_block mn (btd_cum self)) as [b1|e] eqn:Hb1; simpl.
    2:{ by destruct (find_block_Err _ _ _ Hb1) as [-> _]. }
    destruct (np_max idx) as [mx|e] eqn:Hmx.
    2:{ destruct idx; [set_solver|done]. }
    simpl. destruct (np_max_spec _ _ Hmx) as [_ Hle].
    rewrite find_block_beyond; [done|].
    intros c Hc. specialize (Hbeyond c Hc). specialize (Hle x Hx). lia.
  - intros x y b cb cb1 Hin Hx Hy Hcb Hxb Hcb1 Hyb.
    unfold _green_column, _green_diag_block.
    destruct (np_min idx) as [mn|e] eqn:Hmn.
    2:{ destruct idx; [set_solver|done]. }
    destruct (np_max idx) as [mx|e] eqn:Hmx.
    2:{ destruct idx; [set_solver|done]. }
    destruct (np_min_spec _ _ Hmn) as [Hmnin Hmnle].
    destruct (np_max_spec _ _ Hmx) as [Hmxin Hmxle].
    destruct (Hin mn Hmnin) as (c1 & Hc1 & Hlt1).
    destruct (find_block_inside mn _ c1 Hc1 Hlt1) as (b1 & c1' & Hb1 & _ & _).
    destruct (Hin mx Hmxin) as (c2 & Hc2 & Hlt2).
    destruct (find_block_inside mx _ c2 Hc2 Hlt2)
      as (b2 & c2' & Hb2 & Hc2' & Hlt2').
    simpl. rewrite Hb1. simpl. rewrite Hb2. simpl.
    assert (Hb1b : b1 ≤ b).
    { destruct (find_block_Ok _ _ _ Hb1) as [_ Hfirst].
      apply (Hfirst b cb Hcb). specialize (Hmnle x Hx). lia. }
    assert (Hb2b : b + 1 < b2).
    { destruct (decide (b + 1 < b2)) as [|Hn]; [done|]. exfalso.
      pose proof (cumsum_from_mono 0 (btd self) b2 (b + 1) c2' cb1
                    ltac:(lia) Hc2' Hcb1).
      specialize (Hmxle y Hy). lia. }
    rewrite !decide_False by lia. simpl.
    rewrite decide_False; [done|].
    unfold range. rewrite length_seq. lia.
Qed.

(** X24.  On a prepared cache [_green_diag_block] and [_green_column]
    raise together or return together; then the first names one block
    or two consecutive blocks, the second has a tile for every block
    of rows, and on the named blocks the two arrays hold the same
    tiles. *)
Theorem green_diag_block_rows_of_column (self : device) (d : cache)
    (idx : list nat) :
  prepared self d →
  match _green_column self d idx, _green_diag_block self d idx with
  | Ok Gc, Ok (blocks, Ab) =>
      (∃ b0, b0 < length (btd self)
         ∧ (blocks = [b0]
            ∨ blocks = [b0; b0 + 1] ∧ b0 + 1 < length (btd self)))
      ∧ (∀ i, i < length (btd self) → is_Some (Gc !! i))
      ∧ ∀ b, b ∈ blocks → is_Some (Ab !! b) ∧ Gc !! b = Ab !! b
  | Err _, Err _ => True
  | _, _ => False
  end.
Proof.
  intros (gam & A & B & C & tX & tY & E & k & -> & Htp).
  pose proof (green_column_diag_block self idx A B C tX tY gam E k Htp) as Hcd.
  simpl in Hcd.
  destruct (_green_column self _ idx) as [Gc|],
    (_green_diag_block self _ idx) as [[blocks Ab]|]; try done.
  destruct Hcd as (b0 & b1 & Hb & Hblocks & Hrows & Hall & _ & _).
  split; [|split; [done|]].
  - exists b0. split; [lia|].
    destruct Hblocks as [[-> ->]|[-> ->]]; [by left|right]. split; [done|lia].
  - intros b Hbin. apply Hrows.
    destruct Hblocks as [[-> ->]|[-> ->]]; set_unfold; lia.
Qed.

End ColumnChecks.

Lemma green_column_index_checks_witness :
  DeviceGreen._green_column ZTile.toy (DeviceGreen.data ZTile.fresh) [0; 7]
  = Err IndexError
  ∧ DeviceGreen._green_diag_block ZTile.toy (DeviceGreen.data ZTile.fresh)
      [0; 2]
    = Err (AssertionError
        "DeviceGreen requires G calculation for only 1 or 2 blocks").
Proof.
  destruct (green_column_index_checks ZTile.toy
              (DeviceGreen.data ZTile.fresh) [0; 7]) as (_ & Hout & _).
  destruct (green_column_index_checks ZTile.toy
              (DeviceGreen.data ZTile.fresh) [0; 2]) as (_ & _ & Hspan).
  split.
  - apply (Hout 7); [set_solver|].
    intros c Hc. vm_compute in Hc. set_unfold. lia.
  - apply (Hspan 0 2 0 1 2); try reflexivity; try lia; [|set_solver..].
    intros z Hz. exists 3. vm_compute. set_unfold. lia.
Defined.

Lemma green_diag_block_rows_of_column_witness :
  match
    DeviceGreen._green_column ZTile.toy (DeviceGreen.data ZTile.prepared) [0],
    DeviceGreen._green_diag_block ZTile.toy (DeviceGreen.data ZTile.prepared)
      [0]
  with
  | Ok Gc, Ok (blocks, Ab) =>
      blocks = [0] ∧ is_Some (Gc !! 2) ∧ Gc !! 0 = Ab !! 0
  | _, _ => False
  end.
Proof.
  pose proof (green_diag_block_rows_of_column ZTile.toy
                (DeviceGreen.data ZTile.prepared) [0]
                (proj2 (prepare_wf ZTile.toy 1%Z 0%Z ZTile.fresh
                          ZTile.prepared (Ok tt) (or_introl eq_refl)
                          eq_refl) eq_refl)) as Hagree.
  destruct (DeviceGreen._green_column ZTile.toy
              (DeviceGreen.data ZTile.prepared) [0]) as [Gc|e] eqn:Hc;
    [|vm_compute in Hc; discriminate].
  destruct (DeviceGreen._green_diag_block ZTile.toy
              (DeviceGreen.data ZTile.prepared) [0]) as [[blocks Ab]|e] eqn:Hd;
    [|vm_compute in Hd; discriminate].
  destruct Hagree as (_ & Hall & Hrows).
  assert (Hbl : blocks = [0]) by (vm_compute in Hd; congruence).
  split; [exact Hbl|]. split; [apply Hall; simpl; lia|].
  apply Hrows. rewrite Hbl. set_solver.
Defined.
